(** * The MPI messaging layer of GraphLab ([graphlab/comm/mpi_comm.cpp])

    A shallow embedding of [mpi_comm]: the padded, double-buffered send
    window with its length counters, the flush engine, and the framed
    per-source receive buffers.

    Conventions of the embedding.
    - [size_t] is the 64-bit unsigned type of LP64 targets: a [Z] kept in
      [0, 2^64) by [wrap] after every arithmetic operation of the source.
    - [sizeof(send_type)] = [sizeof(double)] = 8 and
      [sizeof(comm_header)] = [sizeof(size_t)] = 8.
    - A [char*] handed to the layer is the sequence of bytes found at
      that address: a function from the index to the byte.
    - The byte queue of a receive buffer (a [std::stringbuf]) is the list
      of bytes written and not yet read.
    - One thread runs at a time: a lock, the reference-count spin and the
      CAS retry loop all succeed at their first attempt.
    - The class declaration ([mpi_comm.hpp]) is not reproduced; the
      types of the fields are read off their uses in [mpi_comm.cpp]:
      counters, lengths, the group selector, the cursor and the time
      stamps are [size_t].
    - [int] is the 32-bit signed type: a conversion to [int] is
      [to_int], the value modulo [2^32] taken in [-2^31, 2^31). The
      arrays handed to MPI ([send_buffer_sizes], [recv_buffer_sizes],
      [recv_buffer_offsets], [_offset_by_datatype]) hold [int]s.
    - The transport is MPI. What it carries is taken from the spec's
      transport contract: whole elements, delivered in order and without
      loss, for the counts and displacements it is handed. *)

From Stdlib Require Import ZArith List Lia Bool.
From coqutil Require Import Byte Word.LittleEndianList.
Import ListNotations.
Local Open Scope Z_scope.

(** ** Machine integers *)

Definition size_t_modulus : Z := 2 ^ 64.

Definition wrap (z : Z) : Z := z mod size_t_modulus.

Definition is_size_t (z : Z) : Prop := 0 <= z < size_t_modulus.

(** Conversion to [int], as in [int x = some_size_t;]. *)
Definition to_int (z : Z) : Z := (z + 2 ^ 31) mod 2 ^ 32 - 2 ^ 31.

Definition sizeof_send_type : Z := 8.

Definition sizeof_comm_header : Z := 8.

(** [size_t get_padded_length(size_t length)] *)
Definition get_padded_length (length : Z) : Z :=
  wrap ((length / sizeof_send_type
         + (if 0 <? length mod sizeof_send_type then 1 else 0))
        * sizeof_send_type).

(** ** Receive buffers *)

(** [struct receive_buffer_type]; [buffer] holds the unread contents of
    the [std::stringbuf]. *)
Record receive_buffer_type : Type := mk_receive_buffer {
  buflen : Z;
  buffer : list byte;
  next_message_length : Z;
  padded_next_message_length : Z
}.

(** [std::stringbuf::sgetn(dst, n)]: the bytes read (at most [n]) and
    what stays in the queue. *)
Definition sgetn (q : list byte) (n : Z) : list byte * list byte :=
  (firstn (Z.to_nat n) q, skipn (Z.to_nat n) q).

(** [std::stringbuf::sputn(v, n)]: append the first [n] bytes at [v]. *)
Definition sputn (q : list byte) (v : list byte) (n : Z) : list byte :=
  q ++ firstn (Z.to_nat n) v.

(** The [length] field of a [comm_header] read from raw bytes. *)
Definition header_length (hdr : list byte) : Z := le_combine hdr.

(** The bytes of a [comm_header] whose [length] field is [len]. *)
Definition header_bytes (len : Z) : list byte := le_split 8 len.

(** Body of [mpi_comm::locked_read_header_from_buffer] on the buffer it
    selects. Should the queue hold fewer than eight bytes although
    [buflen] says otherwise, the header is decoded from the bytes that
    are there. *)
Definition read_header (curbuf : receive_buffer_type) : receive_buffer_type :=
  if (next_message_length curbuf =? 0)
     && (sizeof_comm_header <=? buflen curbuf)
  then
    let (header, rest) := sgetn (buffer curbuf) sizeof_comm_header in
    {| buflen := wrap (buflen curbuf - sizeof_comm_header);
       buffer := rest;
       next_message_length := header_length header;
       padded_next_message_length := get_padded_length (header_length header) |}
  else curbuf.

(** Body of [mpi_comm::insert_receive_buffer] on the buffer it selects. *)
Definition insert_bytes (curbuf : receive_buffer_type) (v : list byte)
    (length : Z) : receive_buffer_type :=
  read_header
    {| buflen := wrap (buflen curbuf + length);
       buffer := sputn (buffer curbuf) v length;
       next_message_length := next_message_length curbuf;
       padded_next_message_length := padded_next_message_length curbuf |}.

(** Body of [mpi_comm::receive(int, size_t* )] on the buffer it selects:
    the returned block with the value stored through [length], or [None]
    for [NULL]. *)
Definition take_message (curbuf : receive_buffer_type)
    : option (list byte * Z) * receive_buffer_type :=
  if (padded_next_message_length curbuf =? 0)
     || (buflen curbuf <? padded_next_message_length curbuf)
  then (None, curbuf)
  else if (0 <? padded_next_message_length curbuf)
          && (padded_next_message_length curbuf <=? buflen curbuf)
  then
    let (ret, rest) := sgetn (buffer curbuf) (padded_next_message_length curbuf) in
    (Some (ret, next_message_length curbuf),
     read_header
       {| buflen := wrap (buflen curbuf - padded_next_message_length curbuf);
          buffer := rest;
          next_message_length := 0;
          padded_next_message_length := 0 |})
  else (None, curbuf).

(** The receive buffer the constructor builds. *)
Definition empty_receive_buffer : receive_buffer_type :=
  {| buflen := 0; buffer := []; next_message_length := 0;
     padded_next_message_length := 0 |}.

(** ** Errors and loops *)

(** [None] stands for a run the source does not survive: a failed
    [assert] or an access outside a vector or a window. *)
Definition bind {A B : Type} (m : option A) (k : A -> option B) : option B :=
  match m with
  | Some a => k a
  | None => None
  end.

Notation "x <- m ;; k" := (bind m (fun x => k))
  (at level 61, m at next level, right associativity).
Notation "' p <- m ;; k" := (bind m (fun x => let p := x in k))
  (at level 61, p pattern, m at next level, right associativity).

(** [assert(b)] *)
Definition ensure (b : bool) : option unit := if b then Some tt else None.

(** Outcome of a call that loops: it returns, it aborts, or the loop is
    still running when the fuel is spent. *)
Inductive outcome (A : Type) : Type :=
| Returns (a : A)
| Aborts
| Spins.

Arguments Returns {A} a.
Arguments Aborts {A}.
Arguments Spins {A}.

Definition lift {A : Type} (m : option A) : outcome A :=
  match m with
  | Some a => Returns a
  | None => Aborts
  end.

Definition and_then {A B : Type} (m : outcome A) (k : A -> outcome B) : outcome B :=
  match m with
  | Returns a => k a
  | Aborts => Aborts
  | Spins => Spins
  end.

(** ** Vectors and arrays *)

(** [v[i]] for a [std::vector]; outside the vector there is no value. *)
Definition at_index {A : Type} (v : list A) (i : Z) : option A :=
  if i <? 0 then None else nth_error v (Z.to_nat i).

Fixpoint set_nth {A : Type} (n : nat) (v : list A) (a : A) : list A :=
  match v, n with
  | [], _ => []
  | _ :: t, O => a :: t
  | x :: t, S n' => x :: set_nth n' t a
  end.

(** [v[i] = a] *)
Definition store {A : Type} (v : list A) (i : Z) (a : A) : option (list A) :=
  if (0 <=? i) && (i <? Z.of_nat (length v))
  then Some (set_nth (Z.to_nat i) v a) else None.

(** The two send groups: arrays indexed by 0 and 1. *)
Definition get2 {A : Type} (p : A * A) (idx : Z) : A :=
  if idx =? 0 then fst p else snd p.

Definition set2 {A : Type} (p : A * A) (idx : Z) (a : A) : A * A :=
  if idx =? 0 then (a, snd p) else (fst p, a).

(** [memcpy(base + off, src, n)] into a region [base]. *)
Definition memcpy (base : list byte) (off : Z) (src : nat -> byte) (n : Z)
    : option (list byte) :=
  if (0 <=? off) && (0 <=? n) && (off + n <=? Z.of_nat (length base))
  then Some (firstn (Z.to_nat off) base
             ++ map src (seq 0 (Z.to_nat n))
             ++ skipn (Z.to_nat (off + n)) base)
  else None.

(** [ptr + k] *)
Definition advance (ptr : nat -> byte) (k : Z) : nat -> byte :=
  fun i => ptr (Z.to_nat k + i)%nat.

(** The address of a local object holding the bytes [bs]. *)
Definition pointer_to (bs : list byte) : nat -> byte :=
  fun i => nth i bs Byte.x00.

(** ** The communicator *)

Record mpi_comm : Type := mk_mpi_comm {
  _size : Z;
  _send_window_size : Z;
  _max_sendlength_per_machine : Z;
  _offset : list Z;
  _offset_by_datatype : list Z;
  _sendlength : list Z * list Z;
  _send_base : list byte * list byte;
  _cur_send_buffer : Z;
  _last_garbage_collect_ms : Z * Z;
  _last_receive_buffer_read_from : Z;
  _receive_buffer : list receive_buffer_type;
  _num_nodes_flushing_threads_done : Z;
  _flushing_thread_done : bool
}.

Definition set_sendlength (c : mpi_comm) (v : list Z * list Z) : mpi_comm :=
  mk_mpi_comm (_size c) (_send_window_size c) (_max_sendlength_per_machine c)
    (_offset c) (_offset_by_datatype c) v (_send_base c) (_cur_send_buffer c)
    (_last_garbage_collect_ms c) (_last_receive_buffer_read_from c)
    (_receive_buffer c) (_num_nodes_flushing_threads_done c)
    (_flushing_thread_done c).

Definition set_send_base (c : mpi_comm) (v : list byte * list byte) : mpi_comm :=
  mk_mpi_comm (_size c) (_send_window_size c) (_max_sendlength_per_machine c)
    (_offset c) (_offset_by_datatype c) (_sendlength c) v (_cur_send_buffer c)
    (_last_garbage_collect_ms c) (_last_receive_buffer_read_from c)
    (_receive_buffer c) (_num_nodes_flushing_threads_done c)
    (_flushing_thread_done c).

Definition set_cur_send_buffer (c : mpi_comm) (v : Z) : mpi_comm :=
  mk_mpi_comm (_size c) (_send_window_size c) (_max_sendlength_per_machine c)
    (_offset c) (_offset_by_datatype c) (_sendlength c) (_send_base c) v
    (_last_garbage_collect_ms c) (_last_receive_buffer_read_from c)
    (_receive_buffer c) (_num_nodes_flushing_threads_done c)
    (_flushing_thread_done c).

Definition set_last_garbage_collect_ms (c : mpi_comm) (v : Z * Z) : mpi_comm :=
  mk_mpi_comm (_size c) (_send_window_size c) (_max_sendlength_per_machine c)
    (_offset c) (_offset_by_datatype c) (_sendlength c) (_send_base c)
    (_cur_send_buffer c) v (_last_receive_buffer_read_from c)
    (_receive_buffer c) (_num_nodes_flushing_threads_done c)
    (_flushing_thread_done c).

Definition set_last_receive_buffer_read_from (c : mpi_comm) (v : Z) : mpi_comm :=
  mk_mpi_comm (_size c) (_send_window_size c) (_max_sendlength_per_machine c)
    (_offset c) (_offset_by_datatype c) (_sendlength c) (_send_base c)
    (_cur_send_buffer c) (_last_garbage_collect_ms c) v
    (_receive_buffer c) (_num_nodes_flushing_threads_done c)
    (_flushing_thread_done c).

Definition set_receive_buffer (c : mpi_comm) (v : list receive_buffer_type)
    : mpi_comm :=
  mk_mpi_comm (_size c) (_send_window_size c) (_max_sendlength_per_machine c)
    (_offset c) (_offset_by_datatype c) (_sendlength c) (_send_base c)
    (_cur_send_buffer c) (_last_garbage_collect_ms c)
    (_last_receive_buffer_read_from c) v (_num_nodes_flushing_threads_done c)
    (_flushing_thread_done c).

Definition set_num_nodes_flushing_threads_done (c : mpi_comm) (v : Z) : mpi_comm :=
  mk_mpi_comm (_size c) (_send_window_size c) (_max_sendlength_per_machine c)
    (_offset c) (_offset_by_datatype c) (_sendlength c) (_send_base c)
    (_cur_send_buffer c) (_last_garbage_collect_ms c)
    (_last_receive_buffer_read_from c) (_receive_buffer c) v
    (_flushing_thread_done c).

(** [mpi_comm::construct_send_window] when [mmap] succeeds: a fresh
    anonymous mapping, which the system hands out filled with zero
    bytes. *)
Definition construct_send_window (send_window_size : Z) : list byte :=
  repeat Byte.x00 (Z.to_nat send_window_size).

(** The constructor, for a group of [size] peers, when both windows
    can be mapped; both readings of the timer give [now]. The quotient
    by [sizeof(send_type)] times [sizeof(send_type)] and the offsets
    [i * max] stay below the window size, so no [size_t] operation
    wraps here; [_offset_by_datatype] is the [int] array of
    displacements that [actual_flush] hands to [MPI_Alltoallv], so each
    entry is converted to [int]. The thread the constructor launches
    runs [background_flush]; it is no part of this value. *)
Definition construct (size send_window now : Z) : mpi_comm :=
  let max_sendlength_per_machine :=
    (send_window / size) / sizeof_send_type * sizeof_send_type in
  let offset :=
    map (fun i => Z.of_nat i * max_sendlength_per_machine)
        (seq 0 (Z.to_nat size)) in
  {| _size := size;
     _send_window_size := send_window;
     _max_sendlength_per_machine := max_sendlength_per_machine;
     _offset := offset;
     _offset_by_datatype :=
       map (fun o => to_int (o / sizeof_send_type)) offset;
     _sendlength := (repeat 0 (Z.to_nat size), repeat 0 (Z.to_nat size));
     _send_base := (construct_send_window send_window,
                    construct_send_window send_window);
     _cur_send_buffer := 0;
     _last_garbage_collect_ms := (now, now);
     _last_receive_buffer_read_from := 0;
     _receive_buffer := repeat empty_receive_buffer (Z.to_nat size);
     _num_nodes_flushing_threads_done := 0;
     _flushing_thread_done := false |}.

(** ** The send path *)

(** [mpi_comm::actual_send]: the number of caller bytes consumed and the
    communicator afterwards. The group is the one [_cur_send_buffer]
    selects; the reservation is the round of the CAS loop that succeeds
    (or finds nothing to write). *)
Definition actual_send (c : mpi_comm) (targetmachine : Z) (data : nat -> byte)
    (length : Z) : option (Z * mpi_comm) :=
  let paddedlength := get_padded_length length in
  let target_buffer := _cur_send_buffer c in
  let idx := Z.land target_buffer 1 in
  oldsendlength <- at_index (get2 (_sendlength c) idx) targetmachine ;;
  let maxwrite :=
    Z.min (wrap (_max_sendlength_per_machine c - oldsendlength)) paddedlength in
  if maxwrite =? 0 then Some (0, c)
  else
    lengths <- store (get2 (_sendlength c) idx) targetmachine
                     (wrap (oldsendlength + maxwrite)) ;;
    offset <- at_index (_offset c) targetmachine ;;
    base <- memcpy (get2 (_send_base c) idx) (offset + oldsendlength)
                   data maxwrite ;;
    Some (Z.min maxwrite length,
          set_send_base
            (set_sendlength c (set2 (_sendlength c) idx lengths))
            (set2 (_send_base c) idx base)).

(** [mpi_comm::garbage_collect]: unmap the window and map a fresh one. *)
Definition garbage_collect (c : mpi_comm) (idx : Z) : mpi_comm :=
  set_send_base c
    (set2 (_send_base c) idx (construct_send_window (_send_window_size c))).

(** The loop of [reset_send_buffer]: [v[i] = 0] for [i] from [from] on,
    [count] times. *)
Fixpoint zero_lengths (count : nat) (from : Z) (v : list Z) : option (list Z) :=
  match count with
  | O => Some v
  | S count' =>
      v' <- store v from 0 ;;
      zero_lengths count' (from + 1) v'
  end.

(** [mpi_comm::reset_send_buffer], the timer reading [curtime]. *)
Definition reset_send_buffer (c : mpi_comm) (idx : Z) (curtime : Z)
    : option mpi_comm :=
  lengths <- zero_lengths (Z.to_nat (_size c)) 0 (get2 (_sendlength c) idx) ;;
  let c1 := set_sendlength c (set2 (_sendlength c) idx lengths) in
  if 10000 <? wrap (curtime - get2 (_last_garbage_collect_ms c1) idx)
  then
    let c2 := garbage_collect c1 idx in
    Some (set_last_garbage_collect_ms c2
            (set2 (_last_garbage_collect_ms c2) idx curtime))
  else Some c1.

(** ** The flush engine *)

(** What one collective exchange brings in from the rest of the group:
    the byte run received from each source, the timer reading at the
    reset, and how many of the other peers report their flushing thread
    done. *)
Record flush_env : Type := mk_flush_env {
  recv_runs : list (list byte);
  curtime : Z;
  others_done : Z
}.

(** [mpi_comm::locked_read_header_from_buffer] *)
Definition locked_read_header_from_buffer (c : mpi_comm) (idx : Z)
    : option mpi_comm :=
  curbuf <- at_index (_receive_buffer c) idx ;;
  buffers <- store (_receive_buffer c) idx (read_header curbuf) ;;
  Some (set_receive_buffer c buffers).

(** [mpi_comm::insert_receive_buffer] *)
Definition insert_receive_buffer (c : mpi_comm) (idx : Z) (v : list byte)
    (length : Z) : option mpi_comm :=
  curbuf <- at_index (_receive_buffer c) idx ;;
  buffers <- store (_receive_buffer c) idx (insert_bytes curbuf v length) ;;
  Some (set_receive_buffer c buffers).

(** The first loop of [actual_flush]: the element count for each peer,
    stored in an [int], each length checked to be a whole number of
    elements. *)
Fixpoint send_buffer_sizes (count : nat) (i : Z) (lengths : list Z)
    : option (list Z) :=
  match count with
  | O => Some []
  | S count' =>
      len <- at_index lengths i ;;
      _ <- ensure (len mod sizeof_send_type =? 0) ;;
      rest <- send_buffer_sizes count' (i + 1) lengths ;;
      Some (to_int (len / sizeof_send_type) :: rest)
  end.

(** What [MPI_Alltoallv] reads from the window for one peer: [count]
    elements from the displacement of [offset] elements. With a
    negative count the call is erroneous, and a negative displacement
    points in front of the window: no run is taken to be sent then. *)
Definition read_elements (base : list byte) (offset count : Z) : list byte :=
  if (0 <=? offset) && (0 <=? count)
  then firstn (Z.to_nat (count * sizeof_send_type))
         (skipn (Z.to_nat (offset * sizeof_send_type)) base)
  else [].

(** [recv_buffer_sizes] after [MPI_Alltoall]: the [int] count each
    source announces, which is the whole elements of the run it
    sends. *)
Definition recv_buffer_sizes (runs : list (list byte)) : list Z :=
  map (fun run => to_int (Z.of_nat (List.length run) / sizeof_send_type))
      runs.

(** The second loop of [actual_flush]:
    [recv_buffer_offsets[i] = total_receive;
     total_receive += recv_buffer_sizes[i];]
    with [total_receive] a [size_t] and the offsets [int]s. *)
Fixpoint recv_buffer_offsets (total_receive : Z) (sizes : list Z) : list Z :=
  match sizes with
  | [] => []
  | recv_buffer_size :: sizes' =>
      to_int total_receive
      :: recv_buffer_offsets (wrap (total_receive + recv_buffer_size)) sizes'
  end.

(** The block at [receiveptr] after [MPI_Alltoallv]: the announced
    elements of each source, one source after the other. *)
Definition received_block (runs : list (list byte)) : list byte :=
  concat
    (map (fun run =>
            firstn (Z.to_nat (to_int (Z.of_nat (List.length run)
                                      / sizeof_send_type)
                              * sizeof_send_type)) run)
         runs).

(** The last loop of [actual_flush]: for each source that announced at
    least one element, what lies at
    [receiveptr + recv_buffer_offsets[i] * sizeof(send_type)] goes into
    its receive buffer, [recv_buffer_sizes[i] * sizeof(send_type)] bytes
    of it. [layout] pairs the offset and the size of each source from
    [i] on. *)
Fixpoint scatter (c : mpi_comm) (i : Z) (receiveptr : list byte)
    (layout : list (Z * Z)) : option mpi_comm :=
  match layout with
  | [] => Some c
  | (recv_buffer_offset, recv_buffer_size) :: layout' =>
      c' <- (if 0 <? recv_buffer_size
             then
               let recvptr :=
                 skipn (Z.to_nat (wrap (recv_buffer_offset * sizeof_send_type)))
                       receiveptr in
               insert_receive_buffer c i recvptr
                 (wrap (recv_buffer_size * sizeof_send_type))
             else Some c) ;;
      scatter c' (i + 1) receiveptr layout'
  end.

(** [mpi_comm::actual_flush]: the byte run sent to each peer and the
    communicator afterwards. *)
Definition actual_flush (c : mpi_comm) (idx : Z) (env : flush_env)
    : option (list (list byte) * mpi_comm) :=
  sizes <- send_buffer_sizes (Z.to_nat (_size c)) 0 (get2 (_sendlength c) idx) ;;
  let sent :=
    map (fun '(offset, count) =>
           read_elements (get2 (_send_base c) idx) offset count)
        (combine (_offset_by_datatype c) sizes) in
  let runs := firstn (Z.to_nat (_size c)) (recv_runs env) in
  let recv_sizes := recv_buffer_sizes runs in
  let recv_offsets := recv_buffer_offsets 0 recv_sizes in
  c1 <- scatter c 0 (received_block runs) (combine recv_offsets recv_sizes) ;;
  c2 <- reset_send_buffer c1 idx (curtime env) ;;
  Some (sent, c2).

(** [mpi_comm::swap_buffers]: the group that was current, and the
    communicator with the selector advanced. *)
Definition swap_buffers (c : mpi_comm) : Z * mpi_comm :=
  (Z.land (_cur_send_buffer c) 1,
   set_cur_send_buffer c (wrap (_cur_send_buffer c + 1))).

(** [mpi_comm::background_flush_inner_op], which is also [flush]: the
    runs sent, if an exchange took place, and the communicator. *)
Definition flush (c : mpi_comm) (env : flush_env)
    : option (option (list (list byte)) * mpi_comm) :=
  if _num_nodes_flushing_threads_done c <? _size c
  then
    let (idx, c1) := swap_buffers c in
    '(sent, c2) <- actual_flush c1 idx env ;;
    let send := if _flushing_thread_done c2 then 1 else 0 in
    Some (Some sent,
          set_num_nodes_flushing_threads_done c2 (send + others_done env))
  else Some (None, c).

(** ** A peer and the rest of the group *)

(** A peer in its group: the communicator, how many collective exchanges
    it has taken part in, and what it has handed to the transport, one
    entry per exchange (the run for each target), oldest first. *)
Record peer : Type := mk_peer {
  comm : mpi_comm;
  exchanges : nat;
  wire : list (list (list byte))
}.

Definition set_comm (p : peer) (c : mpi_comm) : peer :=
  mk_peer c (exchanges p) (wire p).

(** [flush()] by a peer whose [k]-th exchange brings in [group k]. *)
Definition peer_flush (group : nat -> flush_env) (p : peer) : option peer :=
  '(sent, c) <- flush (comm p) (group (exchanges p)) ;;
  match sent with
  | Some runs => Some (mk_peer c (S (exchanges p)) (wire p ++ [runs]))
  | None => Some (set_comm p c)
  end.

(** Either loop of [mpi_comm::send]:
    [while (n > 0) { sent = actual_send(target, ptr, n); ptr += sent;
                     n -= sent; if (n > 0) flush(); }] *)
Fixpoint send_loop (group : nat -> flush_env) (fuel : nat) (p : peer)
    (targetmachine : Z) (ptr : nat -> byte) (n : Z) : outcome peer :=
  if 0 <? n then
    match fuel with
    | O => Spins
    | S fuel' =>
        and_then (lift (actual_send (comm p) targetmachine ptr n))
          (fun '(sent, c) =>
             let ptr' := advance ptr sent in
             let n' := wrap (n - sent) in
             and_then
               (if 0 <? n' then lift (peer_flush group (set_comm p c))
                else Returns (set_comm p c))
               (fun p' => send_loop group fuel' p' targetmachine ptr' n'))
    end
  else Returns p.

(** [mpi_comm::send] *)
Definition send (group : nat -> flush_env) (fuel : nat) (p : peer)
    (targetmachine : Z) (data : nat -> byte) (length : Z) : outcome peer :=
  and_then
    (lift (ensure ((0 <=? targetmachine) && (targetmachine <? _size (comm p)))))
    (fun _ =>
  and_then (lift (ensure (0 <? length))) (fun _ =>
  let hdr := header_bytes length in
  let headerlength := sizeof_comm_header in
  let headerptr := pointer_to hdr in
  and_then (send_loop group fuel p targetmachine headerptr headerlength)
    (fun p1 => send_loop group fuel p1 targetmachine data length))).

(** A sequence of [send] calls to one target. *)
Fixpoint send_all (group : nat -> flush_env) (fuel : nat) (p : peer)
    (targetmachine : Z) (messages : list ((nat -> byte) * Z)) : outcome peer :=
  match messages with
  | [] => Returns p
  | (data, length) :: rest =>
      and_then (send group fuel p targetmachine data length)
        (fun p' => send_all group fuel p' targetmachine rest)
  end.

(** ** The receive path *)

(** [mpi_comm::receive(int sourcemachine, size_t* length)] *)
Definition receive (c : mpi_comm) (sourcemachine : Z)
    : option (option (list byte * Z) * mpi_comm) :=
  curbuf <- at_index (_receive_buffer c) sourcemachine ;;
  match take_message curbuf with
  | (None, _) => Some (None, c)
  | (Some message, curbuf') =>
      buffers <- store (_receive_buffer c) sourcemachine curbuf' ;;
      Some (Some message, set_receive_buffer c buffers)
  end.

(** The loop of [mpi_comm::receive(int* sourcemachine, size_t* length)],
    with [count] rounds to go from round [j]: the block, its source and
    its length, or [None] for [NULL]. *)
Fixpoint receive_sweep (count : nat) (j i : Z) (c : mpi_comm)
    : option (option (list byte * Z * Z) * mpi_comm) :=
  match count with
  | O => Some (None, c)
  | S count' =>
      let source := wrap (j + i) mod _size c in
      '(ret, c') <- receive c source ;;
      match ret with
      | Some (block, length) =>
          Some (Some (block, source, length),
                set_last_receive_buffer_read_from c' j)
      | None => receive_sweep count' (j + 1) i c'
      end
  end.

(** [mpi_comm::receive(int* sourcemachine, size_t* length)] *)
Definition receive_any (c : mpi_comm)
    : option (option (list byte * Z * Z) * mpi_comm) :=
  let i := wrap (_last_receive_buffer_read_from c + 1) in
  receive_sweep (Z.to_nat (_size c)) 0 i c.

(** Polling one source until [receive] returns [NULL]: the messages in
    the order they came out. *)
Fixpoint drain_loop (fuel : nat) (c : mpi_comm) (sourcemachine : Z)
    : outcome (list (list byte * Z) * mpi_comm) :=
  match fuel with
  | O => Spins
  | S fuel' =>
      and_then (lift (receive c sourcemachine))
        (fun '(ret, c') =>
           match ret with
           | None => Returns ([], c')
           | Some message =>
               and_then (drain_loop fuel' c' sourcemachine)
                 (fun '(messages, c'') => Returns (message :: messages, c''))
           end)
  end.

(** Handing the runs of successive exchanges to the receiver, as the
    last loop of [actual_flush] does for the source [idx]: each run is
    what lies at [recvptr], and its whole elements are what the source
    announced. *)
Fixpoint deliver (c : mpi_comm) (idx : Z) (runs : list (list byte))
    : option mpi_comm :=
  match runs with
  | [] => Some c
  | run :: runs' =>
      let recv_buffer_size := Z.of_nat (List.length run) / sizeof_send_type in
      c' <- (if 0 <? recv_buffer_size
             then insert_receive_buffer c idx run
                    (recv_buffer_size * sizeof_send_type)
             else Some c) ;;
      deliver c' idx runs'
  end.

(** ** Barrier flush, background flusher, shutdown *)





(** ** A receiver between exchanges *)

(** What happens to one source at the receiver: a run arrives with an
    exchange, or the application polls the source. *)
Inductive receiver_op : Type :=
| Arrive (run : list byte)
| Poll.

(** The runs arriving, in order. *)
Fixpoint arrivals (ops : list receiver_op) : list (list byte) :=
  match ops with
  | [] => []
  | Arrive run :: ops' => run :: arrivals ops'
  | Poll :: ops' => arrivals ops'
  end.

(** Runs the operations on the source [idx]: arrivals as the last loop
    of [actual_flush] handles them, polls by
    [receive(int, size_t* )]. The messages polled, in order, and the
    communicator afterwards. *)
Fixpoint run_receiver (ops : list receiver_op) (c : mpi_comm) (idx : Z)
    : option (list (list byte * Z) * mpi_comm) :=
  match ops with
  | [] => Some ([], c)
  | Arrive run :: ops' =>
      let recv_buffer_size := Z.of_nat (List.length run) / sizeof_send_type in
      c' <- (if 0 <? recv_buffer_size
             then insert_receive_buffer c idx run
                    (recv_buffer_size * sizeof_send_type)
             else Some c) ;;
      run_receiver ops' c' idx
  | Poll :: ops' =>
      '(ret, c') <- receive c idx ;;
      '(messages, c'') <- run_receiver ops' c' idx ;;
      Some (match ret with
            | Some message => message :: messages
            | None => messages
            end, c'')
  end.

(** ** Sends to several targets *)

(** A sequence of [send] calls by one thread, each to its own target. *)
Fixpoint send_each (group : nat -> flush_env) (fuel : nat) (p : peer)
    (messages : list (Z * ((nat -> byte) * Z))) : outcome peer :=
  match messages with
  | [] => Returns p
  | (targetmachine, (data, length)) :: rest =>
      and_then (send group fuel p targetmachine data length)
        (fun p' => send_each group fuel p' rest)
  end.

(** ** A sender beside the flushing thread *)




(** * Specification vocabulary *)

(** [ceil(len / E) * E] over the integers, for [E = 8]. *)
Definition round_up (len : Z) : Z :=
  (len + (sizeof_send_type - 1)) / sizeof_send_type * sizeof_send_type.

(** [buflen] is the byte length of the queue. *)
Definition buffer_ok (curbuf : receive_buffer_type) : Prop :=
  buflen curbuf = Z.of_nat (length (buffer curbuf))
  /\ is_size_t (buflen curbuf)
  /\ is_size_t (next_message_length curbuf)
  /\ is_size_t (padded_next_message_length curbuf).

(** The operations on one receive buffer. *)
Inductive buffer_op : Type :=
| Insert (v : list byte)
| ReadHeader
| Receive.

Definition apply_buffer_op (curbuf : receive_buffer_type) (op : buffer_op)
    : receive_buffer_type :=
  match op with
  | Insert v => insert_bytes curbuf v (Z.of_nat (length v))
  | ReadHeader => read_header curbuf
  | Receive => snd (take_message curbuf)
  end.

Definition run_buffer_ops (ops : list buffer_op) (curbuf : receive_buffer_type)
    : receive_buffer_type :=
  fold_left apply_buffer_op ops curbuf.

(** All bytes a sequence of operations inserts, in order. *)
Fixpoint inserted (ops : list buffer_op) : list byte :=
  match ops with
  | [] => []
  | Insert v :: ops' => v ++ inserted ops'
  | _ :: ops' => inserted ops'
  end.

(** The framing state of a buffer that was fed the bytes [stream]: the
    queue is what is left of the stream after the [k] bytes consumed so
    far, the padded length is the padding of the pending length, and a
    pending length was read from the eight bytes just before the front
    of the queue. *)
Definition framing (stream : list byte) (curbuf : receive_buffer_type) : Prop :=
  exists k : nat,
    (k <= length stream)%nat
    /\ buffer curbuf = skipn k stream
    /\ buflen curbuf = wrap (Z.of_nat (length stream) - Z.of_nat k)
    /\ padded_next_message_length curbuf =
         get_padded_length (next_message_length curbuf)
    /\ is_size_t (next_message_length curbuf)
    /\ (next_message_length curbuf <> 0 ->
          (8 <= k)%nat
          /\ next_message_length curbuf =
               header_length (firstn 8 (skipn (k - 8) stream))).

(** The group that [_cur_send_buffer] selects. *)
Definition current_group (c : mpi_comm) : Z := Z.land (_cur_send_buffer c) 1.

(** The shape the constructor gives a communicator, which no operation
    changes: the capacity and offsets derived from the window size, the
    sizes of the vectors and of the two windows. *)
Record comm_ok (c : mpi_comm) : Prop := mk_comm_ok {
  ok_size : 0 < _size c;
  ok_window : is_size_t (_send_window_size c);
  ok_capacity :
    _max_sendlength_per_machine c =
      _send_window_size c / _size c / sizeof_send_type * sizeof_send_type;
  ok_offset :
    _offset c =
      map (fun i => Z.of_nat i * _max_sendlength_per_machine c)
          (seq 0 (Z.to_nat (_size c)));
  ok_offset_by_datatype :
    _offset_by_datatype c =
      map (fun o => to_int (o / sizeof_send_type)) (_offset c);
  ok_sendlength :
    forall g, length (get2 (_sendlength c) g) = Z.to_nat (_size c);
  ok_send_base :
    forall g, length (get2 (_send_base c) g) = Z.to_nat (_send_window_size c);
  ok_receive_buffer : length (_receive_buffer c) = Z.to_nat (_size c);
  ok_cur_send_buffer : is_size_t (_cur_send_buffer c)
}.

(** Invariant I1 on one counter. *)
Definition length_ok (capacity len : Z) : Prop :=
  0 <= len <= capacity /\ len mod sizeof_send_type = 0.

(** Invariant I1: every counter of both groups. *)
Definition lengths_ok (c : mpi_comm) : Prop :=
  forall g, Forall (length_ok (_max_sendlength_per_machine c))
                   (get2 (_sendlength c) g).

(** The operations that touch the send-length counters: a stage into
    the current group, a reset of either group, and the swap that makes
    the other group current. *)
Inductive send_op : Type :=
| Stage (targetmachine : Z) (data : nat -> byte) (length : Z)
| Reset (idx : Z) (curtime : Z)
| Swap.

Definition apply_send_op (c : mpi_comm) (op : send_op) : option mpi_comm :=
  match op with
  | Stage targetmachine data length =>
      '(_, c') <- actual_send c targetmachine data length ;;
      Some c'
  | Reset idx curtime =>
      _ <- ensure ((idx =? 0) || (idx =? 1)) ;;
      reset_send_buffer c idx curtime
  | Swap => Some (snd (swap_buffers c))
  end.

(** An operation the code accepts in a group of [size] peers: the
    target of a stage is a peer, the group of a reset is 0 or 1. *)
Definition send_op_ok (size : Z) (op : send_op) : Prop :=
  match op with
  | Stage targetmachine _ _ => 0 <= targetmachine < size
  | Reset idx _ => idx = 0 \/ idx = 1
  | Swap => True
  end.

Fixpoint run_send_ops (ops : list send_op) (c : mpi_comm) : option mpi_comm :=
  match ops with
  | [] => Some c
  | op :: ops' =>
      c' <- apply_send_op c op ;;
      run_send_ops ops' c'
  end.

(** ** The byte stream from a sender to one target *)

(** The group that is not current. *)
Definition idle_group (c : mpi_comm) : Z := 1 - current_group c.

(** The counter of the target's slot in the current group. *)
Definition slot_length (c : mpi_comm) (target : Z) : Z :=
  nth (Z.to_nat target) (get2 (_sendlength c) (current_group c)) 0.

(** The bytes staged for the target and not yet handed to the
    transport. *)
Definition staged (c : mpi_comm) (target : Z) : list byte :=
  firstn (Z.to_nat (slot_length c target))
    (skipn (Z.to_nat (target * _max_sendlength_per_machine c))
           (get2 (_send_base c) (current_group c))).

(** The run each exchange carried to the target, oldest first. *)
Definition runs_to (p : peer) (target : Z) : list (list byte) :=
  map (fun runs => nth (Z.to_nat target) runs []) (wire p).

(** Everything sent to the target so far, staged or on the wire. *)
Definition stream (p : peer) (target : Z) : list byte :=
  concat (runs_to p target) ++ staged (comm p) target.

(** A communicator of [size] peers with window size [W] between two
    operations of a single sending thread: the shape and invariant I1
    hold, the idle group is empty, and the flushing threads of the
    group have not all finished. *)
Record sending_ok (size W : Z) (c : mpi_comm) : Prop := mk_sending_ok {
  so_comm : comm_ok c;
  so_size : _size c = size;
  so_window : _send_window_size c = W;
  so_lengths : lengths_ok c;
  so_idle : Forall (fun len => len = 0) (get2 (_sendlength c) (idle_group c));
  so_running : _num_nodes_flushing_threads_done c < size;
  so_flag : _flushing_thread_done c = false
}.

(** Every run carried to the target is a whole number of elements,
    fewer than [2^31] of them: a count that an [int] holds. *)
Definition runs_whole (p : peer) (target : Z) : Prop :=
  Forall (fun run => Z.of_nat (length run) mod sizeof_send_type = 0
                     /\ Z.of_nat (length run) / sizeof_send_type < 2 ^ 31)
         (runs_to p target).

(** Of the other [size - 1] peers, between none and all report done. *)
Definition group_ok (group : nat -> flush_env) (size : Z) : Prop :=
  forall k, 0 <= others_done (group k) < size.

(** The frame of a message: header, payload, padding. The padding is
    whatever follows the payload at [data]. *)
Definition frame (message : (nat -> byte) * Z) : list byte :=
  let (data, length) := message in
  header_bytes length ++ map data (seq 0 (Z.to_nat (round_up length))).

(** What the receiver hands out for a message: the padded block and the
    unpadded length. *)
Definition delivery (message : (nat -> byte) * Z) : list byte * Z :=
  let (data, length) := message in
  (map data (seq 0 (Z.to_nat (round_up length))), length).

(** The payload of a message, and of a block handed out with its
    length. *)
Definition payload (message : (nat -> byte) * Z) : list byte * Z :=
  let (data, length) := message in
  (map data (seq 0 (Z.to_nat length)), length).

Definition unpadded (received : list byte * Z) : list byte * Z :=
  let (block, length) := received in
  (firstn (Z.to_nat length) block, length).

(** A group in which nothing arrives and no other peer is done. *)
Definition quiet_group : nat -> flush_env :=
  fun _ => {| recv_runs := []; curtime := 0; others_done := 0 |}.

(** A peer right after construction. *)
Definition fresh_peer (size send_window now : Z) : peer :=
  {| comm := construct size send_window now; exchanges := 0; wire := [] |}.

(** What [deliver] does to the buffer of the source. *)
Fixpoint feed (curbuf : receive_buffer_type) (runs : list (list byte))
    : receive_buffer_type :=
  match runs with
  | [] => curbuf
  | run :: runs' =>
      let recv_buffer_size := Z.of_nat (length run) / sizeof_send_type in
      feed (if 0 <? recv_buffer_size
            then insert_bytes curbuf run (recv_buffer_size * sizeof_send_type)
            else curbuf)
           runs'
  end.

(** A buffer whose pending message has length [len], with [rest] in
    the queue behind the consumed header. *)
Definition loaded (len : Z) (rest : list byte) : receive_buffer_type :=
  {| buflen := Z.of_nat (length rest);
     buffer := rest;
     next_message_length := len;
     padded_next_message_length := round_up len |}.

(** What a stage grants when the slot counter reads [old]. *)
Definition grant_of (c : mpi_comm) (old length : Z) : Z :=
  Z.min (_max_sendlength_per_machine c - old) (get_padded_length length).

(** The communicator after [grant] bytes at [data] were staged for
    [target] behind the [old] bytes already in its slot. *)
Definition staged_into (c : mpi_comm) (target : Z) (data : nat -> byte)
    (old grant : Z) : mpi_comm :=
  let idx := current_group c in
  let offset := target * _max_sendlength_per_machine c in
  set_send_base
    (set_sendlength c
       (set2 (_sendlength c) idx
          (set_nth (Z.to_nat target) (get2 (_sendlength c) idx)
             (old + grant))))
    (set2 (_send_base c) idx
       (firstn (Z.to_nat (offset + old)) (get2 (_send_base c) idx)
        ++ map data (seq 0 (Z.to_nat grant))
        ++ skipn (Z.to_nat (offset + old + grant))
                 (get2 (_send_base c) idx))).

(** ** Vocabulary for the further properties *)

(** [sending_ok] without the conditions on the flushing threads: what
    an exchange needs and keeps, also after the group has shut down. *)
Record staging_ok (size W : Z) (c : mpi_comm) : Prop := mk_staging_ok {
  sg_comm : comm_ok c;
  sg_size : _size c = size;
  sg_window : _send_window_size c = W;
  sg_lengths : lengths_ok c;
  sg_idle : Forall (fun len => len = 0) (get2 (_sendlength c) (idle_group c))
}.

(** The state of a receive buffer that holds the bytes [arrived] of a
    stream of frames, none of them handed out yet: fewer than eight
    bytes wait for the rest of their header; otherwise the header is
    consumed and its length is pending. *)
Definition view (arrived : list byte) : receive_buffer_type :=
  if Z.of_nat (length arrived) <? sizeof_comm_header
  then {| buflen := Z.of_nat (length arrived);
          buffer := arrived;
          next_message_length := 0;
          padded_next_message_length := 0 |}
  else {| buflen := Z.of_nat (length arrived) - sizeof_comm_header;
          buffer := skipn 8 arrived;
          next_message_length := header_length (firstn 8 arrived);
          padded_next_message_length :=
            get_padded_length (header_length (firstn 8 arrived)) |}.

(** The source the any-source [receive] probes in round [j] when the
    cursor reads [last]. *)
Definition probed (c : mpi_comm) (j : Z) : Z :=
  wrap (j + wrap (_last_receive_buffer_read_from c + 1)) mod _size c.

(** Of a sequence of addressed messages, those for the target [u], in
    order. *)
Definition messages_to (u : Z) (messages : list (Z * ((nat -> byte) * Z)))
    : list ((nat -> byte) * Z) :=
  map snd (filter (fun m => fst m =? u) messages).

(** * Proofs *)

(** Reduces the projections of a receive buffer written out as a record. *)
Ltac fields :=
  cbn [buflen buffer next_message_length padded_next_message_length] in *.

(** ** Padding *)

Lemma wrap_small (z : Z) : is_size_t z -> wrap z = z.
Proof. unfold is_size_t, wrap. intros H. now apply Z.mod_small. Qed.

Lemma wrap_range (z : Z) : is_size_t (wrap z).
Proof.
  unfold is_size_t, wrap, size_t_modulus. apply Z.mod_pos_bound. lia.
Qed.

Lemma wrap_le (z : Z) : 0 <= z -> wrap z <= z.
Proof.
  unfold wrap, size_t_modulus. intros H. apply Z.mod_le; lia.
Qed.

Lemma wrap_mod8 (z : Z) : wrap z mod 8 = z mod 8.
Proof.
  unfold wrap, size_t_modulus.
  replace (2 ^ 64) with (8 * 2 ^ 61) by reflexivity.
  rewrite Z.rem_mul_r by lia.
  rewrite (Z.mul_comm 8), Z.mod_add by lia.
  apply Z.mod_mod; lia.
Qed.

Lemma wrap_add_l (a b : Z) : wrap (wrap a + b) = wrap (a + b).
Proof. unfold wrap. apply Z.add_mod_idemp_l. unfold size_t_modulus. lia. Qed.

Lemma wrap_sub_l (a b : Z) : wrap (wrap a - b) = wrap (a - b).
Proof. unfold wrap. apply Zminus_mod_idemp_l. Qed.

Lemma to_int_small (z : Z) : - 2 ^ 31 <= z < 2 ^ 31 -> to_int z = z.
Proof. intros H. unfold to_int. rewrite Z.mod_small; lia. Qed.

Lemma to_int_range (z : Z) : - 2 ^ 31 <= to_int z < 2 ^ 31.
Proof.
  unfold to_int. pose proof (Z.mod_pos_bound (z + 2 ^ 31) (2 ^ 32)). lia.
Qed.

Lemma round_up_spec (len : Z) :
  round_up len mod 8 = 0 /\ len <= round_up len < len + 8.
Proof.
  unfold round_up, sizeof_send_type. split.
  - apply Z.mod_mul. lia.
  - pose proof (Z.div_mod (len + (8 - 1)) 8 ltac:(lia)) as E.
    pose proof (Z.mod_pos_bound (len + (8 - 1)) 8 ltac:(lia)). lia.
Qed.

Lemma padded_unwrapped (len : Z) :
  (len / 8 + (if 0 <? len mod 8 then 1 else 0)) * 8 = round_up len.
Proof.
  unfold round_up, sizeof_send_type.
  pose proof (Z.div_mod len 8 ltac:(lia)) as E.
  pose proof (Z.mod_pos_bound len 8 ltac:(lia)) as B.
  destruct (0 <? len mod 8) eqn:T.
  - apply Z.ltb_lt in T.
    replace (len + (8 - 1)) with ((len mod 8 - 1) + (len / 8 + 1) * 8) by lia.
    rewrite Z.div_add by lia.
    rewrite (Z.div_small (len mod 8 - 1)) by lia. lia.
  - apply Z.ltb_ge in T.
    replace (len + (8 - 1)) with (7 + (len / 8) * 8) by lia.
    rewrite Z.div_add by lia. rewrite (Z.div_small 7) by lia. lia.
Qed.

Lemma get_padded_length_wrap (len : Z) :
  get_padded_length len = wrap (round_up len).
Proof.
  unfold get_padded_length, sizeof_send_type. now rewrite padded_unwrapped.
Qed.

Lemma get_padded_length_exact (len : Z) :
  0 <= len <= size_t_modulus - 8 -> get_padded_length len = round_up len.
Proof.
  intros H. rewrite get_padded_length_wrap. apply wrap_small.
  pose proof (round_up_spec len) as [D B].
  unfold is_size_t. split; [lia|].
  assert (round_up len <= size_t_modulus - 8); [|lia].
  unfold size_t_modulus in *.
  assert ((2 ^ 64 - 8) mod 8 = 0) by reflexivity.
  assert (round_up len < 2 ^ 64 - 8 + 8) by lia.
  pose proof (Z.div_mod (round_up len) 8 ltac:(lia)).
  pose proof (Z.div_mod (2 ^ 64 - 8) 8 ltac:(lia)).
  lia.
Qed.

Lemma get_padded_length_mod8 (len : Z) : get_padded_length len mod 8 = 0.
Proof.
  rewrite get_padded_length_wrap, wrap_mod8. apply round_up_spec.
Qed.

Lemma get_padded_length_range (len : Z) : is_size_t (get_padded_length len).
Proof. rewrite get_padded_length_wrap. apply wrap_range. Qed.

Lemma get_padded_length_overflow (len : Z) :
  size_t_modulus - 8 < len < size_t_modulus -> get_padded_length len = 0.
Proof.
  intros H. rewrite get_padded_length_wrap.
  pose proof (round_up_spec len) as [D B].
  assert (round_up len = size_t_modulus) as ->.
  { unfold size_t_modulus in *.
    pose proof (Z.div_mod (round_up len) 8 ltac:(lia)).
    assert (2 ^ 64 = 8 * 2 ^ 61) by reflexivity. lia. }
  reflexivity.
Qed.

(** C9, as the code has it: on lengths up to [2^64 - 8]
    [get_padded_length] is the least multiple of 8 that is at least the
    length (divisible by 8, between [L] and [L + 7], zero exactly for
    [L = 0]); on the seven larger [size_t] values the product wraps and
    the result is 0. *)
Theorem get_padded_length_least_multiple (L : Z) :
  is_size_t L ->
  (L <= size_t_modulus - 8 ->
     get_padded_length L mod 8 = 0
     /\ L <= get_padded_length L < L + 8
     /\ (get_padded_length L = 0 <-> L = 0)
     /\ (forall m, m mod 8 = 0 -> L <= m -> get_padded_length L <= m))
  /\ (size_t_modulus - 8 < L -> get_padded_length L = 0).
Proof.
  intros [L0 L1]. split.
  - intros Hb. rewrite get_padded_length_exact by lia.
    pose proof (round_up_spec L) as [D B].
    split; [exact D|]. split; [exact B|]. split; [split|].
    + intros Z0. lia.
    + intros ->. reflexivity.
    + intros m Hm Hle.
      pose proof (Z.div_mod m 8 ltac:(lia)).
      pose proof (Z.div_mod (round_up L) 8 ltac:(lia)). lia.
  - intros Hb. apply get_padded_length_overflow. lia.
Qed.

Lemma get_padded_length_least_multiple_witness :
  get_padded_length 13 mod 8 = 0
  /\ 13 <= get_padded_length 13 < 13 + 8
  /\ (get_padded_length 13 = 0 <-> 13 = 0)
  /\ (forall m, m mod 8 = 0 -> 13 <= m -> get_padded_length 13 <= m).
Proof.
  apply (get_padded_length_least_multiple 13).
  - unfold is_size_t, size_t_modulus. lia.
  - unfold size_t_modulus. lia.
Defined.

(** C9 as stated fails at the top of [size_t]: the padded length of
    [2^64 - 1] is 0, which is below the length and is zero for a
    non-zero length. *)
Lemma get_padded_length_wraps_to_zero :
  get_padded_length (2 ^ 64 - 1) = 0
  /\ ~ (2 ^ 64 - 1 <= get_padded_length (2 ^ 64 - 1) < 2 ^ 64 - 1 + 8)
  /\ ~ (get_padded_length (2 ^ 64 - 1) = 0 <-> 2 ^ 64 - 1 = 0).
Proof.
  assert (E : get_padded_length (2 ^ 64 - 1) = 0) by reflexivity.
  rewrite E. repeat split.
  - intros [H _]. revert H. apply Z.lt_nge. reflexivity.
  - intros [H _]. specialize (H eq_refl). discriminate H.
Qed.

(** * Vectors *)

Lemma set_nth_length {A : Type} (n : nat) (v : list A) (a : A) :
  length (set_nth n v a) = length v.
Proof.
  revert n. induction v as [|x t IH]; intros [|n]; simpl; auto.
Qed.

Lemma nth_error_set_nth_same {A : Type} (n : nat) (v : list A) (a : A) :
  (n < length v)%nat -> nth_error (set_nth n v a) n = Some a.
Proof.
  revert n. induction v as [|x t IH]; intros [|n] H; simpl in *;
    try lia; auto. apply IH. lia.
Qed.

Lemma nth_error_set_nth_other {A : Type} (n m : nat) (v : list A) (a : A) :
  n <> m -> nth_error (set_nth n v a) m = nth_error v m.
Proof.
  revert n m. induction v as [|x t IH]; intros [|n] [|m] H; simpl;
    try congruence; auto.
Qed.

Lemma set_nth_same {A : Type} (n : nat) (v : list A) (a : A) :
  nth_error v n = Some a -> set_nth n v a = v.
Proof.
  revert n. induction v as [|x t IH]; intros [|n] H; simpl in *;
    try congruence. f_equal. auto.
Qed.

Lemma set_nth_twice {A : Type} (n : nat) (v : list A) (a b : A) :
  set_nth n (set_nth n v a) b = set_nth n v b.
Proof.
  revert n. induction v as [|x t IH]; intros [|n]; simpl; auto.
  f_equal. auto.
Qed.

Lemma Forall_set_nth {A : Type} (P : A -> Prop) (n : nat) (v : list A) (a : A) :
  Forall P v -> P a -> Forall P (set_nth n v a).
Proof.
  intros Hv Ha. revert n.
  induction Hv as [|x t Hx Ht IH]; intros [|n]; simpl; auto.
Qed.

Lemma at_index_range {A : Type} (v : list A) (i : Z) (a : A) :
  at_index v i = Some a -> 0 <= i < Z.of_nat (length v).
Proof.
  unfold at_index. destruct (i <? 0) eqn:E; [discriminate|].
  apply Z.ltb_ge in E. intros H.
  assert (nth_error v (Z.to_nat i) <> None) as N by congruence.
  apply nth_error_Some in N. lia.
Qed.

Lemma at_index_some {A : Type} (v : list A) (i : Z) :
  0 <= i < Z.of_nat (length v) -> exists a, at_index v i = Some a.
Proof.
  intros H. unfold at_index.
  destruct (i <? 0) eqn:E; [apply Z.ltb_lt in E; lia|].
  destruct (nth_error v (Z.to_nat i)) eqn:N; [eauto|].
  apply nth_error_None in N. lia.
Qed.

Lemma at_index_In {A : Type} (v : list A) (i : Z) (a : A) :
  at_index v i = Some a -> In a v.
Proof.
  unfold at_index. destruct (i <? 0); [discriminate|]. apply nth_error_In.
Qed.

Lemma store_some {A : Type} (v : list A) (i : Z) (a : A) :
  0 <= i < Z.of_nat (length v) ->
  store v i a = Some (set_nth (Z.to_nat i) v a).
Proof.
  intros H. unfold store.
  destruct (0 <=? i) eqn:E1; [|apply Z.leb_gt in E1; lia].
  destruct (i <? Z.of_nat (length v)) eqn:E2; [|apply Z.ltb_ge in E2; lia].
  reflexivity.
Qed.

Lemma store_inv {A : Type} (v v' : list A) (i : Z) (a : A) :
  store v i a = Some v' ->
  0 <= i < Z.of_nat (length v) /\ v' = set_nth (Z.to_nat i) v a.
Proof.
  unfold store.
  destruct (0 <=? i) eqn:E1; [|discriminate].
  destruct (i <? Z.of_nat (length v)) eqn:E2; [|discriminate].
  apply Z.leb_le in E1. apply Z.ltb_lt in E2.
  simpl. intros [= <-]. auto.
Qed.

Lemma at_index_set_nth_same {A : Type} (v : list A) (i : Z) (a : A) :
  0 <= i < Z.of_nat (length v) ->
  at_index (set_nth (Z.to_nat i) v a) i = Some a.
Proof.
  intros H. unfold at_index.
  destruct (i <? 0) eqn:E; [apply Z.ltb_lt in E; lia|].
  apply nth_error_set_nth_same. lia.
Qed.

Lemma at_index_set_nth_other {A : Type} (v : list A) (i j : Z) (a : A) :
  0 <= i -> i <> j ->
  at_index (set_nth (Z.to_nat i) v a) j = at_index v j.
Proof.
  intros Hi H. unfold at_index.
  destruct (j <? 0) eqn:E; [reflexivity|]. apply Z.ltb_ge in E.
  apply nth_error_set_nth_other. lia.
Qed.

Lemma at_index_nth {A : Type} (v : list A) (i : Z) (a d : A) :
  at_index v i = Some a -> nth (Z.to_nat i) v d = a.
Proof.
  unfold at_index. destruct (i <? 0); [discriminate|].
  intros H. now apply nth_error_nth.
Qed.

(** * Receive buffers *)

Lemma take_message_none (curbuf : receive_buffer_type) :
  padded_next_message_length curbuf = 0
  \/ buflen curbuf < padded_next_message_length curbuf ->
  take_message curbuf = (None, curbuf).
Proof.
  intros H. unfold take_message.
  destruct (padded_next_message_length curbuf =? 0) eqn:E1; [reflexivity|].
  destruct (buflen curbuf <? padded_next_message_length curbuf) eqn:E2;
    [reflexivity|].
  apply Z.eqb_neq in E1. apply Z.ltb_ge in E2. lia.
Qed.

Lemma take_message_some (curbuf : receive_buffer_type) :
  0 < padded_next_message_length curbuf <= buflen curbuf ->
  take_message curbuf =
    (Some (firstn (Z.to_nat (padded_next_message_length curbuf)) (buffer curbuf),
           next_message_length curbuf),
     read_header
       {| buflen := wrap (buflen curbuf - padded_next_message_length curbuf);
          buffer := skipn (Z.to_nat (padded_next_message_length curbuf))
                          (buffer curbuf);
          next_message_length := 0;
          padded_next_message_length := 0 |}).
Proof.
  intros [H1 H2]. unfold take_message, sgetn.
  destruct (padded_next_message_length curbuf =? 0) eqn:E1;
    [apply Z.eqb_eq in E1; lia|].
  destruct (buflen curbuf <? padded_next_message_length curbuf) eqn:E2;
    [apply Z.ltb_lt in E2; lia|].
  destruct (0 <? padded_next_message_length curbuf) eqn:E3;
    [|apply Z.ltb_ge in E3; lia].
  destruct (padded_next_message_length curbuf <=? buflen curbuf) eqn:E4;
    [|apply Z.leb_gt in E4; lia].
  reflexivity.
Qed.

Lemma read_header_fires (curbuf : receive_buffer_type) :
  next_message_length curbuf = 0 -> 8 <= buflen curbuf ->
  read_header curbuf =
    {| buflen := wrap (buflen curbuf - 8);
       buffer := skipn 8 (buffer curbuf);
       next_message_length := header_length (firstn 8 (buffer curbuf));
       padded_next_message_length :=
         get_padded_length (header_length (firstn 8 (buffer curbuf))) |}.
Proof.
  intros H1 H2. unfold read_header, sizeof_comm_header, sgetn.
  rewrite H1. simpl (0 =? 0).
  destruct (8 <=? buflen curbuf) eqn:E; [|apply Z.leb_gt in E; lia].
  reflexivity.
Qed.

Lemma read_header_idle (curbuf : receive_buffer_type) :
  next_message_length curbuf <> 0 \/ buflen curbuf < 8 ->
  read_header curbuf = curbuf.
Proof.
  intros H. unfold read_header, sizeof_comm_header.
  destruct (next_message_length curbuf =? 0) eqn:E1; [|reflexivity].
  destruct (8 <=? buflen curbuf) eqn:E2; [|reflexivity].
  apply Z.eqb_eq in E1. apply Z.leb_le in E2. lia.
Qed.

Lemma receive_none (c : mpi_comm) (source : Z) (curbuf : receive_buffer_type) :
  at_index (_receive_buffer c) source = Some curbuf ->
  padded_next_message_length curbuf = 0
  \/ buflen curbuf < padded_next_message_length curbuf ->
  receive c source = Some (None, c).
Proof.
  intros Hc H. unfold receive. rewrite Hc. simpl.
  now rewrite take_message_none.
Qed.

Lemma receive_some (c : mpi_comm) (source : Z) (curbuf : receive_buffer_type) :
  at_index (_receive_buffer c) source = Some curbuf ->
  0 < padded_next_message_length curbuf <= buflen curbuf ->
  receive c source =
    Some (Some (firstn (Z.to_nat (padded_next_message_length curbuf))
                       (buffer curbuf),
                next_message_length curbuf),
          set_receive_buffer c
            (set_nth (Z.to_nat source) (_receive_buffer c)
               (snd (take_message curbuf)))).
Proof.
  intros Hc H. unfold receive. rewrite Hc. simpl.
  rewrite take_message_some by assumption. simpl.
  rewrite store_some by (eapply at_index_range; eauto). reflexivity.
Qed.

(** C10: consuming a header whose length field is 0 leaves both
    [next_message_length] and [padded_next_message_length] at 0, removes
    the eight header bytes from the queue, and [receive] on that source
    then returns [NULL] without touching the communicator, so no message
    is ever produced for that frame. *)
Theorem zero_length_header_is_skipped
    (c : mpi_comm) (idx : Z) (curbuf : receive_buffer_type) :
  at_index (_receive_buffer c) idx = Some curbuf ->
  next_message_length curbuf = 0 ->
  sizeof_comm_header <= buflen curbuf ->
  header_length (firstn 8 (buffer curbuf)) = 0 ->
  exists c',
    locked_read_header_from_buffer c idx = Some c'
    /\ at_index (_receive_buffer c') idx =
         Some {| buflen := wrap (buflen curbuf - sizeof_comm_header);
                 buffer := skipn 8 (buffer curbuf);
                 next_message_length := 0;
                 padded_next_message_length := 0 |}
    /\ receive c' idx = Some (None, c')
    /\ forall fuel, drain_loop (S fuel) c' idx = Returns ([], c').
Proof.
  intros Hc Hn Hb Hz. unfold sizeof_comm_header in *.
  pose proof (at_index_range _ _ _ Hc) as R.
  unfold locked_read_header_from_buffer. rewrite Hc. simpl.
  rewrite store_some by assumption. simpl.
  eexists. split; [reflexivity|].
  assert (B : at_index
                (_receive_buffer
                   (set_receive_buffer c
                      (set_nth (Z.to_nat idx) (_receive_buffer c)
                         (read_header curbuf)))) idx
              = Some {| buflen := wrap (buflen curbuf - 8);
                        buffer := skipn 8 (buffer curbuf);
                        next_message_length := 0;
                        padded_next_message_length := 0 |}).
  { simpl. rewrite at_index_set_nth_same by assumption.
    rewrite read_header_fires by assumption. rewrite Hz. reflexivity. }
  split; [exact B|].
  assert (Rv : receive
                 (set_receive_buffer c
                    (set_nth (Z.to_nat idx) (_receive_buffer c)
                       (read_header curbuf))) idx
               = Some (None,
                       set_receive_buffer c
                         (set_nth (Z.to_nat idx) (_receive_buffer c)
                            (read_header curbuf)))).
  { eapply receive_none; [exact B|]. left. reflexivity. }
  split; [exact Rv|].
  intros fuel. simpl. rewrite Rv. reflexivity.
Qed.

Lemma zero_length_header_is_skipped_witness :
  exists c',
    locked_read_header_from_buffer
      (set_receive_buffer (construct 1 8 0)
         [{| buflen := 8; buffer := header_bytes 0;
             next_message_length := 0;
             padded_next_message_length := 0 |}]) 0 = Some c'
    /\ at_index (_receive_buffer c') 0 =
         Some {| buflen := wrap (8 - sizeof_comm_header);
                 buffer := skipn 8 (header_bytes 0);
                 next_message_length := 0;
                 padded_next_message_length := 0 |}
    /\ receive c' 0 = Some (None, c')
    /\ forall fuel, drain_loop (S fuel) c' 0 = Returns ([], c').
Proof.
  apply (zero_length_header_is_skipped
           (set_receive_buffer (construct 1 8 0)
              [{| buflen := 8; buffer := header_bytes 0;
                  next_message_length := 0;
                  padded_next_message_length := 0 |}])
           0
           {| buflen := 8; buffer := header_bytes 0;
              next_message_length := 0;
              padded_next_message_length := 0 |}).
  - reflexivity.
  - reflexivity.
  - unfold sizeof_comm_header. simpl. lia.
  - reflexivity.
Defined.

(** C7: [receive(source)] always returns. It returns [NULL], leaving the
    communicator as it was, exactly when no complete padded message is
    buffered ([padded_next_message_length] is 0 or exceeds [buflen]).
    Otherwise it returns the first [padded_next_message_length] bytes of
    the queue, reports [next_message_length] as the length, removes
    those bytes and lowers [buflen] by that amount, clears both length
    fields, and attempts one further header consumption: if fewer than
    eight bytes are left, they stay in the queue and both length fields
    are 0; if eight or more are left, the first eight are taken off the
    queue as the next header, [buflen] drops by eight more, and the
    length fields are that header's length and its padded length.
    Nothing else in the communicator changes. *)
Theorem receive_returns_complete_message
    (c : mpi_comm) (source : Z) (curbuf : receive_buffer_type) :
  at_index (_receive_buffer c) source = Some curbuf ->
  buffer_ok curbuf ->
  let padded := padded_next_message_length curbuf in
  exists ret c',
    receive c source = Some (ret, c')
    /\ (ret = None <-> padded = 0 \/ buflen curbuf < padded)
    /\ (ret = None -> c' = c)
    /\ forall block length,
         ret = Some (block, length) ->
         let left := buflen curbuf - padded in
         let rest := skipn (Z.to_nat padded) (buffer curbuf) in
         block = firstn (Z.to_nat padded) (buffer curbuf)
         /\ Z.of_nat (List.length block) = padded
         /\ length = next_message_length curbuf
         /\ buffer curbuf = block ++ rest
         /\ Z.of_nat (List.length rest) = left
         /\ (left < sizeof_comm_header ->
             at_index (_receive_buffer c') source =
               Some {| buflen := left;
                       buffer := rest;
                       next_message_length := 0;
                       padded_next_message_length := 0 |})
         /\ (sizeof_comm_header <= left ->
             at_index (_receive_buffer c') source =
               Some {| buflen := left - sizeof_comm_header;
                       buffer := skipn 8 rest;
                       next_message_length := header_length (firstn 8 rest);
                       padded_next_message_length :=
                         get_padded_length (header_length (firstn 8 rest)) |})
         /\ (forall other, other <> source ->
               at_index (_receive_buffer c') other =
               at_index (_receive_buffer c) other)
         /\ c' = set_receive_buffer c (_receive_buffer c').
Proof.
  intros Hc (Hlen & Hb & Hn & Hp) padded. subst padded.
  pose proof (at_index_range _ _ _ Hc) as R.
  destruct (Z.eq_dec (padded_next_message_length curbuf) 0) as [E|E].
  { exists None, c. split; [eapply receive_none; eauto|].
    split; [tauto|]. split; [reflexivity|]. discriminate. }
  destruct (Z_lt_dec (buflen curbuf) (padded_next_message_length curbuf))
    as [L|L].
  { exists None, c. split; [eapply receive_none; eauto|].
    split; [tauto|]. split; [reflexivity|]. discriminate. }
  assert (G : 0 < padded_next_message_length curbuf <= buflen curbuf)
    by (unfold is_size_t in Hp; lia).
  eexists. eexists. split; [eapply receive_some; eauto|].
  split; [split; [discriminate|lia]|].
  split; [discriminate|].
  intros block length [= <- <-]. cbv zeta.
  assert (After : at_index
                    (_receive_buffer
                       (set_receive_buffer c
                          (set_nth (Z.to_nat source) (_receive_buffer c)
                             (snd (take_message curbuf))))) source
                  = Some (read_header
                            {| buflen := buflen curbuf
                                         - padded_next_message_length curbuf;
                               buffer :=
                                 skipn (Z.to_nat
                                          (padded_next_message_length curbuf))
                                       (buffer curbuf);
                               next_message_length := 0;
                               padded_next_message_length := 0 |})).
  { cbn [set_receive_buffer _receive_buffer].
    rewrite at_index_set_nth_same by assumption.
    rewrite take_message_some by assumption. cbn [snd].
    rewrite wrap_small; [reflexivity|].
    unfold is_size_t in *. lia. }
  split; [reflexivity|].
  split; [rewrite length_firstn; lia|].
  split; [reflexivity|].
  split; [now rewrite firstn_skipn|].
  split; [rewrite length_skipn; lia|].
  unfold sizeof_comm_header.
  split; [|split; [|split; [|reflexivity]]].
  - intros Hshort. rewrite After.
    rewrite read_header_idle by (right; cbn [buflen]; exact Hshort).
    reflexivity.
  - intros Hmore. rewrite After.
    rewrite read_header_fires;
      [|reflexivity|cbn [buflen]; exact Hmore].
    cbn [buflen buffer].
    rewrite wrap_small by (unfold is_size_t in *; lia).
    reflexivity.
  - intros other Ho. cbn [set_receive_buffer _receive_buffer].
    apply at_index_set_nth_other; lia.
Qed.

Lemma receive_returns_complete_message_witness :
  exists block c',
    receive
      (set_receive_buffer (construct 1 8 0)
         [{| buflen := 16;
             buffer := repeat Byte.x2a 8 ++ header_bytes 3;
             next_message_length := 5;
             padded_next_message_length := 8 |}]) 0
    = Some (Some (block, 5), c')
    /\ block = repeat Byte.x2a 8
    /\ at_index (_receive_buffer c') 0
       = Some {| buflen := 0; buffer := [];
                 next_message_length := 3;
                 padded_next_message_length := 8 |}.
Proof.
  destruct (receive_returns_complete_message
              (set_receive_buffer (construct 1 8 0)
                 [{| buflen := 16;
                     buffer := repeat Byte.x2a 8 ++ header_bytes 3;
                     next_message_length := 5;
                     padded_next_message_length := 8 |}])
              0
              {| buflen := 16;
                 buffer := repeat Byte.x2a 8 ++ header_bytes 3;
                 next_message_length := 5;
                 padded_next_message_length := 8 |})
    as (ret & c' & Hr & Hnone & _ & Hsome).
  - reflexivity.
  - unfold buffer_ok, is_size_t, size_t_modulus. simpl. lia.
  - destruct ret as [[block len]|].
    + destruct (Hsome block len eq_refl)
        as (Hblock & _ & Hlen & _ & _ & _ & Hnext & _).
      exists block, c'. subst len. split; [exact Hr|].
      split; [exact Hblock|]. apply Hnext. vm_compute. discriminate.
    + exfalso. destruct Hnone as [Hnone _].
      specialize (Hnone eq_refl). cbn in Hnone. lia.
Defined.

(** ** Framing is kept by every buffer operation *)

Lemma header_length_range (hdr : list byte) :
  (length hdr <= 8)%nat -> is_size_t (header_length hdr).
Proof.
  intros H. unfold is_size_t, header_length, size_t_modulus.
  pose proof (le_combine_bound hdr) as [B0 B1]. split; [assumption|].
  eapply Z.lt_le_trans; [exact B1|].
  apply Z.pow_le_mono_r; lia.
Qed.

Lemma framing_read_header (stream : list byte) (curbuf : receive_buffer_type) :
  framing stream curbuf -> framing stream (read_header curbuf).
Proof.
  intros (k & Hk & Hq & Hl & Hp & Hn & Hh).
  destruct (Z.eq_dec (next_message_length curbuf) 0) as [E|E];
    [|rewrite read_header_idle by auto; exists k; auto 10].
  destruct (Z_lt_dec (buflen curbuf) 8) as [L|L];
    [rewrite read_header_idle by auto; exists k; auto 10|].
  rewrite read_header_fires by lia.
  assert (Z.of_nat k + 8 <= Z.of_nat (length stream)) as Hroom.
  { pose proof (wrap_le (Z.of_nat (length stream) - Z.of_nat k) ltac:(lia)).
    lia. }
  exists (8 + k)%nat. fields.
  split; [lia|].
  split; [rewrite Hq; apply skipn_skipn|].
  split; [rewrite Hl, wrap_sub_l; f_equal; lia|].
  split; [reflexivity|].
  split; [apply header_length_range; rewrite length_firstn; lia|].
  intros _. split; [lia|].
  rewrite Hq. do 3 f_equal. lia.
Qed.

Lemma framing_insert (stream v : list byte) (curbuf : receive_buffer_type) :
  framing stream curbuf ->
  framing (stream ++ v) (insert_bytes curbuf v (Z.of_nat (length v))).
Proof.
  intros (k & Hk & Hq & Hl & Hp & Hn & Hh).
  unfold insert_bytes. apply framing_read_header.
  exists k. fields. rewrite length_app.
  split; [lia|].
  split.
  { unfold sputn. rewrite Nat2Z.id, firstn_all, Hq.
    rewrite skipn_app. replace (k - length stream)%nat with 0%nat by lia.
    reflexivity. }
  split; [rewrite Hl, wrap_add_l; f_equal; lia|].
  split; [assumption|]. split; [assumption|].
  intros Hne. destruct (Hh Hne) as [H8 Hv]. split; [assumption|].
  rewrite Hv. f_equal.
  rewrite skipn_app, firstn_app.
  replace (k - 8 - length stream)%nat with 0%nat by lia.
  rewrite length_skipn.
  replace (8 - (length stream - (k - 8)))%nat with 0%nat by lia.
  simpl. now rewrite app_nil_r.
Qed.

Lemma framing_take_message (stream : list byte) (curbuf : receive_buffer_type) :
  framing stream curbuf -> framing stream (snd (take_message curbuf)).
Proof.
  intros F.
  destruct (Z.eq_dec (padded_next_message_length curbuf) 0) as [E|E];
    [rewrite take_message_none by auto; exact F|].
  destruct (Z_lt_dec (buflen curbuf) (padded_next_message_length curbuf))
    as [L|L]; [rewrite take_message_none by auto; exact F|].
  destruct F as (k & Hk & Hq & Hl & Hp & Hn & Hh).
  pose proof (get_padded_length_range (next_message_length curbuf)) as R.
  rewrite <- Hp in R. unfold is_size_t in R.
  rewrite take_message_some by lia. cbn [snd].
  apply framing_read_header.
  pose proof (wrap_le (Z.of_nat (length stream) - Z.of_nat k) ltac:(lia)).
  exists (Z.to_nat (padded_next_message_length curbuf) + k)%nat. fields.
  split; [lia|].
  split; [rewrite Hq; apply skipn_skipn|].
  split; [rewrite Hl, wrap_sub_l; f_equal; lia|].
  split; [reflexivity|].
  split; [unfold is_size_t, size_t_modulus; lia|].
  intros N. now contradiction N.
Qed.

Lemma framing_run (ops : list buffer_op) :
  forall stream curbuf,
    framing stream curbuf ->
    framing (stream ++ inserted ops) (run_buffer_ops ops curbuf).
Proof.
  induction ops as [|op ops IH]; intros stream curbuf F; simpl.
  - now rewrite app_nil_r.
  - destruct op; simpl.
    + rewrite app_assoc. apply IH. now apply framing_insert.
    + apply IH. now apply framing_read_header.
    + apply IH. now apply framing_take_message.
Qed.

Lemma framing_empty : framing [] empty_receive_buffer.
Proof.
  exists 0%nat. simpl.
  repeat split; try reflexivity; try lia; intros N; now contradiction N.
Qed.

(** C6, as the code has it. From the empty buffer, after any sequence
    of inserts, header consumptions and receives:
    [padded_next_message_length] is the padding of
    [next_message_length], so a zero length has a zero padded length,
    and a zero padded length has a zero length unless the length
    exceeds [2^64 - 8] (where the padding wraps to 0); [buflen] is the
    size of the queue modulo [2^64]; and a non-zero
    [next_message_length] was read from the eight bytes that came just
    before the front of the queue in the inserted stream, so its header
    is no longer in the queue. *)
Theorem framing_invariant (ops : list buffer_op) :
  let curbuf := run_buffer_ops ops empty_receive_buffer in
  (next_message_length curbuf = 0 -> padded_next_message_length curbuf = 0)
  /\ (padded_next_message_length curbuf = 0 ->
      next_message_length curbuf <= size_t_modulus - 8 ->
      next_message_length curbuf = 0)
  /\ padded_next_message_length curbuf =
       get_padded_length (next_message_length curbuf)
  /\ exists k : nat,
       (k <= length (inserted ops))%nat
       /\ buffer curbuf = skipn k (inserted ops)
       /\ buflen curbuf = wrap (Z.of_nat (length (buffer curbuf)))
       /\ (next_message_length curbuf <> 0 ->
             (8 <= k)%nat
             /\ next_message_length curbuf =
                  header_length (firstn 8 (skipn (k - 8) (inserted ops)))).
Proof.
  intros curbuf.
  destruct (framing_run ops [] empty_receive_buffer framing_empty)
    as (k & Hk & Hq & Hl & Hp & Hn & Hh).
  cbn [app] in *. fold curbuf in Hq, Hl, Hp, Hn, Hh.
  split; [intros E; rewrite Hp, E; reflexivity|].
  split.
  { intros E B. rewrite Hp in E.
    rewrite get_padded_length_exact in E by (unfold is_size_t in Hn; lia).
    pose proof (round_up_spec (next_message_length curbuf)).
    unfold is_size_t in Hn. lia. }
  split; [assumption|].
  exists k. split; [assumption|]. split; [assumption|].
  split; [|assumption].
  rewrite Hl, Hq, length_skipn. f_equal. lia.
Qed.

(** C6 as stated fails: after a header of eight [0xff] bytes is
    inserted, [next_message_length] is [2^64 - 1] while
    [padded_next_message_length] is 0. *)
Lemma framing_iff_fails_on_wrapping_header :
  let curbuf :=
    run_buffer_ops [Insert (repeat Byte.xff 8)] empty_receive_buffer in
  next_message_length curbuf = 2 ^ 64 - 1
  /\ padded_next_message_length curbuf = 0
  /\ ~ (next_message_length curbuf = 0 <->
        padded_next_message_length curbuf = 0).
Proof.
  assert (N : next_message_length
                (run_buffer_ops [Insert (repeat Byte.xff 8)]
                   empty_receive_buffer) = 2 ^ 64 - 1) by reflexivity.
  assert (P : padded_next_message_length
                (run_buffer_ops [Insert (repeat Byte.xff 8)]
                   empty_receive_buffer) = 0) by reflexivity.
  cbv zeta. rewrite N, P.
  split; [reflexivity|]. split; [reflexivity|].
  intros [_ H]. specialize (H eq_refl). discriminate H.
Qed.

(** * The round-robin cursor *)

Lemma receive_sweep_cursor (count : nat) :
  forall j i c block source length c',
    receive_sweep count j i c = Some (Some (block, source, length), c') ->
    exists round,
      j <= round < j + Z.of_nat count
      /\ source = wrap (round + i) mod _size c
      /\ _last_receive_buffer_read_from c' = round.
Proof.
  induction count as [|count IH]; intros j i c block source length c' H;
    simpl in H; [discriminate|].
  destruct (receive c (wrap (j + i) mod _size c)) as [[ret c1]|] eqn:R;
    simpl in H; [|discriminate].
  assert (S1 : _size c1 = _size c).
  { unfold receive in R.
    destruct (at_index (_receive_buffer c) (wrap (j + i) mod _size c));
      simpl in R; [|discriminate].
    destruct (take_message r) as [[m|] b]; simpl in R.
    - destruct (store (_receive_buffer c) (wrap (j + i) mod _size c) b);
        simpl in R; [|discriminate].
      injection R as _ <-. reflexivity.
    - injection R as _ <-. reflexivity. }
  destruct ret as [[blk len]|].
  - injection H as <- <- <- <-. exists j. simpl. repeat split; lia.
  - apply IH in H. destruct H as (round & Hr & Hs & Hl).
    exists round. rewrite <- S1. repeat split; try assumption; lia.
Qed.

(** What the any-source [receive] leaves in the cursor: the number of
    the probing round that succeeded, counted from 0, and not the
    source that round probed. *)
Lemma receive_any_cursor (c : mpi_comm) block source length c' :
  receive_any c = Some (Some (block, source, length), c') ->
  exists round,
    0 <= round < Z.of_nat (Z.to_nat (_size c))
    /\ source =
         wrap (round + wrap (_last_receive_buffer_read_from c + 1))
         mod _size c
    /\ _last_receive_buffer_read_from c' = round.
Proof.
  unfold receive_any. intros H.
  apply receive_sweep_cursor in H. destruct H as (round & Hr & Hs & Hl).
  exists round. repeat split; try assumption; lia.
Qed.

(** C1 on the code: three peers, cursor at 0, one complete 5-byte
    message buffered from source 2 only. The any-source [receive]
    returns it with source 2, and the cursor afterwards is 1 (the round
    that succeeded), not 2. *)
Theorem receive_any_cursor_is_round_not_source :
  exists c block c',
    insert_receive_buffer (construct 3 96 0) 2
      (header_bytes 5 ++ repeat Byte.x2a 8) 16 = Some c
    /\ _last_receive_buffer_read_from c = 0
    /\ receive_any c = Some (Some (block, 2, 5), c')
    /\ _last_receive_buffer_read_from c' = 1
    /\ _last_receive_buffer_read_from c' <> 2.
Proof.
  eexists. eexists. eexists.
  split; [vm_compute; reflexivity|].
  split; [reflexivity|].
  split; [vm_compute; reflexivity|].
  split; [reflexivity|].
  vm_compute. discriminate.
Qed.

(** * Resetting a send group *)

Lemma set_nth_middle {A : Type} (pre : list A) (x a : A) (post : list A) :
  set_nth (length pre) (pre ++ x :: post) a = pre ++ a :: post.
Proof. induction pre as [|y pre IH]; simpl; [reflexivity|]. now f_equal. Qed.

Lemma zero_lengths_middle (mid : list Z) :
  forall pre post,
    zero_lengths (length mid) (Z.of_nat (length pre)) (pre ++ mid ++ post)
    = Some (pre ++ repeat 0 (length mid) ++ post).
Proof.
  induction mid as [|x mid IH]; intros pre post; [reflexivity|].
  cbn [zero_lengths length].
  rewrite store_some
    by (rewrite length_app; cbn [app length]; lia).
  rewrite Nat2Z.id. cbn [app]. rewrite set_nth_middle. cbn [bind].
  replace (Z.of_nat (length pre) + 1) with (Z.of_nat (length (pre ++ [0])))
    by (rewrite length_app; simpl; lia).
  replace (pre ++ 0 :: mid ++ post) with ((pre ++ [0]) ++ mid ++ post)
    by (rewrite <- app_assoc; reflexivity).
  rewrite IH. rewrite <- app_assoc. reflexivity.
Qed.

Lemma zero_lengths_all (v : list Z) :
  zero_lengths (length v) 0 v = Some (repeat 0 (length v)).
Proof.
  pose proof (zero_lengths_middle v [] []) as H.
  simpl in H. rewrite !app_nil_r in H. exact H.
Qed.

Lemma reset_send_buffer_some (c : mpi_comm) (idx curtime : Z) :
  comm_ok c -> exists c', reset_send_buffer c idx curtime = Some c'.
Proof.
  intros K. unfold reset_send_buffer.
  rewrite <- (ok_sendlength c K idx), zero_lengths_all. cbn [bind].
  destruct (10000 <? _); eauto.
Qed.

Lemma get2_set2_same {A : Type} (p : A * A) (idx : Z) (a : A) :
  get2 (set2 p idx a) idx = a.
Proof. unfold get2, set2. destruct (idx =? 0); reflexivity. Qed.

Lemma get2_set2_other {A : Type} (p : A * A) (idx : Z) (a : A) :
  idx = 0 \/ idx = 1 -> get2 (set2 p idx a) (1 - idx) = get2 p (1 - idx).
Proof. intros [-> | ->]; reflexivity. Qed.

(** C8, as the code has it. [reset_send_buffer(g)] sets the [N] length
    counters of group [g] to zero; it reclaims the group's window (a
    fresh mapping of the same size) and records the time exactly when
    the [size_t] difference between the timer reading and the group's
    last reclamation time exceeds 10000 ms; at 10000 ms or less the
    window and the time stamp stay as they were; and nothing else in
    the communicator changes. *)
Theorem reset_send_buffer_effect (c : mpi_comm) (idx curtime : Z) :
  idx = 0 \/ idx = 1 ->
  length (get2 (_sendlength c) idx) = Z.to_nat (_size c) ->
  let elapsed := wrap (curtime - get2 (_last_garbage_collect_ms c) idx) in
  exists c',
    reset_send_buffer c idx curtime = Some c'
    /\ get2 (_sendlength c') idx = repeat 0 (Z.to_nat (_size c))
    /\ (10000 < elapsed ->
          get2 (_send_base c') idx =
            construct_send_window (_send_window_size c)
          /\ get2 (_last_garbage_collect_ms c') idx = curtime)
    /\ (elapsed <= 10000 ->
          get2 (_send_base c') idx = get2 (_send_base c) idx
          /\ get2 (_last_garbage_collect_ms c') idx =
               get2 (_last_garbage_collect_ms c) idx)
    /\ get2 (_sendlength c') (1 - idx) = get2 (_sendlength c) (1 - idx)
    /\ get2 (_send_base c') (1 - idx) = get2 (_send_base c) (1 - idx)
    /\ get2 (_last_garbage_collect_ms c') (1 - idx) =
         get2 (_last_garbage_collect_ms c) (1 - idx)
    /\ _cur_send_buffer c' = _cur_send_buffer c
    /\ _receive_buffer c' = _receive_buffer c
    /\ _last_receive_buffer_read_from c' = _last_receive_buffer_read_from c
    /\ _num_nodes_flushing_threads_done c' =
         _num_nodes_flushing_threads_done c
    /\ _flushing_thread_done c' = _flushing_thread_done c
    /\ _size c' = _size c
    /\ _send_window_size c' = _send_window_size c
    /\ _max_sendlength_per_machine c' = _max_sendlength_per_machine c
    /\ _offset c' = _offset c
    /\ _offset_by_datatype c' = _offset_by_datatype c.
Proof.
  intros Hidx Hlen elapsed. subst elapsed.
  unfold reset_send_buffer. rewrite <- Hlen, zero_lengths_all.
  cbn [bind].
  cbn [set_sendlength _last_garbage_collect_ms].
  destruct (10000 <? wrap (curtime - get2 (_last_garbage_collect_ms c) idx))
    eqn:T.
  - apply Z.ltb_lt in T. eexists. split; [reflexivity|].
    cbn -[wrap construct_send_window].
    rewrite !get2_set2_same, !get2_set2_other by assumption.
    repeat split; try reflexivity; intros; lia.
  - apply Z.ltb_ge in T. eexists. split; [reflexivity|].
    cbn -[wrap construct_send_window].
    rewrite !get2_set2_same, !get2_set2_other by assumption.
    repeat split; try reflexivity; intros; lia.
Qed.

Lemma reset_send_buffer_effect_witness :
  exists c',
    reset_send_buffer (construct 2 64 0) 0 10001 = Some c'
    /\ get2 (_sendlength c') 0 = repeat 0 (Z.to_nat 2)
    /\ get2 (_last_garbage_collect_ms c') 0 = 10001.
Proof.
  destruct (reset_send_buffer_effect (construct 2 64 0) 0 10001)
    as (c' & H1 & H2 & H3 & _).
  - left. reflexivity.
  - reflexivity.
  - exists c'. split; [exact H1|]. split; [exact H2|].
    apply H3. vm_compute. reflexivity.
Defined.

(** C8 as stated fails at exactly ten seconds: with bytes staged in
    group 0 (so that its window differs from a fresh mapping) and the
    group last reclaimed at time 0, a reset at time 10000 keeps the
    window and the time stamp. *)
Lemma no_reclaim_at_exactly_ten_seconds :
  exists c c',
    actual_send (construct 2 64 0) 1 (pointer_to [Byte.xff]) 1 = Some (1, c)
    /\ get2 (_last_garbage_collect_ms c) 0 = 0
    /\ wrap (10000 - get2 (_last_garbage_collect_ms c) 0) = 10000
    /\ reset_send_buffer c 0 10000 = Some c'
    /\ get2 (_send_base c') 0 = get2 (_send_base c) 0
    /\ get2 (_send_base c') 0 <> construct_send_window (_send_window_size c)
    /\ get2 (_last_garbage_collect_ms c') 0 = 0.
Proof.
  eexists. eexists.
  split; [vm_compute; reflexivity|].
  split; [reflexivity|].
  split; [reflexivity|].
  split; [vm_compute; reflexivity|].
  split; [reflexivity|].
  split; [vm_compute; discriminate|].
  reflexivity.
Qed.

(** * Staging into the send window *)

Lemma current_group_cases (c : mpi_comm) :
  current_group c = 0 \/ current_group c = 1.
Proof.
  unfold current_group.
  assert (E : Z.land (_cur_send_buffer c) 1 = _cur_send_buffer c mod 2)
    by exact (Z.land_ones (_cur_send_buffer c) 1 ltac:(lia)).
  pose proof (Z.mod_pos_bound (_cur_send_buffer c) 2 ltac:(lia)). lia.
Qed.

Lemma capacity_facts (c : mpi_comm) :
  comm_ok c ->
  0 <= _max_sendlength_per_machine c
  /\ _max_sendlength_per_machine c mod 8 = 0
  /\ _size c * _max_sendlength_per_machine c <= _send_window_size c.
Proof.
  intros K. destruct K as [Hs [W0 W1] Hc _ _ _ _ _ _].
  unfold sizeof_send_type in Hc. rewrite Hc.
  pose proof (Z.div_pos (_send_window_size c) (_size c) W0 Hs) as Q0.
  pose proof (Z.mul_div_le (_send_window_size c) (_size c) Hs) as Q1.
  pose proof (Z.div_pos _ 8 Q0 ltac:(lia)) as R0.
  pose proof (Z.mul_div_le (_send_window_size c / _size c) 8 ltac:(lia)) as R1.
  split; [lia|]. split; [apply Z.mod_mul; lia|].
  nia.
Qed.

Lemma capacity_at_least_element (c : mpi_comm) :
  comm_ok c -> _size c * 8 <= _send_window_size c ->
  8 <= _max_sendlength_per_machine c.
Proof.
  intros K H. destruct K as [Hs [W0 W1] Hc _ _ _ _ _ _].
  unfold sizeof_send_type in Hc. rewrite Hc.
  assert (8 <= _send_window_size c / _size c)
    by (apply Z.div_le_lower_bound; lia).
  assert (1 <= _send_window_size c / _size c / 8)
    by (apply Z.div_le_lower_bound; lia).
  lia.
Qed.

Lemma at_index_offset (c : mpi_comm) (target : Z) :
  comm_ok c -> 0 <= target < _size c ->
  at_index (_offset c) target = Some (target * _max_sendlength_per_machine c).
Proof.
  intros K H. rewrite (ok_offset c K). unfold at_index.
  destruct (target <? 0) eqn:E; [apply Z.ltb_lt in E; lia|].
  rewrite nth_error_map.
  rewrite (nth_error_nth' _ 0%nat) by (rewrite length_seq; lia).
  rewrite seq_nth by lia. cbn [option_map Nat.add].
  rewrite Z2Nat.id by lia. reflexivity.
Qed.

Lemma in_lengths_ok (c : mpi_comm) (g target old : Z) :
  lengths_ok c -> at_index (get2 (_sendlength c) g) target = Some old ->
  length_ok (_max_sendlength_per_machine c) old.
Proof.
  intros L H. specialize (L g). rewrite Forall_forall in L.
  apply L. eapply at_index_In; eauto.
Qed.

Lemma grant_of_facts (c : mpi_comm) (old length : Z) :
  comm_ok c -> length_ok (_max_sendlength_per_machine c) old ->
  0 <= grant_of c old length
  /\ grant_of c old length mod 8 = 0
  /\ old + grant_of c old length <= _max_sendlength_per_machine c
  /\ grant_of c old length <= get_padded_length length.
Proof.
  intros K [[O0 O1] O8]. unfold sizeof_send_type in O8.
  destruct (capacity_facts c K) as (C0 & C8 & CW).
  pose proof (get_padded_length_range length) as [P0 P1].
  pose proof (get_padded_length_mod8 length) as P8.
  unfold grant_of.
  split; [lia|]. split; [|lia].
  destruct (Z.min_spec (_max_sendlength_per_machine c - old)
              (get_padded_length length)) as [[_ ->]|[_ ->]];
    [|assumption].
  rewrite Zminus_mod, C8, O8. reflexivity.
Qed.

Lemma actual_send_spec (c : mpi_comm) (target : Z) (data : nat -> byte)
    (length old : Z) :
  comm_ok c -> lengths_ok c ->
  at_index (get2 (_sendlength c) (current_group c)) target = Some old ->
  actual_send c target data length =
    if grant_of c old length =? 0 then Some (0, c)
    else Some (Z.min (grant_of c old length) length,
               staged_into c target data old (grant_of c old length)).
Proof.
  intros K L Hold.
  pose proof (in_lengths_ok _ _ _ _ L Hold) as Ho.
  pose proof (grant_of_facts c old length K Ho) as (G0 & G8 & Gc & Gp).
  destruct (capacity_facts c K) as (C0 & C8 & CW).
  pose proof (at_index_range _ _ _ Hold) as R.
  rewrite (ok_sendlength c K) in R.
  destruct Ho as [[O0 O1] O8].
  destruct (ok_window c K) as [W0 W1].
  pose proof (ok_size c K) as Hs.
  assert (CL : _max_sendlength_per_machine c <= _send_window_size c) by nia.
  unfold actual_send. fold (current_group c). rewrite Hold. cbn [bind].
  rewrite (wrap_small (_max_sendlength_per_machine c - old))
    by (unfold is_size_t; lia).
  fold (grant_of c old length).
  destruct (grant_of c old length =? 0) eqn:E; [reflexivity|].
  apply Z.eqb_neq in E.
  rewrite store_some by (rewrite (ok_sendlength c K); lia). cbn [bind].
  rewrite at_index_offset by (auto; lia). cbn [bind].
  unfold memcpy.
  assert (B : target * _max_sendlength_per_machine c + old
              + grant_of c old length <= _send_window_size c) by nia.
  assert (B0 : 0 <= target * _max_sendlength_per_machine c) by nia.
  rewrite (ok_send_base c K).
  destruct (0 <=? target * _max_sendlength_per_machine c + old) eqn:E1;
    [|apply Z.leb_gt in E1; lia].
  destruct (0 <=? grant_of c old length) eqn:E2;
    [|apply Z.leb_gt in E2; lia].
  destruct (target * _max_sendlength_per_machine c + old
            + grant_of c old length <=? Z.of_nat (Z.to_nat (_send_window_size c)))
    eqn:E3; [|apply Z.leb_gt in E3; lia].
  cbn [andb bind].
  rewrite (wrap_small (old + grant_of c old length))
    by (unfold is_size_t; lia).
  reflexivity.
Qed.

(** C4, as the code has it. For a stage of [len] bytes with
    [0 < len <= 2^64 - 8] that reads [old] in the target's slot counter:
    the grant is [min(per_peer_capacity - old, ceil(len/E)*E)], the
    counter goes from [old] to [old + grant], the call returns
    [min(grant, len)], and it returns 0 exactly when the slot was
    already at capacity ([grant = 0]), in which case the communicator,
    and so the counter, is left as it was. *)
Theorem actual_send_grant (c : mpi_comm) (target : Z) (data : nat -> byte)
    (len old : Z) :
  comm_ok c -> lengths_ok c ->
  at_index (get2 (_sendlength c) (current_group c)) target = Some old ->
  0 < len <= size_t_modulus - 8 ->
  let grant := Z.min (_max_sendlength_per_machine c - old) (round_up len) in
  exists c',
    actual_send c target data len = Some (Z.min grant len, c')
    /\ at_index (get2 (_sendlength c') (current_group c')) target =
         Some (old + grant)
    /\ (Z.min grant len = 0 <-> old = _max_sendlength_per_machine c)
    /\ (grant = 0 <-> old = _max_sendlength_per_machine c)
    /\ (old = _max_sendlength_per_machine c -> c' = c).
Proof.
  intros K L Hold Hlen grant.
  pose proof (in_lengths_ok _ _ _ _ L Hold) as [[O0 O1] O8].
  pose proof (round_up_spec len) as [R8 Rb].
  pose proof (at_index_range _ _ _ Hold) as R.
  assert (G : grant_of c old len = grant).
  { unfold grant_of. rewrite get_padded_length_exact by lia. reflexivity. }
  rewrite (actual_send_spec c target data len old K L Hold), G.
  destruct (grant =? 0) eqn:E.
  - apply Z.eqb_eq in E. exists c. rewrite E in *.
    subst grant.
    split; [f_equal; f_equal; lia|].
    split; [rewrite Hold; f_equal; lia|].
    repeat split; intros; try reflexivity; lia.
  - apply Z.eqb_neq in E. eexists. split; [reflexivity|].
    split.
    { unfold staged_into, current_group.
      cbn [set_send_base set_sendlength _sendlength _cur_send_buffer].
      rewrite get2_set2_same. apply at_index_set_nth_same. exact R. }
    subst grant. repeat split; intros; lia.
Qed.

Lemma comm_ok_construct (size send_window now : Z) :
  0 < size -> is_size_t send_window ->
  comm_ok (construct size send_window now).
Proof.
  intros Hs Hw. constructor; cbn [construct _size _send_window_size
    _max_sendlength_per_machine _offset _offset_by_datatype _sendlength
    _send_base _receive_buffer _cur_send_buffer]; try assumption;
    try reflexivity.
  - intros g. unfold get2. destruct (g =? 0); apply repeat_length.
  - intros g. unfold get2, construct_send_window.
    destruct (g =? 0); apply repeat_length.
  - apply repeat_length.
  - unfold is_size_t, size_t_modulus. lia.
Qed.

Lemma lengths_ok_construct (size send_window now : Z) :
  0 < size -> is_size_t send_window ->
  lengths_ok (construct size send_window now).
Proof.
  intros Hs Hw g.
  destruct (capacity_facts _ (comm_ok_construct size send_window now Hs Hw))
    as (C0 & _).
  assert (Forall (length_ok
                    (_max_sendlength_per_machine
                       (construct size send_window now)))
                 (repeat 0 (Z.to_nat size))) as F.
  { apply Forall_forall. intros x Hx. apply repeat_spec in Hx. subst x.
    split; [lia|reflexivity]. }
  unfold get2. destruct (g =? 0); exact F.
Qed.

Lemma actual_send_grant_witness :
  exists c',
    actual_send (construct 2 64 0) 1 (pointer_to [Byte.x2a]) 13 =
      Some (Z.min (Z.min (32 - 0) (round_up 13)) 13, c')
    /\ at_index (get2 (_sendlength c') (current_group c')) 1 =
         Some (0 + Z.min (32 - 0) (round_up 13)).
Proof.
  destruct (actual_send_grant (construct 2 64 0) 1 (pointer_to [Byte.x2a])
              13 0) as (c' & H1 & H2 & _).
  - apply comm_ok_construct; unfold is_size_t, size_t_modulus; lia.
  - apply lengths_ok_construct; unfold is_size_t, size_t_modulus; lia.
  - reflexivity.
  - unfold size_t_modulus. lia.
  - exists c'. split; [exact H1|exact H2].
Defined.

(** C4 as stated fails for the seven largest lengths: a stage of
    [2^64 - 1] bytes into an empty slot of capacity 32 is granted 0
    bytes, not [min(32 - 0, ceil(len/E)*E) = 32], and returns 0 although
    the slot is not at capacity. *)
Lemma actual_send_returns_zero_on_empty_slot :
  at_index (get2 (_sendlength (construct 2 64 0))
                 (current_group (construct 2 64 0))) 1 = Some 0
  /\ _max_sendlength_per_machine (construct 2 64 0) = 32
  /\ actual_send (construct 2 64 0) 1 (pointer_to [Byte.x2a]) (2 ^ 64 - 1)
     = Some (0, construct 2 64 0)
  /\ Z.min (Z.min (32 - 0) (round_up (2 ^ 64 - 1))) (2 ^ 64 - 1) = 32.
Proof.
  split; [reflexivity|]. split; [reflexivity|].
  split; [vm_compute; reflexivity|]. reflexivity.
Qed.

(** * Invariant I1 *)

Lemma get2_set2_cases {A : Type} (p : A * A) (idx g : Z) (a : A) :
  get2 (set2 p idx a) g = a \/ get2 (set2 p idx a) g = get2 p g.
Proof.
  unfold get2, set2. destruct (idx =? 0), (g =? 0); simpl; auto.
Qed.

Lemma comm_ok_staged_into (c : mpi_comm) (target : Z) (data : nat -> byte)
    (old grant : Z) :
  comm_ok c -> 0 <= target < _size c ->
  0 <= old -> 0 <= grant ->
  old + grant <= _max_sendlength_per_machine c ->
  comm_ok (staged_into c target data old grant).
Proof.
  intros K Ht Ho Hg Hc.
  destruct (capacity_facts c K) as (C0 & C8 & CW).
  destruct K as [Hs Hw Hcap Hoff Hdt Hlen Hbase Hrb Hcur].
  constructor; unfold staged_into;
    cbn [set_send_base set_sendlength _size _send_window_size
         _max_sendlength_per_machine _offset _offset_by_datatype _sendlength
         _send_base _receive_buffer _cur_send_buffer]; try assumption.
  - intros g.
    destruct (get2_set2_cases (_sendlength c) (current_group c) g
                (set_nth (Z.to_nat target)
                   (get2 (_sendlength c) (current_group c)) (old + grant)))
      as [-> | ->]; [rewrite set_nth_length|]; apply Hlen.
  - intros g.
    match goal with
    | |- length (get2 (set2 ?p ?i ?w) g) = _ =>
        destruct (get2_set2_cases p i g w) as [-> | ->]; [|apply Hbase]
    end.
    rewrite !length_app, length_map, length_seq, length_firstn, length_skipn.
    rewrite Hbase.
    assert (target * _max_sendlength_per_machine c + old + grant
            <= _send_window_size c) by nia.
    assert (0 <= target * _max_sendlength_per_machine c) by nia.
    lia.
Qed.

Lemma lengths_ok_staged_into (c : mpi_comm) (target : Z) (data : nat -> byte)
    (old grant : Z) :
  lengths_ok c ->
  length_ok (_max_sendlength_per_machine c) (old + grant) ->
  lengths_ok (staged_into c target data old grant).
Proof.
  intros L Hn g. unfold staged_into.
  cbn [set_send_base set_sendlength _max_sendlength_per_machine _sendlength].
  match goal with
  | |- Forall _ (get2 (set2 ?p ?i ?w) g) =>
      destruct (get2_set2_cases p i g w) as [-> | ->]; [|apply L]
  end.
  apply Forall_set_nth; [apply L|exact Hn].
Qed.

Lemma actual_send_keeps_invariant (c : mpi_comm) (target : Z)
    (data : nat -> byte) (length sent : Z) (c' : mpi_comm) :
  comm_ok c -> lengths_ok c ->
  actual_send c target data length = Some (sent, c') ->
  comm_ok c' /\ lengths_ok c'.
Proof.
  intros K L H.
  destruct (at_index (get2 (_sendlength c) (current_group c)) target)
    as [old|] eqn:Hold.
  - pose proof (in_lengths_ok _ _ _ _ L Hold) as Ho.
    pose proof (grant_of_facts c old length K Ho) as (G0 & G8 & Gc & Gp).
    pose proof (at_index_range _ _ _ Hold) as R.
    rewrite (ok_sendlength c K) in R.
    rewrite (actual_send_spec c target data length old K L Hold) in H.
    destruct (grant_of c old length =? 0); injection H as _ <-; [auto|].
    destruct Ho as [[O0 O1] O8]. unfold sizeof_send_type in O8.
    split.
    + apply comm_ok_staged_into; auto; lia.
    + apply lengths_ok_staged_into; [assumption|].
      split; [lia|]. unfold sizeof_send_type.
      rewrite Z.add_mod, O8, G8 by lia. reflexivity.
  - unfold actual_send in H. fold (current_group c) in H.
    rewrite Hold in H. discriminate H.
Qed.

Lemma reset_send_buffer_keeps_invariant (c : mpi_comm) (idx curtime : Z)
    (c' : mpi_comm) :
  comm_ok c -> lengths_ok c ->
  reset_send_buffer c idx curtime = Some c' ->
  comm_ok c' /\ lengths_ok c'
  /\ get2 (_sendlength c') idx = repeat 0 (Z.to_nat (_size c))
  /\ (forall g, get2 (_sendlength c') g = get2 (_sendlength c') idx
                \/ get2 (_sendlength c') g = get2 (_sendlength c) g)
  /\ _cur_send_buffer c' = _cur_send_buffer c
  /\ _receive_buffer c' = _receive_buffer c
  /\ _num_nodes_flushing_threads_done c' = _num_nodes_flushing_threads_done c
  /\ _flushing_thread_done c' = _flushing_thread_done c
  /\ _size c' = _size c
  /\ _send_window_size c' = _send_window_size c.
Proof.
  intros K L H.
  destruct (capacity_facts c K) as (C0 & C8 & CW).
  unfold reset_send_buffer in H.
  rewrite <- (ok_sendlength c K idx), zero_lengths_all in H. cbn [bind] in H.
  rewrite (ok_sendlength c K idx) in H.
  assert (Z0 : Forall (length_ok (_max_sendlength_per_machine c))
                 (repeat 0 (Z.to_nat (_size c)))).
  { apply Forall_forall. intros x Hx. apply repeat_spec in Hx. subst x.
    split; [lia|reflexivity]. }
  destruct K as [Hs Hw Hcap Hoff Hdt Hlen Hbase Hrb Hcur].
  destruct (10000 <? _) in H; injection H as <-.
  - split; [|split; [|split; [|split]]].
    + constructor;
        cbn [set_last_garbage_collect_ms garbage_collect set_send_base
             set_sendlength _size _send_window_size
             _max_sendlength_per_machine _offset _offset_by_datatype
             _sendlength _send_base _receive_buffer _cur_send_buffer];
        try assumption.
      * intros g.
        match goal with
        | |- length (get2 (set2 ?p ?i ?w) g) = _ =>
            destruct (get2_set2_cases p i g w) as [-> | ->];
              [apply repeat_length|apply Hlen]
        end.
      * intros g.
        match goal with
        | |- length (get2 (set2 ?p ?i ?w) g) = _ =>
            destruct (get2_set2_cases p i g w) as [-> | ->];
              [apply repeat_length|apply Hbase]
        end.
    + intros g.
      cbn [set_last_garbage_collect_ms garbage_collect set_send_base
           set_sendlength _max_sendlength_per_machine _sendlength].
      match goal with
      | |- Forall _ (get2 (set2 ?p ?i ?w) g) =>
          destruct (get2_set2_cases p i g w) as [-> | ->]; [exact Z0|apply L]
      end.
    + cbn. apply get2_set2_same.
    + intros g. cbn. rewrite get2_set2_same. apply get2_set2_cases.
    + cbn. repeat split; reflexivity.
  - split; [|split; [|split; [|split]]].
    + constructor;
        cbn [set_sendlength _size _send_window_size
             _max_sendlength_per_machine _offset _offset_by_datatype
             _sendlength _send_base _receive_buffer _cur_send_buffer];
        try assumption.
      intros g.
      match goal with
      | |- length (get2 (set2 ?p ?i ?w) g) = _ =>
          destruct (get2_set2_cases p i g w) as [-> | ->];
            [apply repeat_length|apply Hlen]
      end.
    + intros g.
      cbn [set_sendlength _max_sendlength_per_machine _sendlength].
      match goal with
      | |- Forall _ (get2 (set2 ?p ?i ?w) g) =>
          destruct (get2_set2_cases p i g w) as [-> | ->]; [exact Z0|apply L]
      end.
    + cbn. apply get2_set2_same.
    + intros g. cbn. rewrite get2_set2_same. apply get2_set2_cases.
    + cbn. repeat split; reflexivity.
Qed.

Lemma swap_buffers_keeps_invariant (c : mpi_comm) :
  comm_ok c -> lengths_ok c ->
  comm_ok (snd (swap_buffers c)) /\ lengths_ok (snd (swap_buffers c)).
Proof.
  intros K L. split.
  - destruct K as [Hs Hw Hcap Hoff Hdt Hlen Hbase Hrb Hcur].
    constructor; cbn; try assumption. apply wrap_range.
  - exact L.
Qed.

Lemma run_send_ops_keeps_invariant (ops : list send_op) :
  forall c c',
    comm_ok c -> lengths_ok c -> run_send_ops ops c = Some c' ->
    comm_ok c' /\ lengths_ok c'
    /\ _size c' = _size c
    /\ _send_window_size c' = _send_window_size c.
Proof.
  induction ops as [|op ops IH]; intros c c' K L H; simpl in H.
  - injection H as <-. auto.
  - destruct (apply_send_op c op) as [c1|] eqn:A; [|discriminate].
    cbn [bind] in H.
    assert (comm_ok c1 /\ lengths_ok c1
            /\ _size c1 = _size c
            /\ _send_window_size c1 = _send_window_size c)
      as (K1 & L1 & S1 & W1).
    { destruct op as [target data length|idx curtime|]; simpl in A.
      - destruct (actual_send c target data length) as [[sent c2]|] eqn:E;
          [|discriminate]. injection A as <-.
        destruct (actual_send_keeps_invariant _ _ _ _ _ _ K L E).
        split; [assumption|]. split; [assumption|].
        unfold actual_send in E.
        destruct (at_index _ target); [|discriminate]. cbn [bind] in E.
        destruct (Z.min _ _ =? 0); [injection E as _ <-; auto|].
        destruct (store _ target _); [|discriminate]. cbn [bind] in E.
        destruct (at_index _ target); [|discriminate]. cbn [bind] in E.
        destruct (memcpy _ _ _ _); [|discriminate]. cbn [bind] in E.
        injection E as _ <-. auto.
      - destruct (ensure _); [|discriminate]. cbn [bind] in A.
        destruct (reset_send_buffer_keeps_invariant _ _ _ _ K L A)
          as (K1 & L1 & _).
        split; [assumption|]. split; [assumption|].
        unfold reset_send_buffer in A.
        destruct (zero_lengths _ _ _); [|discriminate]. cbn [bind] in A.
        destruct (10000 <? _); injection A as <-; auto.
      - injection A as <-.
        destruct (swap_buffers_keeps_invariant c K L). auto. }
    destruct (IH c1 c' K1 L1 H) as (K' & L' & S' & W').
    split; [assumption|]. split; [assumption|]. split; congruence.
Qed.

Lemma at_index_middle {A : Type} (pre : list A) (x : A) (post : list A) :
  at_index (pre ++ x :: post) (Z.of_nat (length pre)) = Some x.
Proof.
  unfold at_index.
  destruct (Z.of_nat (length pre) <? 0) eqn:E; [apply Z.ltb_lt in E; lia|].
  rewrite Nat2Z.id, nth_error_app2 by lia.
  now rewrite Nat.sub_diag.
Qed.

Lemma send_buffer_sizes_whole (mid : list Z) :
  forall pre,
    Forall (fun len => len mod sizeof_send_type = 0) mid ->
    send_buffer_sizes (length mid) (Z.of_nat (length pre)) (pre ++ mid)
    = Some (map (fun len => to_int (len / sizeof_send_type)) mid).
Proof.
  induction mid as [|x mid IH]; intros pre F; [reflexivity|].
  inversion F as [|? ? Hx Hmid]; subst.
  cbn [send_buffer_sizes length].
  rewrite at_index_middle. cbn [bind]. rewrite Hx. cbn [Z.eqb ensure bind].
  replace (Z.of_nat (length pre) + 1) with (Z.of_nat (length (pre ++ [x])))
    by (rewrite length_app; simpl; lia).
  replace (pre ++ x :: mid) with ((pre ++ [x]) ++ mid)
    by (rewrite <- app_assoc; reflexivity).
  rewrite IH by assumption. reflexivity.
Qed.

Lemma send_buffer_sizes_ok (c : mpi_comm) (g : Z) :
  comm_ok c -> lengths_ok c ->
  send_buffer_sizes (Z.to_nat (_size c)) 0 (get2 (_sendlength c) g)
  = Some (map (fun len => to_int (len / sizeof_send_type))
              (get2 (_sendlength c) g)).
Proof.
  intros K L. rewrite <- (ok_sendlength c K g).
  apply (send_buffer_sizes_whole (get2 (_sendlength c) g) []).
  eapply Forall_impl; [|apply L]. intros len [_ H]. exact H.
Qed.

Lemma apply_send_op_some (c : mpi_comm) (op : send_op) :
  comm_ok c -> lengths_ok c -> send_op_ok (_size c) op ->
  exists c', apply_send_op c op = Some c'.
Proof.
  intros K L Hop. destruct op as [target data length|idx curtime|].
  - cbn [send_op_ok] in Hop. cbn [apply_send_op].
    destruct (at_index_some (get2 (_sendlength c) (current_group c)) target)
      as [old Hold]; [rewrite (ok_sendlength c K); lia|].
    rewrite (actual_send_spec c target data length old K L Hold).
    destruct (_ =? 0); cbn [bind]; eauto.
  - cbn [send_op_ok] in Hop. cbn [apply_send_op].
    assert (E : (idx =? 0) || (idx =? 1) = true)
      by (destruct Hop as [-> | ->]; reflexivity).
    rewrite E. cbn [ensure bind]. now apply reset_send_buffer_some.
  - cbn [apply_send_op]. eauto.
Qed.

Lemma run_send_ops_some (ops : list send_op) :
  forall c,
    comm_ok c -> lengths_ok c -> Forall (send_op_ok (_size c)) ops ->
    exists c', run_send_ops ops c = Some c'.
Proof.
  induction ops as [|op ops IH]; intros c K L Hops; cbn [run_send_ops].
  - eauto.
  - inversion Hops as [|? ? Hop Hrest]; subst.
    destruct (apply_send_op_some c op K L Hop) as [c1 A].
    rewrite A. cbn [bind].
    destruct (run_send_ops_keeps_invariant [op] c c1 K L) as (K1 & L1 & S1 & _).
    { cbn [run_send_ops]. rewrite A. reflexivity. }
    apply IH; [assumption|assumption|]. rewrite S1. exact Hrest.
Qed.

(** C5: invariant I1. From a communicator whose counters are all zero,
    any sequence of stages (to a peer of the group), resets (of group 0
    or 1) and swaps runs through, and afterwards every counter of both
    groups lies between 0 and [per_peer_capacity = floor(W/N/E)*E] and
    is a multiple of [E]; so the assertion on each drained length in
    [actual_flush] holds for either group. *)
Theorem send_lengths_invariant (c : mpi_comm) (ops : list send_op) :
  comm_ok c ->
  (forall g, Forall (fun len => len = 0) (get2 (_sendlength c) g)) ->
  Forall (send_op_ok (_size c)) ops ->
  let per_peer_capacity :=
    _send_window_size c / _size c / sizeof_send_type * sizeof_send_type in
  exists c',
    run_send_ops ops c = Some c'
    /\ _max_sendlength_per_machine c' = per_peer_capacity
    /\ (forall g i,
          g = 0 \/ g = 1 -> 0 <= i < _size c ->
          exists len,
            at_index (get2 (_sendlength c') g) i = Some len
            /\ 0 <= len <= per_peer_capacity
            /\ len mod sizeof_send_type = 0)
    /\ (forall g,
          g = 0 \/ g = 1 ->
          exists sizes,
            send_buffer_sizes (Z.to_nat (_size c')) 0
              (get2 (_sendlength c') g) = Some sizes).
Proof.
  intros K Z0 Hops capacity.
  assert (L : lengths_ok c).
  { intros g. destruct (capacity_facts c K) as (C0 & _).
    eapply Forall_impl; [|apply Z0]. intros len ->.
    split; [lia|reflexivity]. }
  destruct (run_send_ops_some ops c K L Hops) as [c' H].
  exists c'. split; [exact H|].
  destruct (run_send_ops_keeps_invariant ops c c' K L H) as (K' & L' & S' & W').
  assert (C' : _max_sendlength_per_machine c' = capacity).
  { rewrite (ok_capacity c' K'), S', W'. reflexivity. }
  split; [exact C'|]. split.
  - intros g i _ Hi.
    destruct (at_index_some (get2 (_sendlength c') g) i) as [len Hlen].
    { rewrite (ok_sendlength c' K'), S'. lia. }
    exists len. split; [exact Hlen|].
    pose proof (in_lengths_ok _ _ _ _ L' Hlen) as [B M].
    rewrite C' in B. auto.
  - intros g _. eexists. apply send_buffer_sizes_ok; assumption.
Qed.

Lemma send_lengths_invariant_witness :
  exists c',
    run_send_ops
      [Stage 1 (pointer_to [Byte.x2a]) 5; Swap; Reset 0 20000;
       Stage 0 (pointer_to [Byte.x2a]) 100]
      (construct 2 64 0) = Some c'
    /\ _max_sendlength_per_machine c'
       = 64 / 2 / sizeof_send_type * sizeof_send_type
    /\ exists len,
         at_index (get2 (_sendlength c') 1) 0 = Some len
         /\ 0 <= len <= 64 / 2 / sizeof_send_type * sizeof_send_type
         /\ len mod sizeof_send_type = 0.
Proof.
  destruct (send_lengths_invariant (construct 2 64 0)
              [Stage 1 (pointer_to [Byte.x2a]) 5; Swap; Reset 0 20000;
               Stage 0 (pointer_to [Byte.x2a]) 100])
    as (c' & H1 & H2 & H3 & _).
  - apply comm_ok_construct; unfold is_size_t, size_t_modulus; lia.
  - intros g. unfold get2. destruct (g =? 0); repeat constructor.
  - repeat constructor; simpl; lia.
  - exists c'. split; [exact H1|]. split; [exact H2|].
    apply (H3 1 0); [right; reflexivity|simpl; lia].
Defined.

(** * One exchange *)

Lemma at_index_map {A B : Type} (f : A -> B) (v : list A) (i : Z) :
  at_index (map f v) i = option_map f (at_index v i).
Proof.
  unfold at_index. destruct (i <? 0); [reflexivity|]. apply nth_error_map.
Qed.

Lemma exact_multiple (x : Z) : x mod 8 = 0 -> x / 8 * 8 = x.
Proof. intros H. pose proof (Z.div_mod x 8 ltac:(lia)). lia. Qed.

Lemma wrap_mod2 (z : Z) : wrap z mod 2 = z mod 2.
Proof.
  unfold wrap, size_t_modulus.
  replace (2 ^ 64) with (2 * 2 ^ 63) by reflexivity.
  rewrite Z.rem_mul_r by lia.
  rewrite (Z.mul_comm 2), Z.mod_add by lia.
  apply Z.mod_mod; lia.
Qed.

Lemma current_group_swap (c : mpi_comm) :
  current_group (snd (swap_buffers c)) = 1 - current_group c.
Proof.
  unfold current_group. cbn [swap_buffers snd set_cur_send_buffer
                             _cur_send_buffer].
  assert (E : forall x, Z.land x 1 = x mod 2)
    by (intros x; exact (Z.land_ones x 1 ltac:(lia))).
  rewrite !E, wrap_mod2.
  pose proof (Z.div_mod (_cur_send_buffer c) 2 ltac:(lia)).
  pose proof (Z.mod_pos_bound (_cur_send_buffer c) 2 ltac:(lia)).
  pose proof (Z.div_mod (_cur_send_buffer c + 1) 2 ltac:(lia)).
  pose proof (Z.mod_pos_bound (_cur_send_buffer c + 1) 2 ltac:(lia)).
  lia.
Qed.

Lemma comm_ok_set_receive_buffer (c : mpi_comm)
    (buffers : list receive_buffer_type) :
  comm_ok c -> length buffers = length (_receive_buffer c) ->
  comm_ok (set_receive_buffer c buffers).
Proof.
  intros [Hs Hw Hcap Hoff Hdt Hlen Hbase Hrb Hcur] H.
  constructor; cbn; try assumption. congruence.
Qed.

Lemma comm_ok_set_num_nodes (c : mpi_comm) (v : Z) :
  comm_ok c -> comm_ok (set_num_nodes_flushing_threads_done c v).
Proof.
  intros [Hs Hw Hcap Hoff Hdt Hlen Hbase Hrb Hcur].
  constructor; cbn; assumption.
Qed.

Lemma scatter_spec (receiveptr : list byte) (layout : list (Z * Z)) :
  forall i c,
    0 <= i ->
    i + Z.of_nat (length layout) <= Z.of_nat (length (_receive_buffer c)) ->
    exists buffers,
      scatter c i receiveptr layout = Some (set_receive_buffer c buffers)
      /\ length buffers = length (_receive_buffer c).
Proof.
  induction layout as [|[recv_buffer_offset recv_buffer_size] layout IH];
    intros i c Hi Hb.
  - exists (_receive_buffer c). split; [|reflexivity].
    destruct c; reflexivity.
  - cbn [length] in Hb. cbn [scatter].
    destruct (0 <? recv_buffer_size).
    + unfold insert_receive_buffer.
      destruct (at_index_some (_receive_buffer c) i ltac:(lia)) as [b ->].
      cbn [bind]. rewrite store_some by lia. cbn [bind].
      match goal with
      | |- context [set_receive_buffer c ?bs] =>
          destruct (IH (i + 1) (set_receive_buffer c bs) ltac:(lia))
            as (buffers & E & Hl);
            [cbn [set_receive_buffer _receive_buffer];
             rewrite set_nth_length; lia|]
      end.
      exists buffers. split; [exact E|].
      cbn [set_receive_buffer _receive_buffer] in Hl.
      now rewrite set_nth_length in Hl.
    + cbn [bind]. apply IH; lia.
Qed.

Lemma length_recv_buffer_offsets (sizes : list Z) :
  forall total, length (recv_buffer_offsets total sizes) = length sizes.
Proof.
  induction sizes as [|s sizes IH]; intros total; [reflexivity|].
  cbn [recv_buffer_offsets length]. now rewrite IH.
Qed.

Lemma length_receive_layout (runs : list (list byte)) (n : nat) :
  (length (combine (recv_buffer_offsets 0 (recv_buffer_sizes (firstn n runs)))
                   (recv_buffer_sizes (firstn n runs))) <= n)%nat.
Proof.
  rewrite length_combine, length_recv_buffer_offsets.
  unfold recv_buffer_sizes. rewrite length_map, length_firstn. lia.
Qed.

(** What the transport reads for a target whose count and displacement
    are what the counters and offsets say. *)
Lemma read_elements_whole (base : list byte) (offset count : Z) :
  0 <= offset -> offset mod 8 = 0 -> 0 <= count -> count mod 8 = 0 ->
  offset / 8 < 2 ^ 31 -> count / 8 < 2 ^ 31 ->
  read_elements base (to_int (offset / sizeof_send_type))
    (to_int (count / sizeof_send_type))
  = firstn (Z.to_nat count) (skipn (Z.to_nat offset) base).
Proof.
  intros O0 O8 C0 C8 Oi Ci. unfold read_elements, sizeof_send_type.
  pose proof (Z.div_pos offset 8 O0 ltac:(lia)).
  pose proof (Z.div_pos count 8 C0 ltac:(lia)).
  rewrite !to_int_small by lia.
  destruct (0 <=? offset / 8) eqn:E1; [|apply Z.leb_gt in E1; lia].
  destruct (0 <=? count / 8) eqn:E2; [|apply Z.leb_gt in E2; lia].
  cbn [andb].
  now rewrite (exact_multiple offset), (exact_multiple count) by assumption.
Qed.

Lemma nth_read_elements (base : list byte) (offsets : list Z) :
  forall sizes t,
    length offsets = length sizes ->
    nth t (map (fun '(offset, count) => read_elements base offset count)
               (combine offsets sizes)) []
    = read_elements base (nth t offsets 0) (nth t sizes 0).
Proof.
  induction offsets as [|o offsets IH]; intros [|s sizes] t H;
    simpl in H; try discriminate.
  - destruct t; reflexivity.
  - destruct t as [|t]; [reflexivity|]. cbn [combine map nth].
    apply IH. lia.
Qed.

Lemma all_zero_repeat (v : list Z) :
  Forall (fun len => len = 0) v -> v = repeat 0 (length v).
Proof.
  induction 1 as [|x v Hx Hv IH]; [reflexivity|].
  simpl. subst x. now f_equal.
Qed.

Lemma slot_length_at_index (c : mpi_comm) (target : Z) :
  comm_ok c -> 0 <= target < _size c ->
  at_index (get2 (_sendlength c) (current_group c)) target
  = Some (slot_length c target).
Proof.
  intros K H.
  destruct (at_index_some (get2 (_sendlength c) (current_group c)) target)
    as [len E]; [rewrite (ok_sendlength c K); lia|].
  rewrite E. f_equal. unfold slot_length. symmetry.
  now apply at_index_nth.
Qed.

(** With a window of fewer than [2^31] elements every count and every
    displacement handed to [MPI_Alltoallv] is the [int] it should be,
    and the run read for a target is what is staged for it. *)
Lemma sent_is_staged (c : mpi_comm) (target : Z) :
  comm_ok c -> lengths_ok c ->
  0 <= target < _size c ->
  _send_window_size c < 2 ^ 34 ->
  nth (Z.to_nat target)
      (map (fun '(offset, count) =>
              read_elements (get2 (_send_base c) (current_group c))
                offset count)
           (combine (_offset_by_datatype c)
              (map (fun len => to_int (len / sizeof_send_type))
                   (get2 (_sendlength c) (current_group c))))) []
  = staged c target.
Proof.
  intros K L Ht Hint.
  destruct (capacity_facts c K) as (C0 & C8 & CW).
  rewrite nth_read_elements
    by (rewrite (ok_offset_by_datatype c K), (ok_offset c K), !length_map,
          length_seq, (ok_sendlength c K); reflexivity).
  assert (At : at_index (_offset_by_datatype c) target
               = Some (to_int (target * _max_sendlength_per_machine c
                               / sizeof_send_type))).
  { rewrite (ok_offset_by_datatype c K), at_index_map.
    rewrite at_index_offset by (auto; lia). reflexivity. }
  rewrite (at_index_nth _ _ _ 0 At).
  pose proof (slot_length_at_index c target K Ht) as Sl.
  assert (As : at_index
                 (map (fun len => to_int (len / sizeof_send_type))
                      (get2 (_sendlength c) (current_group c))) target
               = Some (to_int (slot_length c target / sizeof_send_type))).
  { rewrite at_index_map, Sl. reflexivity. }
  rewrite (at_index_nth _ _ _ 0 As).
  pose proof (in_lengths_ok _ _ _ _ L Sl) as [[O0 O1] M].
  unfold sizeof_send_type in M.
  assert (B0 : 0 <= target * _max_sendlength_per_machine c) by nia.
  assert (B1 : target * _max_sendlength_per_machine c
               + _max_sendlength_per_machine c <= _send_window_size c)
    by nia.
  rewrite read_elements_whole; try assumption.
  - reflexivity.
  - rewrite Z.mul_mod, C8, Z.mul_0_r by lia. reflexivity.
  - apply Z.div_lt_upper_bound; lia.
  - apply Z.div_lt_upper_bound; lia.
Qed.

Lemma flush_spec (size W : Z) (c : mpi_comm) (env : flush_env) :
  sending_ok size W c -> 0 <= others_done env < size ->
  exists sent c',
    flush c env = Some (Some sent, c')
    /\ sending_ok size W c'
    /\ (W < 2 ^ 34 ->
        forall target, 0 <= target < size ->
          nth (Z.to_nat target) sent [] = staged c target)
    /\ get2 (_sendlength c') (current_group c') = repeat 0 (Z.to_nat size).
Proof.
  intros [K Hsz Hw L Hidle Hrun Hflag] Henv.
  destruct (capacity_facts c K) as (C0 & C8 & CW).
  pose proof (swap_buffers_keeps_invariant c K L) as [K1 L1].
  pose proof (current_group_swap c) as G1.
  pose proof (current_group_cases c) as Gc.
  unfold flush. rewrite Hsz.
  destruct (_num_nodes_flushing_threads_done c <? size) eqn:T;
    [|apply Z.ltb_ge in T; lia].
  set (c1 := snd (swap_buffers c)) in *.
  change (swap_buffers c) with (current_group c, c1).
  cbn iota beta. unfold actual_flush.
  change (_size c1) with (_size c).
  change (_sendlength c1) with (_sendlength c).
  change (_send_base c1) with (_send_base c).
  change (_offset_by_datatype c1) with (_offset_by_datatype c).
  rewrite (send_buffer_sizes_ok c (current_group c) K L). cbn [bind].
  cbv zeta.
  destruct (scatter_spec
              (received_block (firstn (Z.to_nat (_size c)) (recv_runs env)))
              (combine
                 (recv_buffer_offsets 0
                    (recv_buffer_sizes
                       (firstn (Z.to_nat (_size c)) (recv_runs env))))
                 (recv_buffer_sizes
                    (firstn (Z.to_nat (_size c)) (recv_runs env))))
              0 c1)
    as (buffers & -> & Hbl); [lia| |].
  { change (_receive_buffer c1) with (_receive_buffer c).
    rewrite (ok_receive_buffer c K).
    pose proof (length_receive_layout (recv_runs env) (Z.to_nat (_size c))).
    lia. }
  cbn [bind].
  set (c2 := set_receive_buffer c1 buffers) in *.
  assert (K2 : comm_ok c2) by (apply comm_ok_set_receive_buffer; assumption).
  assert (L2 : lengths_ok c2) by exact L1.
  destruct (reset_send_buffer_some c2 (current_group c) (curtime env) K2)
    as [c3 R].
  rewrite R. cbn [bind].
  destruct (reset_send_buffer_keeps_invariant c2 (current_group c)
              (curtime env) c3 K2 L2 R)
    as (K3 & L3 & Z3 & O3 & Cur3 & _ & _ & F3 & S3 & W3).
  change (_size c2) with (_size c) in *.
  change (_send_window_size c2) with (_send_window_size c) in *.
  change (_flushing_thread_done c2) with (_flushing_thread_done c) in *.
  change (_cur_send_buffer c2) with (_cur_send_buffer c1) in *.
  change (_sendlength c2) with (_sendlength c) in *.
  assert (G3 : current_group c3 = 1 - current_group c).
  { unfold current_group at 1. rewrite Cur3. exact G1. }
  rewrite F3, Hflag.
  eexists. eexists. split; [reflexivity|].
  assert (Zc : get2 (_sendlength c3) (1 - current_group c)
               = repeat 0 (Z.to_nat size)).
  { destruct (O3 (1 - current_group c)) as [E|E]; rewrite E.
    - rewrite Z3, Hsz. reflexivity.
    - unfold idle_group in Hidle. rewrite (all_zero_repeat _ Hidle).
      rewrite (ok_sendlength c K), Hsz. reflexivity. }
  split; [|split].
  - constructor.
    + apply comm_ok_set_num_nodes. exact K3.
    + cbn. congruence.
    + cbn. congruence.
    + exact L3.
    + unfold idle_group, current_group in *.
      cbn [set_num_nodes_flushing_threads_done _sendlength _cur_send_buffer].
      rewrite G3.
      replace (1 - (1 - Z.land (_cur_send_buffer c) 1))
        with (Z.land (_cur_send_buffer c) 1) by lia.
      rewrite Z3. apply Forall_forall. intros x Hx.
      now apply repeat_spec in Hx.
    + cbn. lia.
    + cbn. congruence.
  - intros Hint target Ht.
    apply (sent_is_staged c target K L); [lia|rewrite Hw; exact Hint].
  - unfold current_group in *.
    cbn [set_num_nodes_flushing_threads_done _sendlength _cur_send_buffer].
    rewrite G3. exact Zc.
Qed.

(** * The stream to one target *)

Lemma window_write_read {A : Type} (w D : list A) (off old : nat) :
  (off + old + length D <= length w)%nat ->
  firstn (old + length D)
         (skipn off (firstn (off + old) w ++ D
                     ++ skipn (off + old + length D) w))
  = firstn old (skipn off w) ++ D.
Proof.
  intros H.
  rewrite skipn_app, skipn_firstn_comm, length_firstn.
  replace (off + old - off)%nat with old by lia.
  replace (off - Nat.min (off + old) (length w))%nat with 0%nat by lia.
  cbn [skipn].
  rewrite firstn_app, length_firstn, length_skipn.
  replace (old + length D - Nat.min old (length w - off))%nat
    with (length D) by lia.
  rewrite firstn_app, Nat.sub_diag, firstn_all. cbn [firstn].
  rewrite app_nil_r.
  rewrite firstn_firstn. f_equal. f_equal. lia.
Qed.

Lemma staged_length (size W : Z) (c : mpi_comm) (target : Z) :
  sending_ok size W c -> 0 <= target < size ->
  length (staged c target) = Z.to_nat (slot_length c target).
Proof.
  intros [K Hsz Hw L Hidle Hrun Hflag] Ht.
  destruct (capacity_facts c K) as (C0 & C8 & CW).
  pose proof (slot_length_at_index c target K ltac:(lia)) as Sl.
  pose proof (in_lengths_ok _ _ _ _ L Sl) as [[O0 O1] _].
  unfold staged. rewrite length_firstn, length_skipn, (ok_send_base c K).
  assert (target * _max_sendlength_per_machine c + slot_length c target
          <= _send_window_size c) by nia.
  assert (0 <= target * _max_sendlength_per_machine c) by nia.
  lia.
Qed.

Lemma sending_ok_staged_into (size W : Z) (c : mpi_comm) (target : Z)
    (data : nat -> byte) (grant : Z) :
  sending_ok size W c -> 0 <= target < size ->
  0 <= grant -> grant mod 8 = 0 ->
  slot_length c target + grant <= _max_sendlength_per_machine c ->
  sending_ok size W
    (staged_into c target data (slot_length c target) grant)
  /\ staged (staged_into c target data (slot_length c target) grant) target
     = staged c target ++ map data (seq 0 (Z.to_nat grant))
  /\ slot_length (staged_into c target data (slot_length c target) grant)
       target = slot_length c target + grant.
Proof.
  intros S Ht G0 G8 Gc. pose proof S as [K Hsz Hw L Hidle Hrun Hflag].
  destruct (capacity_facts c K) as (C0 & C8 & CW).
  pose proof (slot_length_at_index c target K ltac:(lia)) as Sl.
  pose proof (in_lengths_ok _ _ _ _ L Sl) as [[O0 O1] O8].
  unfold sizeof_send_type in O8.
  pose proof (at_index_range _ _ _ Sl) as R.
  pose proof (current_group_cases c) as Gr.
  assert (Sn : slot_length
                 (staged_into c target data (slot_length c target) grant)
                 target = slot_length c target + grant).
  { unfold slot_length at 1, staged_into, current_group.
    cbn [set_send_base set_sendlength _sendlength _cur_send_buffer].
    rewrite get2_set2_same. apply at_index_nth.
    apply at_index_set_nth_same. exact R. }
  split; [|split; [|exact Sn]].
  - constructor.
    + apply comm_ok_staged_into; auto; lia.
    + exact Hsz.
    + exact Hw.
    + apply lengths_ok_staged_into; [assumption|].
      split; [lia|]. unfold sizeof_send_type.
      rewrite Z.add_mod, O8, G8 by lia. reflexivity.
    + unfold idle_group, staged_into, current_group in *.
      cbn [set_send_base set_sendlength _sendlength _cur_send_buffer].
      rewrite get2_set2_other by assumption. exact Hidle.
    + exact Hrun.
    + exact Hflag.
  - assert (Cg : current_group
                   (staged_into c target data (slot_length c target) grant)
                 = current_group c) by reflexivity.
    assert (Cm : _max_sendlength_per_machine
                   (staged_into c target data (slot_length c target) grant)
                 = _max_sendlength_per_machine c) by reflexivity.
    assert (Cb : get2 (_send_base
                         (staged_into c target data (slot_length c target)
                            grant)) (current_group c)
                 = firstn (Z.to_nat (target * _max_sendlength_per_machine c
                                     + slot_length c target))
                          (get2 (_send_base c) (current_group c))
                   ++ map data (seq 0 (Z.to_nat grant))
                   ++ skipn (Z.to_nat (target * _max_sendlength_per_machine c
                                       + slot_length c target + grant))
                            (get2 (_send_base c) (current_group c))).
    { unfold staged_into.
      cbn [set_send_base set_sendlength _send_base].
      apply get2_set2_same. }
    unfold staged. rewrite Sn, Cg, Cm, Cb.
    assert (B0 : 0 <= target * _max_sendlength_per_machine c) by nia.
    assert (B : target * _max_sendlength_per_machine c
                + slot_length c target + grant <= _send_window_size c) by nia.
    rewrite !Z2Nat.inj_add by lia.
    replace (Z.to_nat grant)
      with (length (map data (seq 0 (Z.to_nat grant)))) at 1 3
      by (rewrite length_map, length_seq; reflexivity).
    rewrite window_write_read; [reflexivity|].
    rewrite length_map, length_seq, (ok_send_base c K). lia.
Qed.

Lemma peer_flush_spec (size W : Z) (group : nat -> flush_env) (p : peer)
    (target : Z) :
  sending_ok size W (comm p) -> group_ok group size ->
  0 <= target < size ->
  exists p',
    peer_flush group p = Some p'
    /\ sending_ok size W (comm p')
    /\ (W < 2 ^ 34 -> stream p' target = stream p target)
    /\ slot_length (comm p') target = 0
    /\ (W < 2 ^ 34 -> runs_whole p target -> runs_whole p' target).
Proof.
  intros S Hg Ht.
  destruct (flush_spec size W (comm p) (group (exchanges p)) S (Hg _))
    as (sent & c' & F & S' & Hsent & Hzero).
  unfold peer_flush. rewrite F. cbn [bind].
  eexists. split; [reflexivity|].
  assert (Sl : slot_length c' target = 0).
  { unfold slot_length. rewrite Hzero.
    destruct (Nat.lt_ge_cases (Z.to_nat target) (Z.to_nat size)) as [H|H].
    - apply nth_repeat_lt. exact H.
    - apply nth_overflow. rewrite repeat_length. exact H. }
  cbn [comm]. split; [exact S'|].
  split; [|split; [exact Sl|]].
  - intros Hint. unfold stream, runs_to. cbn [comm wire].
    rewrite map_app, concat_app. cbn [map concat].
    rewrite Hsent by assumption.
    assert (E : staged c' target = [])
      by (unfold staged; rewrite Sl; reflexivity).
    rewrite E. now rewrite !app_nil_r.
  - unfold runs_whole, runs_to. cbn [wire]. intros Hint Hw.
    rewrite map_app. apply Forall_app. split; [exact Hw|].
    constructor; [|constructor]. rewrite Hsent by assumption.
    rewrite (staged_length size W) by assumption.
    destruct S as [K Hsz Hwin L _ _ _].
    pose proof (slot_length_at_index (comm p) target K ltac:(lia)) as A.
    pose proof (in_lengths_ok _ _ _ _ L A) as [[O0 O1] O8].
    destruct (capacity_facts (comm p) K) as (C0 & _ & CW).
    rewrite Z2Nat.id by lia. split; [exact O8|].
    unfold sizeof_send_type. apply Z.div_lt_upper_bound; [lia|].
    assert (_max_sendlength_per_machine (comm p) <= W) by nia. lia.
Qed.

(** * The loops of [send] *)

Lemma map_advance (ptr : nat -> byte) (k : Z) (b : nat) :
  forall s,
    map (advance ptr k) (seq s b) = map ptr (seq (Z.to_nat k + s) b).
Proof.
  induction b as [|b IH]; intros s; [reflexivity|].
  cbn [seq map]. rewrite IH, Nat.add_succ_r. reflexivity.
Qed.

Lemma map_seq_split (ptr : nat -> byte) (a b : nat) :
  map ptr (seq 0 (a + b))
  = map ptr (seq 0 a) ++ map (advance ptr (Z.of_nat a)) (seq 0 b).
Proof.
  rewrite seq_app, map_app, map_advance, Nat2Z.id, Nat.add_0_r.
  reflexivity.
Qed.

Lemma map_pointer_to (bs : list byte) :
  map (pointer_to bs) (seq 0 (length bs)) = bs.
Proof.
  unfold pointer_to. induction bs as [|b bs IH]; [reflexivity|].
  cbn [length seq map nth]. f_equal.
  rewrite <- seq_shift, map_map. exact IH.
Qed.

Lemma round_up_sub (n g : Z) :
  g mod 8 = 0 -> round_up (n - g) = round_up n - g.
Proof.
  intros H. unfold round_up, sizeof_send_type.
  pose proof (Z.div_mod g 8 ltac:(lia)) as E.
  replace (n - g + (8 - 1)) with (n + (8 - 1) + (- (g / 8)) * 8) by lia.
  rewrite Z.div_add by lia. lia.
Qed.

Lemma round_up_fixed (g n : Z) :
  g mod 8 = 0 -> n <= g <= round_up n -> g = round_up n.
Proof.
  intros H8 [H0 H1]. pose proof (round_up_spec n) as [R8 Rb].
  pose proof (Z.div_mod g 8 ltac:(lia)).
  pose proof (Z.div_mod (round_up n) 8 ltac:(lia)). lia.
Qed.

Lemma send_loop_done (group : nat -> flush_env) (fuel : nat) (p : peer)
    (target : Z) (ptr : nat -> byte) (n : Z) :
  n <= 0 -> send_loop group fuel p target ptr n = Returns p.
Proof.
  intros H. destruct fuel; cbn [send_loop];
    (destruct (0 <? n) eqn:E; [apply Z.ltb_lt in E; lia|reflexivity]).
Qed.

Lemma send_loop_step (group : nat -> flush_env) (fuel : nat) (p : peer)
    (target : Z) (ptr : nat -> byte) (n : Z) :
  0 < n ->
  send_loop group (S fuel) p target ptr n =
    and_then (lift (actual_send (comm p) target ptr n))
      (fun '(sent, c) =>
         and_then
           (if 0 <? wrap (n - sent)
            then lift (peer_flush group (set_comm p c))
            else Returns (set_comm p c))
           (fun p' =>
              send_loop group fuel p' target (advance ptr sent)
                (wrap (n - sent)))).
Proof.
  intros H. cbn [send_loop].
  destruct (0 <? n) eqn:E; [reflexivity|apply Z.ltb_ge in E; lia].
Qed.

Section Sender.

Variables (size W : Z) (group : nat -> flush_env) (target : Z).
Hypothesis group_fine : group_ok group size.
Hypothesis window_fits : size * 8 <= W.
Hypothesis target_fine : 0 <= target < size.

Lemma capacity_room (c : mpi_comm) :
  sending_ok size W c -> 8 <= _max_sendlength_per_machine c.
Proof.
  intros [K Hsz Hw _ _ _ _]. apply capacity_at_least_element; [exact K|].
  rewrite Hsz, Hw. exact window_fits.
Qed.

Lemma send_loop_room (m : nat) :
  forall n p ptr,
    (Z.to_nat n <= m)%nat ->
    0 < n <= size_t_modulus - 8 ->
    sending_ok size W (comm p) ->
    slot_length (comm p) target < _max_sendlength_per_machine (comm p) ->
    exists fuel p',
      (forall fuel', (fuel <= fuel')%nat ->
         send_loop group fuel' p target ptr n = Returns p')
      /\ sending_ok size W (comm p')
      /\ (W < 2 ^ 34 ->
          stream p' target
          = stream p target ++ map ptr (seq 0 (Z.to_nat (round_up n))))
      /\ (W < 2 ^ 34 -> runs_whole p target -> runs_whole p' target).
Proof.
  induction m as [|m IH]; intros n p ptr Hm Hn Sok Hroom; [lia|].
  pose proof Sok as [K Hsz Hw L Hidle Hrun Hflag].
  pose proof (slot_length_at_index (comm p) target K ltac:(lia)) as Sl.
  pose proof (in_lengths_ok _ _ _ _ L Sl) as Ho.
  pose proof (grant_of_facts (comm p) _ n K Ho) as (G0 & G8 & Gc & Gp).
  pose proof Ho as [[O0 O1] O8]. unfold sizeof_send_type in O8.
  destruct (capacity_facts (comm p) K) as (C0 & C8 & CW).
  pose proof (round_up_spec n) as [R8 Rb].
  rewrite get_padded_length_exact in Gp by lia.
  set (g := grant_of (comm p) (slot_length (comm p) target) n) in *.
  assert (Gpos : 0 < g).
  { assert (g <> 0); [|lia]. intros E.
    unfold g, grant_of in E. rewrite get_padded_length_exact in E by lia.
    assert (D : (_max_sendlength_per_machine (comm p)
                 - slot_length (comm p) target) mod 8 = 0)
      by (rewrite Zminus_mod, C8, O8; reflexivity).
    pose proof (Z.div_mod (_max_sendlength_per_machine (comm p)
                           - slot_length (comm p) target) 8 ltac:(lia)).
    lia. }
  destruct (sending_ok_staged_into size W (comm p) target ptr g Sok
              target_fine G0 G8 Gc) as (S1 & St1 & Sl1).
  set (c1 := staged_into (comm p) target ptr (slot_length (comm p) target) g)
    in *.
  assert (Step : forall fuel,
            send_loop group (S fuel) p target ptr n =
              and_then
                (if 0 <? wrap (n - Z.min g n)
                 then lift (peer_flush group (set_comm p c1))
                 else Returns (set_comm p c1))
                (fun p' =>
                   send_loop group fuel p' target (advance ptr (Z.min g n))
                     (wrap (n - Z.min g n)))).
  { intros fuel. rewrite send_loop_step by lia.
    rewrite (actual_send_spec _ _ _ _ _ K L Sl). fold g.
    destruct (g =? 0) eqn:E; [apply Z.eqb_eq in E; lia|]. reflexivity. }
  destruct (Z_le_gt_dec n g) as [Hfit|Hmore].
  - (* the rest of the block fits: this is the last round *)
    assert (Eg : g = round_up n) by (apply round_up_fixed; auto; lia).
    exists 1%nat, (set_comm p c1).
    split; [|split; [exact S1|split]].
    + intros [|fuel'] Hf; [lia|]. rewrite Step.
      rewrite Z.min_r by lia. rewrite Z.sub_diag.
      change (0 <? wrap 0) with false. cbn [and_then].
      apply send_loop_done. reflexivity.
    + intros _. unfold stream, runs_to. cbn [comm set_comm wire].
      rewrite St1, Eg, app_assoc. reflexivity.
    + intros _ Hr. exact Hr.
  - (* the slot is filled up; flush and go on with what is left *)
    assert (Nw : wrap (n - g) = n - g)
      by (apply wrap_small; unfold is_size_t; lia).
    destruct (peer_flush_spec size W group (set_comm p c1) target S1
                group_fine target_fine)
      as (p2 & F2 & S2 & St2 & Sl2 & Rw2).
    pose proof (capacity_room (comm p2) S2) as Room2.
    destruct (IH (n - g) p2 (advance ptr g)) as (fuel & p' & Hrun' & S' & St' & Rw');
      try lia; try assumption.
    exists (S fuel), p'.
    split; [|split; [exact S'|split]].
    + intros [|fuel'] Hf; [lia|]. rewrite Step.
      rewrite Z.min_l by lia. rewrite Nw.
      destruct (0 <? n - g) eqn:E; [|apply Z.ltb_ge in E; lia].
      rewrite F2. cbn [lift and_then]. apply Hrun'. lia.
    + intros Hint. rewrite (St' Hint), (St2 Hint).
      unfold stream, runs_to. cbn [comm set_comm wire].
      rewrite St1, <- !app_assoc. f_equal. f_equal.
      rewrite round_up_sub by assumption.
      replace (Z.to_nat (round_up n))
        with (Z.to_nat g + Z.to_nat (round_up n - g))%nat by lia.
      rewrite map_seq_split, Z2Nat.id by lia. reflexivity.
    + intros Hint Hr. apply (Rw' Hint), (Rw2 Hint). exact Hr.
Qed.

Lemma send_loop_spec (n : Z) (p : peer) (ptr : nat -> byte) :
  0 < n <= size_t_modulus - 8 ->
  sending_ok size W (comm p) ->
  exists fuel p',
    (forall fuel', (fuel <= fuel')%nat ->
       send_loop group fuel' p target ptr n = Returns p')
    /\ sending_ok size W (comm p')
    /\ (W < 2 ^ 34 ->
        stream p' target
        = stream p target ++ map ptr (seq 0 (Z.to_nat (round_up n))))
    /\ (W < 2 ^ 34 -> runs_whole p target -> runs_whole p' target).
Proof.
  intros Hn Sok.
  pose proof Sok as [K Hsz Hw L Hidle Hrun Hflag].
  pose proof (slot_length_at_index (comm p) target K ltac:(lia)) as Sl.
  pose proof (in_lengths_ok _ _ _ _ L Sl) as [[O0 O1] O8].
  destruct (Z_lt_ge_dec (slot_length (comm p) target)
              (_max_sendlength_per_machine (comm p))) as [Hroom|Hfull].
  { apply (send_loop_room (Z.to_nat n)); auto. }
  (* the slot is full: the stage returns 0 and the send path flushes *)
  assert (G : grant_of (comm p) (slot_length (comm p) target) n = 0).
  { unfold grant_of. pose proof (get_padded_length_range n) as [P0 _]. lia. }
  destruct (peer_flush_spec size W group p target Sok group_fine target_fine)
    as (p2 & F2 & S2 & St2 & Sl2 & Rw2).
  pose proof (capacity_room (comm p2) S2) as Room2.
  destruct (send_loop_room (Z.to_nat n) n p2 ptr) as (fuel & p' & Hrun' & S' & St' & Rw');
    try lia; try assumption.
  exists (S fuel), p'.
  split; [|split; [exact S'|split]].
  - intros [|fuel'] Hf; [lia|]. rewrite send_loop_step by lia.
    rewrite (actual_send_spec _ _ _ _ _ K L Sl), G.
    change (0 =? 0) with true. cbn [lift and_then].
    rewrite Z.sub_0_r, wrap_small by (unfold is_size_t; lia).
    destruct (0 <? n) eqn:E; [|apply Z.ltb_ge in E; lia].
    replace (set_comm p (comm p)) with p by (destruct p; reflexivity).
    rewrite F2. cbn [lift and_then].
    change (advance ptr 0) with ptr. apply Hrun'. lia.
  - intros Hint. rewrite (St' Hint), (St2 Hint). reflexivity.
  - intros Hint Hr. apply (Rw' Hint), (Rw2 Hint). exact Hr.
Qed.

Lemma send_spec (p : peer) (data : nat -> byte) (length : Z) :
  0 < length <= size_t_modulus - 8 ->
  sending_ok size W (comm p) ->
  exists fuel p',
    (forall fuel', (fuel <= fuel')%nat ->
       send group fuel' p target data length = Returns p')
    /\ sending_ok size W (comm p')
    /\ (W < 2 ^ 34 ->
        stream p' target = stream p target ++ frame (data, length))
    /\ (W < 2 ^ 34 -> runs_whole p target -> runs_whole p' target).
Proof.
  intros Hn Sok.
  destruct (send_loop_spec sizeof_comm_header p
              (pointer_to (header_bytes length)))
    as (fuel1 & p1 & Run1 & S1 & St1 & Rw1);
    [unfold sizeof_comm_header, size_t_modulus; lia|exact Sok|].
  destruct (send_loop_spec length p1 data Hn S1)
    as (fuel2 & p2 & Run2 & S2 & St2 & Rw2).
  exists (Nat.max fuel1 fuel2), p2.
  split; [|split; [exact S2|split]].
  - intros fuel' Hf. unfold send.
    rewrite (so_size _ _ _ Sok).
    destruct (0 <=? target) eqn:E1; [|apply Z.leb_gt in E1; lia].
    destruct (target <? size) eqn:E2; [|apply Z.ltb_ge in E2; lia].
    destruct (0 <? length) eqn:E3; [|apply Z.ltb_ge in E3; lia].
    cbn [andb ensure lift and_then].
    rewrite Run1 by lia. cbn [and_then]. apply Run2. lia.
  - intros Hint. rewrite (St2 Hint), (St1 Hint), <- app_assoc. unfold frame.
    rewrite <- (map_pointer_to (header_bytes length)) at 2.
    reflexivity.
  - intros Hint Hr. apply (Rw2 Hint), (Rw1 Hint). exact Hr.
Qed.

Lemma send_all_spec (messages : list ((nat -> byte) * Z)) :
  forall p,
    Forall (fun m => 0 < snd m <= size_t_modulus - 8) messages ->
    sending_ok size W (comm p) ->
    exists fuel p',
      (forall fuel', (fuel <= fuel')%nat ->
         send_all group fuel' p target messages = Returns p')
      /\ sending_ok size W (comm p')
      /\ (W < 2 ^ 34 ->
          stream p' target
          = stream p target ++ concat (map frame messages))
      /\ (W < 2 ^ 34 -> runs_whole p target -> runs_whole p' target).
Proof.
  induction messages as [|[data length] messages IH]; intros p Hm Sok.
  - exists 0%nat, p. cbn [send_all map concat]. rewrite app_nil_r. auto.
  - inversion Hm as [|? ? Hn Hrest]; subst. cbn [snd] in Hn.
    destruct (send_spec p data length Hn Sok)
      as (fuel1 & p1 & Run1 & S1 & St1 & Rw1).
    destruct (IH p1 Hrest S1) as (fuel2 & p2 & Run2 & S2 & St2 & Rw2).
    exists (Nat.max fuel1 fuel2), p2.
    split; [|split; [exact S2|split]].
    + intros fuel' Hf. cbn [send_all].
      rewrite Run1 by lia. cbn [and_then]. apply Run2. lia.
    + intros Hint. rewrite (St2 Hint), (St1 Hint). cbn [map concat].
      now rewrite app_assoc.
    + intros Hint Hr. apply (Rw2 Hint), (Rw1 Hint). exact Hr.
Qed.

Lemma send_loop_outcome (fuel : nat) :
  forall n p ptr,
    0 < n <= size_t_modulus - 8 ->
    sending_ok size W (comm p) ->
    send_loop group fuel p target ptr n = Spins
    \/ exists p',
         send_loop group fuel p target ptr n = Returns p'
         /\ sending_ok size W (comm p').
Proof.
  induction fuel as [|fuel IH]; intros n p ptr Hn Sok.
  - left. cbn [send_loop].
    destruct (0 <? n) eqn:E; [reflexivity|apply Z.ltb_ge in E; lia].
  - pose proof Sok as [K Hsz Hw L Hidle Hrun Hflag].
    pose proof (slot_length_at_index (comm p) target K ltac:(lia)) as Sl.
    pose proof (in_lengths_ok _ _ _ _ L Sl) as Ho.
    pose proof (grant_of_facts (comm p) _ n K Ho) as (G0 & G8 & Gc & Gp).
    rewrite send_loop_step by lia.
    rewrite (actual_send_spec _ _ _ _ _ K L Sl).
    set (g := grant_of (comm p) (slot_length (comm p) target) n) in *.
    destruct (g =? 0) eqn:E; cbn [lift and_then].
    + rewrite Z.sub_0_r, wrap_small by (unfold is_size_t; lia).
      destruct (0 <? n) eqn:E0; [|apply Z.ltb_ge in E0; lia].
      replace (set_comm p (comm p)) with p by (destruct p; reflexivity).
      destruct (peer_flush_spec size W group p target Sok group_fine
                  target_fine) as (p2 & F2 & S2 & _).
      rewrite F2. cbn [lift and_then]. apply IH; assumption.
    + apply Z.eqb_neq in E.
      destruct (sending_ok_staged_into size W (comm p) target ptr g Sok
                  target_fine G0 G8 Gc) as (S1 & _).
      rewrite wrap_small by (unfold is_size_t; lia).
      destruct (0 <? n - Z.min g n) eqn:E0.
      * apply Z.ltb_lt in E0.
        destruct (peer_flush_spec size W group
                    (set_comm p
                       (staged_into (comm p) target ptr
                          (slot_length (comm p) target) g))
                    target S1 group_fine target_fine)
          as (p2 & F2 & S2 & _).
        rewrite F2. cbn [lift and_then]. apply IH; [lia|assumption].
      * apply Z.ltb_ge in E0. cbn [and_then].
        rewrite send_loop_done by lia. right. eauto.
Qed.

Lemma send_loop_spins (fuel : nat) :
  forall n p ptr,
    0 < n < size_t_modulus -> get_padded_length n = 0 ->
    sending_ok size W (comm p) ->
    send_loop group fuel p target ptr n = Spins.
Proof.
  induction fuel as [|fuel IH]; intros n p ptr Hn Hp Sok.
  - cbn [send_loop].
    destruct (0 <? n) eqn:E; [reflexivity|apply Z.ltb_ge in E; lia].
  - pose proof Sok as [K Hsz Hw L Hidle Hrun Hflag].
    pose proof (slot_length_at_index (comm p) target K ltac:(lia)) as Sl.
    pose proof (in_lengths_ok _ _ _ _ L Sl) as [[O0 O1] O8].
    rewrite send_loop_step by lia.
    rewrite (actual_send_spec _ _ _ _ _ K L Sl).
    assert (G : grant_of (comm p) (slot_length (comm p) target) n = 0)
      by (unfold grant_of; rewrite Hp; lia).
    rewrite G. change (0 =? 0) with true. cbn [lift and_then].
    rewrite Z.sub_0_r, wrap_small by (unfold is_size_t; lia).
    destruct (0 <? n) eqn:E0; [|apply Z.ltb_ge in E0; lia].
    replace (set_comm p (comm p)) with p by (destruct p; reflexivity).
    destruct (peer_flush_spec size W group p target Sok group_fine
                target_fine) as (p2 & F2 & S2 & _).
    rewrite F2. cbn [lift and_then]. apply IH; assumption.
Qed.

Lemma send_spins (fuel : nat) (p : peer) (data : nat -> byte) (length : Z) :
  0 < length < size_t_modulus -> get_padded_length length = 0 ->
  sending_ok size W (comm p) ->
  send group fuel p target data length = Spins.
Proof.
  intros Hn Hp Sok. unfold send.
  rewrite (so_size _ _ _ Sok).
  destruct (0 <=? target) eqn:E1; [|apply Z.leb_gt in E1; lia].
  destruct (target <? size) eqn:E2; [|apply Z.ltb_ge in E2; lia].
  destruct (0 <? length) eqn:E3; [|apply Z.ltb_ge in E3; lia].
  cbn [andb ensure lift and_then].
  destruct (send_loop_outcome fuel sizeof_comm_header p
              (pointer_to (header_bytes length)))
    as [-> | (p1 & -> & S1)];
    [unfold sizeof_comm_header, size_t_modulus; lia|exact Sok|reflexivity|].
  cbn [and_then]. apply send_loop_spins; assumption.
Qed.

Lemma stage_after_flush (q : peer) (ptr : nat -> byte) (n : Z) :
  sending_ok size W (comm q) -> 0 < n <= size_t_modulus - 8 ->
  exists q' sent c',
    peer_flush group q = Some q'
    /\ actual_send (comm q') target ptr n = Some (sent, c')
    /\ 0 < sent.
Proof.
  intros Sok Hn.
  destruct (peer_flush_spec size W group q target Sok group_fine target_fine)
    as (q' & F & S' & _ & Sl0 & _).
  pose proof S' as [K Hsz Hw L Hidle Hrun Hflag].
  pose proof (slot_length_at_index (comm q') target K ltac:(lia)) as Sl.
  pose proof (capacity_room (comm q') S') as Room.
  pose proof (round_up_spec n) as [R8 Rb].
  exists q'. rewrite (actual_send_spec _ _ _ _ _ K L Sl).
  assert (G : 8 <= grant_of (comm q') (slot_length (comm q') target) n).
  { unfold grant_of. rewrite get_padded_length_exact, Sl0 by lia.
    assert (8 <= round_up n); [|lia].
    pose proof (Z.div_mod (round_up n) 8 ltac:(lia)). lia. }
  destruct (_ =? 0) eqn:E; [apply Z.eqb_eq in E; lia|].
  eexists. eexists. split; [exact F|]. split; [reflexivity|]. lia.
Qed.

End Sender.

Lemma sending_ok_construct (size W now : Z) :
  0 < size -> is_size_t W -> sending_ok size W (construct size W now).
Proof.
  intros Hs Hw. constructor.
  - now apply comm_ok_construct.
  - reflexivity.
  - reflexivity.
  - now apply lengths_ok_construct.
  - cbn [construct _sendlength]. unfold get2.
    destruct (idle_group _ =? 0); cbn [fst snd];
      apply Forall_forall; intros x Hx; now apply repeat_spec in Hx.
  - cbn. exact Hs.
  - reflexivity.
Qed.

(** C3, as the code has it. With [W >= N*E], a target in range, every
    flush taking place (the flushing threads of the group not all
    done), and [0 < length <= 2^64 - 8], a call to [send] made between
    two operations of the sending thread returns. On the way, a stage
    that returns 0 is followed by a flush and a retry with the same
    pointer and count, and the stage that follows a flush consumes at
    least one byte. *)
Theorem send_terminates (size W : Z) (group : nat -> flush_env)
    (target : Z) (p : peer) (data : nat -> byte) (length : Z) :
  group_ok group size ->
  size * sizeof_send_type <= W ->
  0 <= target < size ->
  sending_ok size W (comm p) ->
  0 < length <= size_t_modulus - 8 ->
  (exists fuel p',
     (forall fuel', (fuel <= fuel')%nat ->
        send group fuel' p target data length = Returns p')
     /\ sending_ok size W (comm p'))
  /\ (forall fuel q ptr n c',
        0 < n < size_t_modulus ->
        actual_send (comm q) target ptr n = Some (0, c') ->
        send_loop group (S fuel) q target ptr n =
          and_then (lift (peer_flush group (set_comm q c')))
            (fun q' => send_loop group fuel q' target ptr n))
  /\ (forall q ptr n,
        sending_ok size W (comm q) -> 0 < n <= size_t_modulus - 8 ->
        exists q' sent c',
          peer_flush group q = Some q'
          /\ actual_send (comm q') target ptr n = Some (sent, c')
          /\ 0 < sent).
Proof.
  intros Hg Hw Ht Sok Hn. unfold sizeof_send_type in Hw.
  split; [|split].
  - destruct (send_spec size W group target Hg Hw Ht p data length Hn Sok)
      as (fuel & p' & Run & S' & _).
    exists fuel, p'. auto.
  - intros fuel q ptr n c' Hq A.
    rewrite send_loop_step by lia. rewrite A. cbn [lift and_then].
    rewrite Z.sub_0_r, wrap_small by (unfold is_size_t; lia).
    destruct (0 <? n) eqn:E; [reflexivity|apply Z.ltb_ge in E; lia].
  - intros q ptr n Sq Hq.
    apply (stage_after_flush size W group target Hg Hw Ht q ptr n Sq Hq).
Qed.

Lemma send_terminates_witness :
  exists fuel p',
    (forall fuel', (fuel <= fuel')%nat ->
       send quiet_group fuel' (fresh_peer 2 64 0) 1
            (pointer_to [Byte.x2a]) 40 = Returns p')
    /\ sending_ok 2 64 (comm p').
Proof.
  destruct (send_terminates 2 64 quiet_group 1 (fresh_peer 2 64 0)
              (pointer_to [Byte.x2a]) 40) as [H _].
  - intros k. simpl. lia.
  - unfold sizeof_send_type. lia.
  - lia.
  - apply sending_ok_construct; unfold is_size_t, size_t_modulus; lia.
  - unfold size_t_modulus. lia.
  - exact H.
Defined.

(** C3 as stated fails for the seven largest lengths: with two peers, a
    64-byte window and every flush taking place, [send] of [2^64 - 1]
    bytes to peer 1 is still looping whatever the number of rounds it
    is given, because each payload stage is granted 0 bytes. *)
Lemma send_never_returns_on_wrapping_length :
  2 * sizeof_send_type <= 64
  /\ 0 < 2 ^ 64 - 1
  /\ forall fuel,
       send quiet_group fuel (fresh_peer 2 64 0) 1 (pointer_to [Byte.x2a])
            (2 ^ 64 - 1) = Spins.
Proof.
  split; [unfold sizeof_send_type; lia|]. split; [lia|].
  intros fuel. apply (send_spins 2 64).
  - intros k. simpl. lia.
  - lia.
  - unfold size_t_modulus. lia.
  - reflexivity.
  - apply sending_ok_construct; unfold is_size_t, size_t_modulus; lia.
Qed.

(** * The receiving side *)

Lemma set_receive_buffer_same (c : mpi_comm) :
  set_receive_buffer c (_receive_buffer c) = c.
Proof. destruct c; reflexivity. Qed.

Lemma deliver_feed (runs : list (list byte)) :
  forall c source curbuf,
    at_index (_receive_buffer c) source = Some curbuf ->
    deliver c source runs
    = Some (set_receive_buffer c
              (set_nth (Z.to_nat source) (_receive_buffer c)
                 (feed curbuf runs))).
Proof.
  induction runs as [|run runs IH]; intros c source curbuf Hc.
  - cbn [deliver feed]. rewrite set_nth_same.
    + now rewrite set_receive_buffer_same.
    + unfold at_index in Hc. destruct (source <? 0); [discriminate|]. exact Hc.
  - pose proof (at_index_range _ _ _ Hc) as R.
    cbn [deliver feed].
    destruct (0 <? Z.of_nat (length run) / sizeof_send_type).
    + unfold insert_receive_buffer. rewrite Hc. cbn [bind].
      rewrite store_some by exact R. cbn [bind].
      rewrite (IH _ source
                 (insert_bytes curbuf run
                    (Z.of_nat (length run) / sizeof_send_type
                     * sizeof_send_type))).
      * cbn [set_receive_buffer _receive_buffer].
        now rewrite set_nth_twice.
      * cbn [set_receive_buffer _receive_buffer].
        now apply at_index_set_nth_same.
    + cbn [bind]. now apply IH.
Qed.

Lemma whole_run_cases (run : list byte) :
  Z.of_nat (length run) mod sizeof_send_type = 0 ->
  (run = [] /\ (0 <? Z.of_nat (length run) / sizeof_send_type) = false)
  \/ (8 <= Z.of_nat (length run)
      /\ (0 <? Z.of_nat (length run) / sizeof_send_type) = true
      /\ Z.of_nat (length run) / sizeof_send_type * sizeof_send_type
         = Z.of_nat (length run)).
Proof.
  unfold sizeof_send_type. intros H.
  pose proof (Z.div_mod (Z.of_nat (length run)) 8 ltac:(lia)) as E.
  destruct run as [|b run].
  - left. split; reflexivity.
  - right. cbn [length] in *.
    assert (0 < Z.of_nat (S (length run)) / 8) by lia.
    split; [lia|]. split; [apply Z.ltb_lt; assumption|lia].
Qed.

Lemma feed_loaded (runs : list (list byte)) :
  forall len rest,
    len <> 0 ->
    Forall (fun run => Z.of_nat (length run) mod sizeof_send_type = 0) runs ->
    Z.of_nat (length rest) + Z.of_nat (length (concat runs))
      < size_t_modulus ->
    feed (loaded len rest) runs = loaded len (rest ++ concat runs).
Proof.
  induction runs as [|run runs IH]; intros len rest Hlen Hw Hb.
  - cbn [feed concat]. now rewrite app_nil_r.
  - inversion Hw as [|? ? Hrun Hruns]; subst.
    cbn [concat] in Hb. rewrite length_app in Hb.
    cbn [feed concat].
    destruct (whole_run_cases run Hrun) as [[-> ->]|(H8 & -> & ->)].
    + cbn [app]. apply IH; auto.
    + assert (E : insert_bytes (loaded len rest) run (Z.of_nat (length run))
                  = loaded len (rest ++ run)).
      { unfold insert_bytes. rewrite read_header_idle by (left; exact Hlen).
        unfold loaded, sputn. fields.
        rewrite Nat2Z.id, firstn_all, length_app.
        rewrite wrap_small by (unfold is_size_t; lia).
        f_equal. lia. }
      rewrite E, IH; auto.
      * now rewrite <- app_assoc.
      * rewrite length_app. lia.
Qed.

Lemma feed_nothing (runs : list (list byte)) :
  forall curbuf,
    Forall (fun run => Z.of_nat (length run) mod sizeof_send_type = 0) runs ->
    concat runs = [] -> feed curbuf runs = curbuf.
Proof.
  induction runs as [|run runs IH]; intros curbuf Hw Hc; [reflexivity|].
  inversion Hw as [|? ? Hrun Hruns]; subst.
  cbn [concat] in Hc. apply app_eq_nil in Hc. destruct Hc as [-> Hc].
  cbn [feed]. cbn. now apply IH.
Qed.

Lemma header_round_trip (len : Z) :
  is_size_t len -> header_length (header_bytes len) = len.
Proof.
  intros H. unfold header_length, header_bytes.
  rewrite le_combine_split. apply Z.mod_small. exact H.
Qed.

Lemma feed_empty (runs : list (list byte)) :
  forall len rest,
    0 < len <= size_t_modulus - 8 ->
    Forall (fun run => Z.of_nat (length run) mod sizeof_send_type = 0) runs ->
    concat runs = header_bytes len ++ rest ->
    Z.of_nat (length (concat runs)) < size_t_modulus ->
    feed empty_receive_buffer runs = loaded len rest.
Proof.
  induction runs as [|run runs IH]; intros len rest Hlen Hw Hc Hb.
  - cbn [concat] in Hc. discriminate Hc.
  - inversion Hw as [|? ? Hrun Hruns]; subst.
    cbn [feed].
    destruct (whole_run_cases run Hrun) as [[-> ->]|(H8 & -> & ->)].
    + apply IH; auto.
    + cbn [concat] in Hc, Hb. rewrite length_app in Hb.
      assert (Hh : firstn 8 run = header_bytes len).
      { assert (E : firstn 8 (run ++ concat runs)
                    = firstn 8 (header_bytes len ++ rest)) by now rewrite Hc.
        rewrite !firstn_app in E.
        unfold header_bytes in E at 2. rewrite length_le_split in E.
        replace (8 - length run)%nat with 0%nat in E by lia.
        rewrite Nat.sub_diag in E. rewrite !firstn_O in E.
        rewrite !app_nil_r in E. rewrite E.
        apply firstn_all2. unfold header_bytes.
        rewrite length_le_split. lia. }
      assert (Hr : skipn 8 run ++ concat runs = rest).
      { assert (E : skipn 8 (run ++ concat runs)
                    = skipn 8 (header_bytes len ++ rest)) by now rewrite Hc.
        rewrite !skipn_app in E.
        unfold header_bytes in E at 2. rewrite length_le_split in E.
        replace (8 - length run)%nat with 0%nat in E by lia.
        rewrite Nat.sub_diag in E. rewrite !skipn_O in E.
        rewrite E. unfold header_bytes.
        rewrite skipn_all2 by (rewrite length_le_split; lia).
        reflexivity. }
      assert (E : insert_bytes empty_receive_buffer run
                    (Z.of_nat (length run))
                  = loaded len (skipn 8 run)).
      { unfold insert_bytes, empty_receive_buffer, sputn. fields.
        rewrite Nat2Z.id, firstn_all. cbn [app].
        rewrite (wrap_small (0 + Z.of_nat (length run)))
          by (unfold is_size_t; lia).
        rewrite read_header_fires by (fields; lia). fields.
        rewrite Hh, header_round_trip by (unfold is_size_t; lia).
        rewrite get_padded_length_exact by lia.
        rewrite wrap_small by (unfold is_size_t; lia).
        unfold loaded. rewrite length_skipn. f_equal. lia. }
      rewrite E, feed_loaded; auto; try lia.
      * now rewrite Hr.
      * rewrite length_skipn. lia.
Qed.

Lemma firstn_exact {A : Type} (n : nat) (l1 l2 : list A) :
  length l1 = n -> firstn n (l1 ++ l2) = l1.
Proof.
  intros <-. rewrite firstn_app, Nat.sub_diag, firstn_O, app_nil_r.
  apply firstn_all.
Qed.

Lemma skipn_exact {A : Type} (n : nat) (l1 l2 : list A) :
  length l1 = n -> skipn n (l1 ++ l2) = l2.
Proof.
  intros <-. rewrite skipn_app, Nat.sub_diag, skipn_O, skipn_all.
  reflexivity.
Qed.

Lemma length_padded_block (data : nat -> byte) (len : Z) :
  length (map data (seq 0 (Z.to_nat (round_up len)))) = Z.to_nat (round_up len).
Proof. now rewrite length_map, length_seq. Qed.

Lemma frame_cons (data : nat -> byte) (len : Z)
    (messages : list ((nat -> byte) * Z)) :
  concat (map frame ((data, len) :: messages))
  = header_bytes len
    ++ (map data (seq 0 (Z.to_nat (round_up len)))
        ++ concat (map frame messages)).
Proof. cbn [map concat frame]. now rewrite <- app_assoc. Qed.

Lemma take_message_loaded (data : nat -> byte) (len : Z) (tail : list byte) :
  0 < len <= size_t_modulus - 8 ->
  Z.of_nat (length (map data (seq 0 (Z.to_nat (round_up len))) ++ tail))
    < size_t_modulus ->
  take_message (loaded len (map data (seq 0 (Z.to_nat (round_up len))) ++ tail))
  = (Some (map data (seq 0 (Z.to_nat (round_up len))), len),
     read_header
       {| buflen := Z.of_nat (length tail);
          buffer := tail;
          next_message_length := 0;
          padded_next_message_length := 0 |}).
Proof.
  intros Hlen Hb. pose proof (round_up_spec len) as [R8 Rb].
  pose proof (length_padded_block data len) as Lp.
  rewrite length_app, Lp in Hb.
  rewrite take_message_some; unfold loaded; fields;
    [|rewrite length_app, Lp; lia].
  rewrite (firstn_exact _ _ _ Lp), (skipn_exact _ _ _ Lp).
  rewrite length_app, Lp.
  rewrite wrap_small by (unfold is_size_t; lia).
  do 3 f_equal. lia.
Qed.

Lemma drain_loaded (messages : list ((nat -> byte) * Z)) :
  forall c source data len,
    at_index (_receive_buffer c) source
    = Some (loaded len (map data (seq 0 (Z.to_nat (round_up len)))
                        ++ concat (map frame messages))) ->
    0 < len <= size_t_modulus - 8 ->
    Forall (fun m => 0 < snd m <= size_t_modulus - 8) messages ->
    Z.of_nat (length (map data (seq 0 (Z.to_nat (round_up len)))
                      ++ concat (map frame messages))) < size_t_modulus ->
    exists c',
      (forall fuel, (length messages + 2 <= fuel)%nat ->
         drain_loop fuel c source
         = Returns (delivery (data, len) :: map delivery messages, c'))
      /\ at_index (_receive_buffer c') source = Some empty_receive_buffer.
Proof.
  induction messages as [|[data' len'] messages IH];
    intros c source data len Hc Hlen Hm Hb.
  - pose proof (at_index_range _ _ _ Hc) as R.
    pose proof (round_up_spec len) as [R8 Rb].
    pose proof (length_padded_block data len) as Lp.
    cbn [map concat] in *.
    assert (Rv : receive c source
                 = Some (Some (map data (seq 0 (Z.to_nat (round_up len))), len),
                         set_receive_buffer c
                           (set_nth (Z.to_nat source) (_receive_buffer c)
                              empty_receive_buffer))).
    { rewrite (receive_some c source _ Hc);
        [|unfold loaded; fields; rewrite length_app, Lp; simpl; lia].
      rewrite take_message_loaded by assumption.
      cbn [snd]. unfold loaded. fields.
      rewrite (firstn_exact _ _ _ Lp).
      rewrite read_header_idle by (right; simpl; lia).
      reflexivity. }
    eexists. split.
    + intros [|[|fuel]] Hf; try (simpl in Hf; lia).
      cbn [drain_loop]. rewrite Rv. cbn [lift and_then].
      rewrite (receive_none _ source empty_receive_buffer);
        [reflexivity| |left; reflexivity].
      cbn [set_receive_buffer _receive_buffer].
      now apply at_index_set_nth_same.
    + cbn [set_receive_buffer _receive_buffer].
      now apply at_index_set_nth_same.
  - pose proof (at_index_range _ _ _ Hc) as R.
    pose proof (round_up_spec len) as [R8 Rb].
    pose proof (round_up_spec len') as [R8' Rb'].
    pose proof (length_padded_block data len) as Lp.
    pose proof (length_padded_block data' len') as Lp'.
    inversion Hm as [|? ? Hlen' Hrest]; subst. cbn [snd] in Hlen'.
    rewrite frame_cons in *.
    set (rest' := map data' (seq 0 (Z.to_nat (round_up len')))
                  ++ concat (map frame messages)) in *.
    assert (Hh : length (header_bytes len') = 8%nat)
      by apply length_le_split.
    assert (Rv : receive c source
                 = Some (Some (map data (seq 0 (Z.to_nat (round_up len))), len),
                         set_receive_buffer c
                           (set_nth (Z.to_nat source) (_receive_buffer c)
                              (loaded len' rest')))).
    { rewrite (receive_some c source _ Hc);
        [|unfold loaded; fields; rewrite length_app, Lp; lia].
      rewrite take_message_loaded by assumption.
      cbn [snd]. unfold loaded. fields.
      rewrite (firstn_exact _ _ _ Lp).
      rewrite !length_app, Hh in Hb.
      rewrite read_header_fires;
        [|reflexivity
         |cbn [buflen]; rewrite length_app, Hh; lia].
      fields.
      change (firstn 8 (header_bytes len' ++ rest')) with (header_bytes len').
      change (skipn 8 (header_bytes len' ++ rest')) with rest'.
      rewrite header_round_trip by (unfold is_size_t; lia).
      rewrite get_padded_length_exact by lia.
      rewrite length_app, Hh.
      rewrite wrap_small by (unfold is_size_t; lia).
      replace (Z.of_nat (8 + length rest') - 8)
        with (Z.of_nat (length rest')) by lia.
      reflexivity. }
    destruct (IH (set_receive_buffer c
                    (set_nth (Z.to_nat source) (_receive_buffer c)
                       (loaded len' rest')))
                 source data' len') as (c' & Run & Hend); auto.
    { cbn [set_receive_buffer _receive_buffer].
      now apply at_index_set_nth_same. }
    { rewrite !length_app in Hb. fold rest'. lia. }
    exists c'. split; [|exact Hend].
    intros [|fuel] Hf; [simpl in Hf; lia|].
    cbn [drain_loop]. rewrite Rv. cbn [lift and_then].
    rewrite Run by (cbn [length] in Hf; lia). reflexivity.
Qed.

Lemma firstn_of_seq (n : nat) :
  forall s m, firstn n (seq s m) = seq s (Nat.min n m).
Proof.
  induction n as [|n IH]; intros s [|m]; try reflexivity.
  cbn [seq firstn Nat.min]. now rewrite IH.
Qed.

Lemma unpadded_delivery (message : (nat -> byte) * Z) :
  0 < snd message -> unpadded (delivery message) = payload message.
Proof.
  destruct message as [data len]. cbn [snd]. intros H.
  pose proof (round_up_spec len) as [_ Rb].
  unfold unpadded, delivery, payload.
  rewrite firstn_map, firstn_of_seq. do 3 f_equal. lia.
Qed.

Lemma frame_length (message : (nat -> byte) * Z) :
  0 < snd message ->
  Z.of_nat (length (frame message)) = 8 + round_up (snd message).
Proof.
  destruct message as [data len]. cbn [snd]. intros H.
  pose proof (round_up_spec len) as [_ Rb].
  unfold frame, header_bytes.
  rewrite length_app, length_le_split, length_map, length_seq. lia.
Qed.

Lemma frames_bound (messages : list ((nat -> byte) * Z)) :
  Forall (fun m => 0 < snd m) messages ->
  Z.of_nat (length (concat (map frame messages))) < size_t_modulus ->
  Forall (fun m => 0 < snd m <= size_t_modulus - 8) messages.
Proof.
  induction messages as [|m messages IH]; intros Hp Hb; [constructor|].
  inversion Hp as [|? ? Hm Hrest]; subst.
  cbn [map concat] in Hb. rewrite length_app in Hb.
  pose proof (frame_length m Hm) as Fl.
  pose proof (round_up_spec (snd m)) as [_ Rb].
  constructor; [lia|]. apply IH; [assumption|lia].
Qed.

(** * Round trip *)

Lemma stream_fresh (size W now target : Z) :
  stream (fresh_peer size W now) target = [].
Proof.
  unfold stream, runs_to, staged, slot_length, fresh_peer.
  cbn [comm wire map concat app construct _sendlength _cur_send_buffer].
  change (current_group (construct size W now)) with 0.
  cbn [get2 Z.eqb fst]. now rewrite nth_repeat.
Qed.

Lemma map_unpadded_delivery (messages : list ((nat -> byte) * Z)) :
  Forall (fun m => 0 < snd m) messages ->
  map unpadded (map delivery messages) = map payload messages.
Proof.
  induction 1 as [|m messages Hm _ IH]; [reflexivity|].
  cbn [map]. now rewrite unpadded_delivery, IH.
Qed.

(** C2, as the code has it: round trip. The window holds at least one
    element per peer and fewer than [2^31] elements in all
    ([N*E <= W < 2^34], so that every count and displacement handed to
    the transport is the [int] it is stored in), and the frames of the
    messages, each of positive length, have fewer than [2^64] bytes
    together (so every length is at most [2^64 - 8]). The payloads are
    sent one after the other to one target by a freshly constructed
    peer, and a final flush hands over what is still staged; the target
    feeds the runs it was sent, in order, to the receive buffer of that
    source (empty before) and polls that source until [receive] returns
    [NULL]. Then every call involved returns, the runs are whole
    elements, fewer than [2^31] each, and concatenate to the frames,
    and the receiver gets the same payloads in the same order, each
    with its unpadded length: the block handed out for a message is the
    payload followed by its padding. *)
Theorem send_receive_round_trip (size W now : Z) (group : nat -> flush_env)
    (target : Z) (messages : list ((nat -> byte) * Z))
    (receiver : mpi_comm) (source : Z) :
  0 < size -> size * sizeof_send_type <= W -> W < 2 ^ 34 ->
  0 <= target < size ->
  group_ok group size ->
  Forall (fun m => 0 < snd m) messages ->
  Z.of_nat (length (concat (map frame messages))) < size_t_modulus ->
  at_index (_receive_buffer receiver) source = Some empty_receive_buffer ->
  exists fuel sender sender' receiver' receiver'' received,
    (forall fuel', (fuel <= fuel')%nat ->
       send_all group fuel' (fresh_peer size W now) target messages
       = Returns sender)
    /\ peer_flush group sender = Some sender'
    /\ concat (runs_to sender' target) = concat (map frame messages)
    /\ Forall (fun run =>
                Z.of_nat (length run) mod sizeof_send_type = 0
                /\ Z.of_nat (length run) / sizeof_send_type < 2 ^ 31)
             (runs_to sender' target)
    /\ deliver receiver source (runs_to sender' target) = Some receiver'
    /\ (forall fuel', (fuel <= fuel')%nat ->
          drain_loop fuel' receiver' source = Returns (received, receiver''))
    /\ received = map delivery messages
    /\ map unpadded received = map payload messages.
Proof.
  intros Hs Hfit Hint Ht Hg Hpos Hb Hrecv.
  unfold sizeof_send_type in Hfit.
  assert (HW : is_size_t W) by (unfold is_size_t, size_t_modulus; lia).
  pose proof (frames_bound messages Hpos Hb) as Hm.
  pose proof (at_index_range _ _ _ Hrecv) as R.
  destruct (send_all_spec size W group target Hg Hfit Ht messages
              (fresh_peer size W now) Hm
              (sending_ok_construct size W now Hs HW))
    as (fuel1 & sender & Run1 & S1 & St1 & Rw1).
  specialize (St1 Hint). specialize (Rw1 Hint).
  rewrite stream_fresh in St1. cbn [app] in St1.
  destruct (peer_flush_spec size W group sender target S1 Hg Ht)
    as (sender' & F & S2 & St2 & Sl2 & Rw2).
  specialize (St2 Hint). specialize (Rw2 Hint).
  assert (Hi : runs_whole sender' target)
    by (apply Rw2, Rw1; constructor).
  assert (Hw : Forall (fun run =>
                         Z.of_nat (length run) mod sizeof_send_type = 0)
                      (runs_to sender' target))
    by (eapply Forall_impl; [|exact Hi]; intros run [H8 _]; exact H8).
  assert (Hc : concat (runs_to sender' target) = concat (map frame messages)).
  { rewrite <- St1, <- St2. unfold stream, staged. rewrite Sl2.
    cbn [Z.to_nat firstn]. now rewrite app_nil_r. }
  pose proof (deliver_feed (runs_to sender' target) receiver source
                empty_receive_buffer Hrecv) as D.
  destruct messages as [|[data len] messages].
  - (* nothing was sent: the buffer stays empty *)
    cbn [map concat] in Hc.
    rewrite (feed_nothing _ _ Hw Hc) in D.
    rewrite set_nth_same, set_receive_buffer_same in D
      by (unfold at_index in Hrecv; destruct (source <? 0);
          [discriminate|exact Hrecv]).
    exists (Nat.max fuel1 1), sender, sender', receiver, receiver, [].
    split; [intros fuel' Hf; apply Run1; lia|].
    split; [exact F|]. split; [exact Hc|]. split; [exact Hi|].
    split; [exact D|].
    split; [|split; reflexivity].
    intros [|fuel'] Hf; [lia|]. cbn [drain_loop].
    rewrite (receive_none _ source empty_receive_buffer Hrecv)
      by (left; reflexivity).
    reflexivity.
  - rewrite frame_cons in Hc.
    inversion Hm as [|? ? Hlen Hrest]; subst. cbn [snd] in Hlen.
    assert (Hb' : Z.of_nat (length (concat (runs_to sender' target)))
                  < size_t_modulus).
    { rewrite Hc, <- frame_cons. exact Hb. }
    rewrite (feed_empty _ len _ Hlen Hw Hc Hb') in D.
    rewrite frame_cons, length_app in Hb.
    destruct (drain_loaded messages
                (set_receive_buffer receiver
                   (set_nth (Z.to_nat source) (_receive_buffer receiver)
                      (loaded len
                         (map data (seq 0 (Z.to_nat (round_up len)))
                          ++ concat (map frame messages)))))
                source data len) as (receiver'' & Run2 & _); auto.
    { cbn [set_receive_buffer _receive_buffer].
      now apply at_index_set_nth_same. }
    { lia. }
    exists (Nat.max fuel1 (length messages + 2)), sender, sender'.
    eexists. exists receiver'', (map delivery ((data, len) :: messages)).
    split; [intros fuel' Hf; apply Run1; lia|].
    split; [exact F|]. split; [rewrite frame_cons; exact Hc|].
    split; [exact Hi|]. split; [exact D|].
    split; [intros fuel' Hf; apply Run2; lia|].
    split; [reflexivity|].
    now apply map_unpadded_delivery.
Qed.

Lemma send_receive_round_trip_witness :
  exists fuel sender sender' receiver' receiver'' received,
    (forall fuel', (fuel <= fuel')%nat ->
       send_all quiet_group fuel' (fresh_peer 2 64 0) 1
         [(pointer_to [Byte.x68; Byte.x69], 2);
          (pointer_to (repeat Byte.x2a 40), 40)]
       = Returns sender)
    /\ peer_flush quiet_group sender = Some sender'
    /\ concat (runs_to sender' 1)
       = concat (map frame [(pointer_to [Byte.x68; Byte.x69], 2);
                            (pointer_to (repeat Byte.x2a 40), 40)])
    /\ Forall (fun run =>
                Z.of_nat (length run) mod sizeof_send_type = 0
                /\ Z.of_nat (length run) / sizeof_send_type < 2 ^ 31)
             (runs_to sender' 1)
    /\ deliver (construct 2 64 0) 0 (runs_to sender' 1) = Some receiver'
    /\ (forall fuel', (fuel <= fuel')%nat ->
          drain_loop fuel' receiver' 0 = Returns (received, receiver''))
    /\ received
       = map delivery [(pointer_to [Byte.x68; Byte.x69], 2);
                       (pointer_to (repeat Byte.x2a 40), 40)]
    /\ map unpadded received
       = map payload [(pointer_to [Byte.x68; Byte.x69], 2);
                      (pointer_to (repeat Byte.x2a 40), 40)].
Proof.
  apply (send_receive_round_trip 2 64 0 quiet_group 1
           [(pointer_to [Byte.x68; Byte.x69], 2);
            (pointer_to (repeat Byte.x2a 40), 40)]
           (construct 2 64 0) 0).
  - lia.
  - unfold sizeof_send_type. lia.
  - lia.
  - lia.
  - intros k. simpl. lia.
  - repeat constructor.
  - unfold size_t_modulus. simpl. lia.
  - reflexivity.
Defined.

(** C2 as stated fails for a payload of the positive length
    [2^64 - 1]: with two peers, a 64-byte window and every flush taking
    place, the send of it is still looping whatever the number of
    rounds it is given, so its payload is never framed in full and the
    receiver does not get it. *)
Lemma round_trip_stalls_on_wrapping_length :
  Forall (fun m : (nat -> byte) * Z => 0 < snd m)
         [(pointer_to [Byte.x2a], 2 ^ 64 - 1)]
  /\ forall fuel,
       send_all quiet_group fuel (fresh_peer 2 64 0) 1
         [(pointer_to [Byte.x2a], 2 ^ 64 - 1)] = Spins.
Proof.
  split; [repeat constructor|].
  intros fuel. cbn [send_all].
  rewrite (send_spins 2 64); [reflexivity| | | | |].
  - intros k. simpl. lia.
  - lia.
  - unfold size_t_modulus. lia.
  - reflexivity.
  - apply sending_ok_construct; unfold is_size_t, size_t_modulus; lia.
Qed.

(** * Further properties of the communicator *)

(** ** Stages come in whole elements *)

(** X1. A stage consumes between 0 and [length] caller bytes, and what
    it consumes is either all of them or a whole number of elements; it
    consumes nothing exactly when nothing was granted. So a block is
    only ever cut at a multiple of eight bytes, and the eight-byte
    header is staged in one piece or not at all. *)
Theorem stage_consumes_whole_elements (c : mpi_comm) (target : Z)
    (data : nat -> byte) (length : Z) :
  comm_ok c -> lengths_ok c ->
  0 <= target < _size c -> 0 < length ->
  exists sent c',
    actual_send c target data length = Some (sent, c')
    /\ 0 <= sent <= length
    /\ (sent = length \/ sent mod sizeof_send_type = 0)
    /\ (length = sizeof_comm_header -> sent = 0 \/ sent = 8)
    /\ (sent = 0 -> c' = c)
    /\ slot_length c' target <= _max_sendlength_per_machine c.
Proof.
  intros K L Ht Hn.
  pose proof (slot_length_at_index c target K Ht) as Sl.
  pose proof (in_lengths_ok _ _ _ _ L Sl) as Ho.
  pose proof (grant_of_facts c _ length K Ho) as (G0 & G8 & Gc & Gp).
  pose proof (at_index_range _ _ _ Sl) as R.
  rewrite (actual_send_spec c target data length _ K L Sl).
  set (g := grant_of c (slot_length c target) length) in *.
  destruct (g =? 0) eqn:E.
  - apply Z.eqb_eq in E. exists 0, c.
    split; [reflexivity|]. split; [lia|]. split; [right; reflexivity|].
    split; [auto|]. split; [reflexivity|].
    destruct Ho as [[O0 O1] _]. lia.
  - apply Z.eqb_neq in E. eexists. eexists. split; [reflexivity|].
    split; [lia|]. split; [|split; [|split]].
    + destruct (Z.min_spec g length) as [[_ ->]|[_ ->]]; auto.
    + unfold sizeof_comm_header. intros ->.
      assert (g <= get_padded_length 8) by exact Gp.
      change (get_padded_length 8) with 8 in *.
      pose proof (Z.div_mod g 8 ltac:(lia)).
      assert (g = 8) by lia. right. lia.
    + intros Hz. exfalso. lia.
    + assert (Sn : slot_length (staged_into c target data
                                  (slot_length c target) g) target
                   = slot_length c target + g).
      { unfold slot_length at 1, staged_into, current_group.
        cbn [set_send_base set_sendlength _sendlength _cur_send_buffer].
        rewrite get2_set2_same. apply at_index_nth.
        apply at_index_set_nth_same. exact R. }
      rewrite Sn. lia.
Qed.

Lemma stage_consumes_whole_elements_witness :
  exists sent c',
    actual_send (construct 2 64 0) 1 (pointer_to [Byte.x2a]) 100
    = Some (sent, c')
    /\ 0 <= sent <= 100
    /\ (sent = 100 \/ sent mod sizeof_send_type = 0).
Proof.
  destruct (stage_consumes_whole_elements (construct 2 64 0) 1
              (pointer_to [Byte.x2a]) 100)
    as (sent & c' & H1 & H2 & H3 & _).
  - apply comm_ok_construct; unfold is_size_t, size_t_modulus; lia.
  - apply lengths_ok_construct; unfold is_size_t, size_t_modulus; lia.
  - simpl. lia.
  - lia.
  - exists sent, c'. auto.
Defined.

(** ** The group selector *)

(** X2. [swap_buffers] returns the group that was current and makes
    the other group current; a second swap makes the first group
    current again. This holds for every value of the selector, also
    when the counter wraps from [2^64 - 1] to 0. Nothing else in the
    communicator changes. *)
Theorem swap_buffers_alternates (c : mpi_comm) :
  fst (swap_buffers c) = current_group c
  /\ current_group (snd (swap_buffers c)) = 1 - current_group c
  /\ current_group (snd (swap_buffers (snd (swap_buffers c))))
     = current_group c
  /\ is_size_t (_cur_send_buffer (snd (swap_buffers c)))
  /\ snd (swap_buffers c)
     = set_cur_send_buffer c (_cur_send_buffer (snd (swap_buffers c))).
Proof.
  split; [reflexivity|].
  split; [apply current_group_swap|].
  split.
  - rewrite !current_group_swap. lia.
  - split; [apply wrap_range|reflexivity].
Qed.

(** ** The layout the constructor sets up *)

(** X3. For a group of [N > 0] peers and a window of [W] bytes the
    constructor cuts the window into [N] slots of equal capacity, a
    multiple of 8 that is the largest one not above [W/N]; slot [i]
    starts at [i * capacity], which is element aligned; the slots lie
    inside the window and do not overlap, and all counters are zero.
    [_offset_by_datatype[i]] holds the start of slot [i] in elements
    converted to [int]: that is the start itself exactly when the slot
    starts below [2^34] bytes, and a different number otherwise. *)
Theorem construct_layout (size W now : Z) :
  0 < size -> is_size_t W ->
  let c := construct size W now in
  let capacity := W / size / sizeof_send_type * sizeof_send_type in
  _max_sendlength_per_machine c = capacity
  /\ capacity mod 8 = 0
  /\ W / size - 8 < capacity <= W / size
  /\ size * capacity <= W
  /\ (forall i, 0 <= i < size ->
        at_index (_offset c) i = Some (i * capacity)
        /\ at_index (_offset_by_datatype c) i
           = Some (to_int (i * capacity / 8))
        /\ (to_int (i * capacity / 8) = i * capacity / 8
            <-> i * capacity < 2 ^ 34)
        /\ i * capacity / 8 * 8 = i * capacity
        /\ 0 <= i * capacity
        /\ i * capacity + capacity <= W)
  /\ (forall i j, 0 <= i < j -> i * capacity + capacity <= j * capacity)
  /\ (forall g i len, at_index (get2 (_sendlength c) g) i = Some len ->
        len = 0).
Proof.
  intros Hs Hw c capacity.
  pose proof (comm_ok_construct size W now Hs Hw) as K. fold c in K.
  destruct (capacity_facts c K) as (C0 & C8 & CW).
  change (_max_sendlength_per_machine c) with capacity in *.
  change (_size c) with size in *. change (_send_window_size c) with W in *.
  destruct Hw as [W0 W1].
  split; [reflexivity|]. split; [exact C8|]. split.
  { unfold capacity, sizeof_send_type.
    pose proof (Z.div_mod (W / size) 8 ltac:(lia)).
    pose proof (Z.mod_pos_bound (W / size) 8 ltac:(lia)). lia. }
  split; [exact CW|]. split.
  { intros i Hi.
    pose proof (at_index_offset c i K Hi) as Ao.
    change (_max_sendlength_per_machine c) with capacity in Ao.
    assert (M : i * capacity / 8 * 8 = i * capacity)
      by (apply exact_multiple;
          rewrite Z.mul_mod, C8, Z.mul_0_r by lia; reflexivity).
    assert (P : 0 <= i * capacity) by nia.
    split; [exact Ao|]. split.
    - rewrite (ok_offset_by_datatype c K), at_index_map, Ao. reflexivity.
    - split.
      + split.
        * intros E. pose proof (to_int_range (i * capacity / 8)). lia.
        * intros B. apply to_int_small. lia.
      + split; [exact M|]. split; [exact P|nia]. }
  split; [intros i j Hij; nia|].
  intros g i len H. apply at_index_In in H.
  unfold c in H. cbn [construct _sendlength] in H. unfold get2 in H.
  destruct (g =? 0); cbn [fst snd] in H; now apply repeat_spec in H.
Qed.

Lemma construct_layout_witness :
  at_index (_offset (construct 2 (2 ^ 35) 0)) 1 = Some (2 ^ 34)
  /\ at_index (_offset_by_datatype (construct 2 (2 ^ 35) 0)) 1
     = Some (- 2 ^ 31).
Proof.
  destruct (construct_layout 2 (2 ^ 35) 0) as (_ & _ & _ & _ & H & _).
  - lia.
  - unfold is_size_t, size_t_modulus. lia.
  - destruct (H 1) as (O & A & _); [lia|].
    split; [exact O|exact A].
Defined.

(** ** The any-source receive *)

Lemma receive_total (c : mpi_comm) (source : Z) :
  0 <= source < Z.of_nat (length (_receive_buffer c)) ->
  receive c source = Some (None, c)
  \/ exists block len c1,
       receive c source = Some (Some (block, len), c1)
       /\ _size c1 = _size c
       /\ length (_receive_buffer c1) = length (_receive_buffer c)
       /\ _last_receive_buffer_read_from c1 = _last_receive_buffer_read_from c.
Proof.
  intros R. unfold receive.
  destruct (at_index_some (_receive_buffer c) source R) as [b ->].
  cbn [bind]. destruct (take_message b) as [[[block len]|] b'].
  - right. rewrite store_some by exact R. cbn [bind].
    exists block, len. eexists. split; [reflexivity|].
    cbn. rewrite set_nth_length. auto.
  - left. reflexivity.
Qed.

Lemma receive_sweep_spec (count : nat) :
  forall j i c,
    0 < _size c ->
    length (_receive_buffer c) = Z.to_nat (_size c) ->
    (receive_sweep count j i c = Some (None, c)
     /\ forall k, j <= k < j + Z.of_nat count ->
          receive c (wrap (k + i) mod _size c) = Some (None, c))
    \/ exists block len c1 k,
         receive_sweep count j i c
         = Some (Some (block, wrap (k + i) mod _size c, len),
                 set_last_receive_buffer_read_from c1 k)
         /\ j <= k < j + Z.of_nat count
         /\ receive c (wrap (k + i) mod _size c)
            = Some (Some (block, len), c1)
         /\ forall k', j <= k' < k ->
              receive c (wrap (k' + i) mod _size c) = Some (None, c).
Proof.
  induction count as [|count IH]; intros j i c Hs Hl.
  - left. split; [reflexivity|]. intros k Hk. lia.
  - cbn [receive_sweep].
    assert (R : 0 <= wrap (j + i) mod _size c
                < Z.of_nat (length (_receive_buffer c))).
    { rewrite Hl. pose proof (Z.mod_pos_bound (wrap (j + i)) (_size c) Hs).
      lia. }
    destruct (receive_total c _ R) as [E|(block & len & c1 & E & _)];
      rewrite E; cbn [bind].
    + destruct (IH (j + 1) i c Hs Hl)
        as [[E' Hall]|(block & len & c1 & k & E' & Hk & Hr & Hbefore)].
      * left. split; [exact E'|]. intros k Hk.
        destruct (Z.eq_dec k j) as [->|]; [exact E|]. apply Hall. lia.
      * right. exists block, len, c1, k. split; [exact E'|].
        split; [lia|]. split; [exact Hr|].
        intros k' Hk'. destruct (Z.eq_dec k' j) as [->|]; [exact E|].
        apply Hbefore. lia.
    + right. exists block, len, c1, j. split; [reflexivity|].
      split; [lia|]. split; [exact E|]. intros k' Hk'. lia.
Qed.

Lemma probed_covers (c : mpi_comm) (source : Z) :
  0 <= _last_receive_buffer_read_from c < _size c ->
  _size c < 2 ^ 31 ->
  0 <= source < _size c ->
  exists j, 0 <= j < _size c /\ probed c j = source.
Proof.
  intros Hl Hs Hsrc.
  set (last := _last_receive_buffer_read_from c) in *.
  exists ((source - last - 1) mod _size c).
  pose proof (Z.mod_pos_bound (source - last - 1) (_size c) ltac:(lia)) as B.
  split; [exact B|]. unfold probed. fold last.
  rewrite (wrap_small (last + 1))
    by (unfold is_size_t, size_t_modulus; lia).
  rewrite wrap_small by (unfold is_size_t, size_t_modulus; lia).
  rewrite Z.add_mod_idemp_l by lia.
  replace (source - last - 1 + (last + 1)) with source by lia.
  apply Z.mod_small. lia.
Qed.

(** X4. The any-source [receive] probes the sources in rotation,
    starting behind the cursor, and takes the first one that holds a
    complete message: it returns what [receive(source)] returns for that
    source, leaves the buffers as that call leaves them, and the sources
    probed before it are untouched. It returns [NULL], changing nothing,
    exactly when no source of the group holds a complete message. *)
Theorem receive_any_takes_first_ready (c : mpi_comm) :
  0 < _size c -> _size c < 2 ^ 31 ->
  length (_receive_buffer c) = Z.to_nat (_size c) ->
  0 <= _last_receive_buffer_read_from c < _size c ->
  (receive_any c = Some (None, c)
   /\ forall source, 0 <= source < _size c ->
        receive c source = Some (None, c))
  \/ exists block len c1 j,
       receive_any c
       = Some (Some (block, probed c j, len),
               set_last_receive_buffer_read_from c1 j)
       /\ 0 <= j < _size c
       /\ receive c (probed c j) = Some (Some (block, len), c1)
       /\ forall k, 0 <= k < j -> receive c (probed c k) = Some (None, c).
Proof.
  intros Hs Hint Hl Hlast. unfold receive_any.
  destruct (receive_sweep_spec (Z.to_nat (_size c)) 0
              (wrap (_last_receive_buffer_read_from c + 1)) c Hs Hl)
    as [[E Hall]|(block & len & c1 & k & E & Hk & Hr & Hbefore)].
  - left. split; [exact E|]. intros source Hsrc.
    destruct (probed_covers c source Hlast Hint Hsrc) as (j & Hj & <-).
    apply Hall. lia.
  - right. exists block, len, c1, k. split; [exact E|].
    split; [lia|]. split; [exact Hr|]. intros k' Hk'. apply Hbefore. lia.
Qed.

Lemma receive_any_takes_first_ready_witness :
  (receive_any (construct 3 96 0) = Some (None, construct 3 96 0)
   /\ forall source, 0 <= source < 3 ->
        receive (construct 3 96 0) source = Some (None, construct 3 96 0))
  \/ exists block len c1 j,
       receive_any (construct 3 96 0)
       = Some (Some (block, probed (construct 3 96 0) j, len),
               set_last_receive_buffer_read_from c1 j)
       /\ 0 <= j < 3
       /\ receive (construct 3 96 0) (probed (construct 3 96 0) j)
          = Some (Some (block, len), c1)
       /\ forall k, 0 <= k < j ->
            receive (construct 3 96 0) (probed (construct 3 96 0) k)
            = Some (None, construct 3 96 0).
Proof.
  apply (receive_any_takes_first_ready (construct 3 96 0)).
  - simpl. lia.
  - simpl. lia.
  - reflexivity.
  - simpl. lia.
Defined.

(** ** Exchanges *)










Lemma peer_flush_idle (group : nat -> flush_env) (p : peer) :
  _size (comm p) <= _num_nodes_flushing_threads_done (comm p) ->
  peer_flush group p = Some p.
Proof.
  intros H. unfold peer_flush, flush.
  destruct (_ <? _) eqn:T; [apply Z.ltb_lt in T; lia|].
  cbn [bind]. destruct p; reflexivity.
Qed.

(** ** The flushing thread *)








(** ** Sending when no exchange takes place any more *)

Lemma slot_length_staged_into (c : mpi_comm) (target : Z) (data : nat -> byte)
    (old grant : Z) :
  0 <= target < Z.of_nat (length (get2 (_sendlength c) (current_group c))) ->
  slot_length (staged_into c target data old grant) target = old + grant.
Proof.
  intros R. unfold slot_length, staged_into, current_group.
  cbn [set_send_base set_sendlength _sendlength _cur_send_buffer].
  rewrite get2_set2_same. apply at_index_nth.
  now apply at_index_set_nth_same.
Qed.

Lemma send_loop_fits (group : nat -> flush_env) (p : peer) (target : Z)
    (ptr : nat -> byte) (n : Z) :
  comm_ok (comm p) -> lengths_ok (comm p) ->
  0 <= target < _size (comm p) ->
  0 < n <= size_t_modulus - 8 ->
  slot_length (comm p) target + round_up n
    <= _max_sendlength_per_machine (comm p) ->
  forall fuel, (1 <= fuel)%nat ->
    send_loop group fuel p target ptr n
    = Returns (set_comm p (staged_into (comm p) target ptr
                             (slot_length (comm p) target) (round_up n))).
Proof.
  intros K L Ht Hn Hfit [|fuel] Hf; [lia|].
  pose proof (slot_length_at_index (comm p) target K Ht) as Sl.
  pose proof (in_lengths_ok _ _ _ _ L Sl) as [[O0 O1] O8].
  pose proof (round_up_spec n) as [R8 Rb].
  rewrite send_loop_step by lia.
  rewrite (actual_send_spec _ _ _ _ _ K L Sl).
  unfold grant_of. rewrite get_padded_length_exact by lia.
  rewrite Z.min_r by lia.
  destruct (round_up n =? 0) eqn:E; [apply Z.eqb_eq in E; lia|].
  cbn [lift and_then]. rewrite Z.min_r by lia. rewrite Z.sub_diag.
  change (0 <? wrap 0) with false. cbn [and_then].
  apply send_loop_done. reflexivity.
Qed.

Lemma send_loop_stuck (group : nat -> flush_env) (p : peer) (target : Z)
    (ptr : nat -> byte) (n : Z) :
  comm_ok (comm p) -> lengths_ok (comm p) ->
  0 <= target < _size (comm p) ->
  _size (comm p) <= _num_nodes_flushing_threads_done (comm p) ->
  0 < n < size_t_modulus ->
  grant_of (comm p) (slot_length (comm p) target) n = 0 ->
  forall fuel, send_loop group fuel p target ptr n = Spins.
Proof.
  intros K L Ht Hdone Hn Hg fuel.
  pose proof (slot_length_at_index (comm p) target K Ht) as Sl.
  induction fuel as [|fuel IH].
  - cbn [send_loop].
    destruct (0 <? n) eqn:E; [reflexivity|apply Z.ltb_ge in E; lia].
  - rewrite send_loop_step by lia.
    rewrite (actual_send_spec _ _ _ _ _ K L Sl), Hg.
    change (0 =? 0) with true. cbn [lift and_then].
    rewrite Z.sub_0_r, wrap_small by (unfold is_size_t; lia).
    destruct (0 <? n) eqn:E; [|apply Z.ltb_ge in E; lia].
    replace (set_comm p (comm p)) with p by (destruct p; reflexivity).
    rewrite peer_flush_idle by exact Hdone.
    cbn [lift and_then]. exact IH.
Qed.

Lemma send_loop_overfull (group : nat -> flush_env) (p : peer) (target : Z)
    (ptr : nat -> byte) (n : Z) :
  comm_ok (comm p) -> lengths_ok (comm p) ->
  0 <= target < _size (comm p) ->
  _size (comm p) <= _num_nodes_flushing_threads_done (comm p) ->
  0 < n <= size_t_modulus - 8 ->
  _max_sendlength_per_machine (comm p)
    < slot_length (comm p) target + round_up n ->
  forall fuel, send_loop group fuel p target ptr n = Spins.
Proof.
  intros K L Ht Hdone Hn Hover fuel.
  pose proof (slot_length_at_index (comm p) target K Ht) as Sl.
  pose proof (in_lengths_ok _ _ _ _ L Sl) as Ho.
  pose proof (grant_of_facts (comm p) _ n K Ho) as (G0 & G8 & Gc & Gp).
  pose proof Ho as [[O0 O1] O8]. unfold sizeof_send_type in O8.
  pose proof (round_up_spec n) as [R8 Rb].
  pose proof (at_index_range _ _ _ Sl) as R.
  destruct (Z.eq_dec (grant_of (comm p) (slot_length (comm p) target) n) 0)
    as [E|E].
  { apply send_loop_stuck; auto. unfold size_t_modulus in *. lia. }
  assert (Eg : grant_of (comm p) (slot_length (comm p) target) n
               = _max_sendlength_per_machine (comm p)
                 - slot_length (comm p) target)
    by (unfold grant_of; rewrite get_padded_length_exact by lia; lia).
  destruct fuel as [|fuel].
  - cbn [send_loop].
    destruct (0 <? n) eqn:T; [reflexivity|apply Z.ltb_ge in T; lia].
  - rewrite send_loop_step by lia.
    pose proof (actual_send_spec _ target ptr n _ K L Sl) as A.
    assert (T : (grant_of (comm p) (slot_length (comm p) target) n =? 0)
                = false) by (apply Z.eqb_neq; exact E).
    rewrite T in A. rewrite A.
    destruct (actual_send_keeps_invariant _ _ _ _ _ _ K L A) as [K1 L1].
    cbn [lift and_then]. rewrite Eg in *.
    set (g := _max_sendlength_per_machine (comm p)
              - slot_length (comm p) target) in *.
    assert (g < n).
    { destruct (capacity_facts _ K) as (_ & C8 & _).
      assert (g mod 8 = 0) by exact G8.
      pose proof (Z.div_mod g 8 ltac:(lia)).
      pose proof (Z.div_mod (round_up n) 8 ltac:(lia)). lia. }
    rewrite Z.min_l by lia.
    rewrite wrap_small by (unfold is_size_t; lia).
    destruct (0 <? n - g) eqn:T2; [|apply Z.ltb_ge in T2; lia].
    rewrite peer_flush_idle by exact Hdone.
    cbn [lift and_then].
    apply send_loop_stuck; cbn [set_comm comm]; auto.
    + unfold size_t_modulus in *. lia.
    + unfold grant_of.
      rewrite slot_length_staged_into by exact R.
      change (_max_sendlength_per_machine (staged_into _ _ _ _ _))
        with (_max_sendlength_per_machine (comm p)).
      pose proof (get_padded_length_range (n - g)) as [P0 _].
      subst g. lia.
Qed.

(** X9. When all flushing threads of the group are counted as done,
    [flush] no longer makes room, and [send] depends on the room left
    in the target's slot: if header and padded payload fit, [send]
    returns with the whole frame staged and no exchange; if they do not
    fit, [send] never returns. *)
Theorem send_after_shutdown (size W : Z) (group : nat -> flush_env)
    (p : peer) (target : Z) (data : nat -> byte) (length : Z) :
  staging_ok size W (comm p) ->
  size <= _num_nodes_flushing_threads_done (comm p) ->
  0 <= target < size ->
  0 < length <= size_t_modulus - 8 ->
  let room :=
    _max_sendlength_per_machine (comm p) - slot_length (comm p) target in
  (sizeof_comm_header + round_up length <= room ->
     exists p',
       (forall fuel, (1 <= fuel)%nat ->
          send group fuel p target data length = Returns p')
       /\ exchanges p' = exchanges p
       /\ wire p' = wire p
       /\ slot_length (comm p') target
          = slot_length (comm p) target + sizeof_comm_header
            + round_up length)
  /\ (room < sizeof_comm_header + round_up length ->
        forall fuel, send group fuel p target data length = Spins).
Proof.
  intros [K Hsz Hw L Hidle] Hdone Ht Hn room. subst room.
  unfold sizeof_comm_header.
  pose proof (round_up_spec length) as [R8 Rb].
  pose proof (slot_length_at_index (comm p) target K ltac:(lia)) as Sl.
  pose proof (in_lengths_ok _ _ _ _ L Sl) as [[O0 O1] O8].
  unfold sizeof_send_type in O8.
  pose proof (at_index_range _ _ _ Sl) as R.
  assert (Pre : forall fuel,
            send group fuel p target data length
            = and_then (send_loop group fuel p target
                          (pointer_to (header_bytes length)) 8)
                (fun p1 => send_loop group fuel p1 target data length)).
  { intros fuel. unfold send, sizeof_comm_header. rewrite Hsz.
    destruct (0 <=? target) eqn:E1; [|apply Z.leb_gt in E1; lia].
    destruct (target <? size) eqn:E2; [|apply Z.ltb_ge in E2; lia].
    destruct (0 <? length) eqn:E3; [|apply Z.ltb_ge in E3; lia].
    reflexivity. }
  destruct (capacity_facts _ K) as (C0 & C8 & _).
  split.
  - intros Hfit.
    set (c1 := staged_into (comm p) target (pointer_to (header_bytes length))
                 (slot_length (comm p) target) 8).
    assert (H1 : forall fuel, (1 <= fuel)%nat ->
              send_loop group fuel p target
                (pointer_to (header_bytes length)) 8
              = Returns (set_comm p c1)).
    { intros fuel Hf.
      rewrite (send_loop_fits group p target _ 8 K L) by
        (try rewrite Hsz; try (unfold size_t_modulus); try lia;
         change (round_up 8) with 8; lia).
      reflexivity. }
    assert (A : actual_send (comm p) target
                  (pointer_to (header_bytes length)) 8 = Some (8, c1)).
    { rewrite (actual_send_spec _ _ _ _ _ K L Sl). unfold grant_of.
      change (get_padded_length 8) with 8. rewrite Z.min_r by lia.
      reflexivity. }
    destruct (actual_send_keeps_invariant _ _ _ _ _ _ K L A) as [K1 L1].
    assert (Sl1 : slot_length c1 target = slot_length (comm p) target + 8)
      by (apply slot_length_staged_into; exact R).
    eexists. split; [|split; [|split]].
    + intros fuel Hf. rewrite Pre, H1 by exact Hf. cbn [and_then].
      apply send_loop_fits; cbn [set_comm comm]; auto.
      * change (_size c1) with (_size (comm p)). lia.
      * rewrite Sl1.
        change (_max_sendlength_per_machine c1)
          with (_max_sendlength_per_machine (comm p)). lia.
    + reflexivity.
    + reflexivity.
    + cbn [set_comm comm]. rewrite slot_length_staged_into.
      * rewrite Sl1. lia.
      * change (current_group c1) with (current_group (comm p)).
        rewrite (ok_sendlength _ K1).
        change (_size c1) with (_size (comm p)). lia.
  - intros Hover fuel. rewrite Pre.
    destruct (Z_le_gt_dec (slot_length (comm p) target + 8)
                (_max_sendlength_per_machine (comm p))) as [Hh|Hh].
    + (* the header fits, the payload does not *)
      destruct fuel as [|fuel]; [reflexivity|].
      set (c1 := staged_into (comm p) target
                   (pointer_to (header_bytes length))
                   (slot_length (comm p) target) 8).
      rewrite (send_loop_fits group p target _ 8 K L) by
        (try rewrite Hsz; try (unfold size_t_modulus); try lia;
         change (round_up 8) with 8; lia).
      change (round_up 8) with 8. fold c1. cbn [and_then].
      assert (A : actual_send (comm p) target
                    (pointer_to (header_bytes length)) 8 = Some (8, c1)).
      { rewrite (actual_send_spec _ _ _ _ _ K L Sl). unfold grant_of.
        change (get_padded_length 8) with 8. rewrite Z.min_r by lia.
        reflexivity. }
      destruct (actual_send_keeps_invariant _ _ _ _ _ _ K L A) as [K1 L1].
      assert (Sl1 : slot_length c1 target = slot_length (comm p) target + 8)
        by (apply slot_length_staged_into; exact R).
      apply send_loop_overfull; cbn [set_comm comm]; auto.
      * change (_size c1) with (_size (comm p)). lia.
      * change (_size c1) with (_size (comm p)).
        change (_num_nodes_flushing_threads_done c1)
          with (_num_nodes_flushing_threads_done (comm p)). lia.
      * rewrite Sl1.
        change (_max_sendlength_per_machine c1)
          with (_max_sendlength_per_machine (comm p)). lia.
    + (* not even the header fits *)
      rewrite (send_loop_overfull group p target _ 8 K L);
        try reflexivity; try rewrite Hsz; try lia.
      * unfold size_t_modulus. lia.
      * change (round_up 8) with 8. lia.
Qed.

Lemma send_after_shutdown_witness :
  send quiet_group 1000
    {| comm := set_num_nodes_flushing_threads_done (construct 2 64 0) 2;
       exchanges := 0; wire := [] |}
    1 (pointer_to [Byte.x2a]) 40 = Spins.
Proof.
  destruct (send_after_shutdown 2 64 quiet_group
              {| comm := set_num_nodes_flushing_threads_done
                           (construct 2 64 0) 2;
                 exchanges := 0; wire := [] |}
              1 (pointer_to [Byte.x2a]) 40) as [_ H].
  - assert (S : sending_ok 2 64 (construct 2 64 0))
      by (apply sending_ok_construct; unfold is_size_t, size_t_modulus; lia).
    destruct S as [K Hs Hw L Hi _ _].
    constructor; try assumption. now apply comm_ok_set_num_nodes.
  - simpl. lia.
  - lia.
  - unfold size_t_modulus. lia.
  - apply H. vm_compute. reflexivity.
Defined.

(** ** The receiver between exchanges *)

Lemma length_header_bytes (len : Z) : length (header_bytes len) = 8%nat.
Proof. apply length_le_split. Qed.

Lemma view_header (len : Z) (rest : list byte) :
  0 < len <= size_t_modulus - 8 ->
  view (header_bytes len ++ rest) = loaded len rest.
Proof.
  intros Hlen.
  pose proof (length_header_bytes len) as Hh.
  unfold view, loaded, sizeof_comm_header.
  rewrite length_app, Hh.
  destruct (Z.of_nat (8 + length rest) <? 8) eqn:E;
    [apply Z.ltb_lt in E; lia|].
  change (firstn 8 (header_bytes len ++ rest)) with (header_bytes len).
  change (skipn 8 (header_bytes len ++ rest)) with rest.
  rewrite header_round_trip by (unfold is_size_t; lia).
  rewrite get_padded_length_exact by lia.
  f_equal. lia.
Qed.

Lemma read_header_view (r : list byte) :
  Z.of_nat (length r) < size_t_modulus ->
  read_header {| buflen := Z.of_nat (length r);
                 buffer := r;
                 next_message_length := 0;
                 padded_next_message_length := 0 |}
  = view r.
Proof.
  intros Hb. unfold view, sizeof_comm_header.
  destruct (Z.of_nat (length r) <? 8) eqn:E.
  - apply Z.ltb_lt in E. apply read_header_idle. right. exact E.
  - apply Z.ltb_ge in E.
    rewrite read_header_fires; [|reflexivity|exact E].
    cbn [buflen buffer].
    now rewrite wrap_small by (unfold is_size_t; lia).
Qed.

Lemma insert_view (r run : list byte) :
  (8 <= Z.of_nat (length r) -> header_length (firstn 8 r) <> 0) ->
  Z.of_nat (length r) + Z.of_nat (length run) < size_t_modulus ->
  insert_bytes (view r) run (Z.of_nat (length run)) = view (r ++ run).
Proof.
  intros Hh Hb. unfold insert_bytes, view, sizeof_comm_header, sputn.
  rewrite Nat2Z.id, firstn_all, length_app, Nat2Z.inj_add.
  destruct (Z.of_nat (length r) <? 8) eqn:E.
  - apply Z.ltb_lt in E.
    cbn [buflen buffer next_message_length padded_next_message_length].
    rewrite wrap_small by (unfold is_size_t; lia).
    destruct (Z.of_nat (length r) + Z.of_nat (length run) <? 8) eqn:E2.
    + apply Z.ltb_lt in E2. apply read_header_idle. right. exact E2.
    + apply Z.ltb_ge in E2.
      rewrite read_header_fires; [|reflexivity|exact E2].
      cbn [buflen buffer].
      now rewrite wrap_small by (unfold is_size_t; lia).
  - apply Z.ltb_ge in E.
    cbn [buflen buffer next_message_length padded_next_message_length].
    destruct (Z.of_nat (length r) + Z.of_nat (length run) <? 8) eqn:E2;
      [apply Z.ltb_lt in E2; lia|].
    rewrite read_header_idle by (left; apply Hh; exact E).
    rewrite wrap_small by (unfold is_size_t; lia).
    assert (D : (8 - length r = 0)%nat) by lia.
    rewrite firstn_app, skipn_app, D, firstn_O, skipn_O, app_nil_r.
    f_equal. lia.
Qed.

Lemma app_split_prefix {A : Type} (a : list A) :
  forall l1 l2 b,
    l1 ++ l2 = a ++ b -> (length a <= length l1)%nat ->
    exists l1', l1 = a ++ l1' /\ l1' ++ l2 = b.
Proof.
  induction a as [|x a IH]; intros l1 l2 b E Hl.
  - exists l1. split; [reflexivity|exact E].
  - destruct l1 as [|y l1]; [simpl in Hl; lia|].
    cbn [app] in E. injection E as -> E.
    destruct (IH l1 l2 b E) as (l1' & -> & E'); [simpl in Hl; lia|].
    exists l1'. split; [reflexivity|exact E'].
Qed.

(** What is left of a stream of frames starts with a header as soon as
    eight bytes of it are there. *)
Lemma prefix_of_frames (r future : list byte)
    (messages : list ((nat -> byte) * Z)) :
  r ++ future = concat (map frame messages) ->
  8 <= Z.of_nat (length r) ->
  exists data len messages' rest,
    messages = (data, len) :: messages'
    /\ r = header_bytes len ++ rest
    /\ rest ++ future
       = map data (seq 0 (Z.to_nat (round_up len)))
         ++ concat (map frame messages').
Proof.
  intros E Hr. destruct messages as [|[data len] messages'].
  - cbn [map concat] in E. apply app_eq_nil in E as [-> _].
    simpl in Hr. lia.
  - rewrite frame_cons in E.
    destruct (app_split_prefix _ _ _ _ E) as (rest & -> & E').
    + rewrite length_header_bytes. lia.
    + now exists data, len, messages', rest.
Qed.

Lemma insert_receive_buffer_some (c : mpi_comm) (idx : Z)
    (curbuf : receive_buffer_type) (v : list byte) (n : Z) :
  at_index (_receive_buffer c) idx = Some curbuf ->
  insert_receive_buffer c idx v n
  = Some (set_receive_buffer c
            (set_nth (Z.to_nat idx) (_receive_buffer c)
               (insert_bytes curbuf v n))).
Proof.
  intros Hc. pose proof (at_index_range _ _ _ Hc) as R.
  unfold insert_receive_buffer. rewrite Hc. cbn [bind].
  now rewrite store_some by exact R.
Qed.

(** Arrivals and polls in any order: the polls hand out the first [k]
    messages of the stream, and the buffer is left as if only the
    frames of the others had arrived. *)
Lemma run_receiver_view (idx : Z) (ops : list receiver_op) :
  forall c r messages,
    at_index (_receive_buffer c) idx = Some (view r) ->
    Forall (fun run => Z.of_nat (length run) mod sizeof_send_type = 0)
           (arrivals ops) ->
    Forall (fun m => 0 < snd m <= size_t_modulus - 8) messages ->
    r ++ concat (arrivals ops) = concat (map frame messages) ->
    Z.of_nat (length (concat (map frame messages))) < size_t_modulus ->
    exists k c',
      run_receiver ops c idx = Some (map delivery (firstn k messages), c')
      /\ at_index (_receive_buffer c') idx
         = Some (view (concat (map frame (skipn k messages)))).
Proof.
  induction ops as [|[run|] ops IH]; intros c r messages Hc Hw Hm E Hb.
  - cbn [arrivals concat] in E. rewrite app_nil_r in E. subst r.
    exists 0%nat, c. split; [reflexivity|exact Hc].
  - cbn [arrivals concat] in E, Hw.
    inversion Hw as [|? ? Hrun Hw']; subst.
    cbn [run_receiver].
    destruct (whole_run_cases run Hrun) as [[-> Z0]|(R8 & Z1 & Zl)].
    + rewrite Z0. cbn [bind]. apply (IH c r); auto.
    + rewrite Z1, Zl.
      rewrite (insert_receive_buffer_some _ _ _ _ _ Hc). cbn [bind].
      pose proof (at_index_range _ _ _ Hc) as R.
      assert (Len : Z.of_nat (length r) + Z.of_nat (length run)
                    <= Z.of_nat (length (concat (map frame messages))))
        by (rewrite <- E, !length_app; lia).
      rewrite insert_view.
      * apply (IH _ (r ++ run)); auto.
        -- cbn [set_receive_buffer _receive_buffer].
           now apply at_index_set_nth_same.
        -- now rewrite <- app_assoc.
      * intros H8.
        destruct (prefix_of_frames _ _ _ E H8)
          as (data & len & messages' & rest & -> & -> & _).
        inversion Hm as [|? ? Hlen _]; subst. cbn [snd] in Hlen.
        change (firstn 8 (header_bytes len ++ rest)) with (header_bytes len).
        rewrite header_round_trip by (unfold is_size_t; lia). lia.
      * lia.
  - cbn [arrivals] in E, Hw. cbn [run_receiver].
    pose proof (at_index_range _ _ _ Hc) as R.
    assert (Len : Z.of_nat (length r)
                  <= Z.of_nat (length (concat (map frame messages))))
      by (rewrite <- E, length_app; lia).
    destruct (Z_lt_le_dec (Z.of_nat (length r)) 8) as [H8|H8].
    + (* no header yet *)
      rewrite (receive_none _ _ _ Hc).
      * cbn [bind].
        destruct (IH c r messages Hc Hw Hm E Hb) as (k & c' & Run & Hend).
        exists k, c'. rewrite Run. cbn [bind]. now split.
      * left. unfold view, sizeof_comm_header.
        destruct (Z.of_nat (length r) <? 8) eqn:T;
          [reflexivity|apply Z.ltb_ge in T; lia].
    + destruct (prefix_of_frames _ _ _ E H8)
        as (data & len & messages' & rest & -> & -> & E').
      inversion Hm as [|? ? Hlen Hm']; subst. cbn [snd] in Hlen.
      pose proof (round_up_spec len) as [R8 Rb].
      pose proof (length_padded_block data len) as Lp.
      rewrite view_header in Hc by exact Hlen.
      rewrite length_app, length_header_bytes in Len.
      destruct (Z_lt_le_dec (Z.of_nat (length rest)) (round_up len))
        as [Hshort|Hfull].
      * (* the block is not complete *)
        rewrite (receive_none _ _ _ Hc) by (right; exact Hshort).
        cbn [bind].
        destruct (IH c (header_bytes len ++ rest) ((data, len) :: messages'))
          as (k & c' & Run & Hend); auto.
        { now rewrite view_header by exact Hlen. }
        exists k, c'. rewrite Run. cbn [bind]. now split.
      * destruct (app_split_prefix _ _ _ _ E') as (r' & -> & E'').
        { rewrite Lp. lia. }
        rewrite length_app, Lp in Len.
        rewrite (receive_some _ _ _ Hc)
          by (unfold loaded; fields; rewrite length_app, Lp; lia).
        rewrite take_message_loaded
          by (try exact Hlen; rewrite length_app, Lp; lia).
        cbn [snd bind]. unfold loaded at 1 2. fields.
        rewrite (firstn_exact _ _ _ Lp).
        rewrite read_header_view by lia.
        rewrite frame_cons, !length_app, length_header_bytes, Lp in Hb.
        destruct (IH (set_receive_buffer c
                        (set_nth (Z.to_nat idx) (_receive_buffer c)
                           (view r')))
                     r' messages') as (k & c' & Run & Hend); auto.
        { cbn [set_receive_buffer _receive_buffer].
          now apply at_index_set_nth_same. }
        { lia. }
        exists (S k), c'. rewrite Run. cbn [bind].
        split; [reflexivity|exact Hend].
Qed.

(** X10. The receiver does not depend on how the stream of a source is
    cut into runs nor on when the application polls: if the runs that
    arrive, whole elements each, concatenate to the frames of messages
    of positive length (fewer than 2^64 bytes in all), then the polls
    made in between together with a final drain hand out exactly the
    padded block and the length of each message, in the order sent, and
    leave the buffer of the source as it was constructed. *)
Theorem receiver_independent_of_chunking (c : mpi_comm) (idx : Z)
    (ops : list receiver_op) (messages : list ((nat -> byte) * Z)) :
  at_index (_receive_buffer c) idx = Some empty_receive_buffer ->
  Forall (fun run => Z.of_nat (length run) mod sizeof_send_type = 0)
         (arrivals ops) ->
  Forall (fun m => 0 < snd m) messages ->
  concat (arrivals ops) = concat (map frame messages) ->
  Z.of_nat (length (concat (map frame messages))) < size_t_modulus ->
  exists polled c' rest c'',
    run_receiver ops c idx = Some (polled, c')
    /\ (forall fuel, (length messages + 2 <= fuel)%nat ->
          drain_loop fuel c' idx = Returns (rest, c''))
    /\ polled ++ rest = map delivery messages
    /\ at_index (_receive_buffer c'') idx = Some empty_receive_buffer.
Proof.
  intros Hc Hw Hpos E Hb.
  pose proof (frames_bound _ Hpos Hb) as Hm.
  destruct (run_receiver_view idx ops c [] messages)
    as (k & c' & Run & Hend); auto.
  assert (Hm' : Forall (fun m => 0 < snd m <= size_t_modulus - 8)
                       (skipn k messages)).
  { rewrite Forall_forall in *. intros m Hin. apply Hm.
    rewrite <- (firstn_skipn k messages). apply in_or_app. now right. }
  assert (Hb' : Z.of_nat (length (concat (map frame (skipn k messages))))
                < size_t_modulus).
  { rewrite <- (firstn_skipn k messages), map_app, concat_app, length_app
      in Hb. lia. }
  assert (Hl : (length (skipn k messages) <= length messages)%nat)
    by (rewrite length_skipn; lia).
  exists (map delivery (firstn k messages)).
  destruct (skipn k messages) as [|[data len] messages'] eqn:Es.
  - exists c', [], c'. split; [exact Run|]. split; [|split].
    + intros [|fuel] Hf; [lia|]. cbn [drain_loop].
      rewrite (receive_none _ _ _ Hend) by (left; reflexivity).
      reflexivity.
    + rewrite app_nil_r. rewrite <- (firstn_skipn k messages) at 2.
      now rewrite Es, app_nil_r.
    + exact Hend.
  - inversion Hm' as [|? ? Hlen Hrest]; subst. cbn [snd] in Hlen.
    rewrite frame_cons in Hend, Hb'.
    rewrite view_header in Hend by exact Hlen.
    rewrite length_app, length_header_bytes in Hb'.
    destruct (drain_loaded messages' c' idx data len Hend Hlen Hrest)
      as (c'' & Drain & Hfinal); [lia|].
    exists c', (delivery (data, len) :: map delivery messages'), c''.
    split; [exact Run|]. split; [|split].
    + intros fuel Hf. apply Drain. cbn [length] in Hl. lia.
    + rewrite <- (firstn_skipn k messages) at 2.
      now rewrite Es, map_app.
    + exact Hfinal.
Qed.

Lemma receiver_independent_of_chunking_witness :
  exists polled c' rest c'',
    run_receiver
      [Arrive (header_bytes 3); Poll;
       Arrive (map (pointer_to [Byte.x61; Byte.x62; Byte.x63]) (seq 0 8));
       Poll]
      (construct 2 64 0) 1 = Some (polled, c')
    /\ (forall fuel, (1 + 2 <= fuel)%nat ->
          drain_loop fuel c' 1 = Returns (rest, c''))
    /\ polled ++ rest
       = map delivery [(pointer_to [Byte.x61; Byte.x62; Byte.x63], 3)]
    /\ at_index (_receive_buffer c'') 1 = Some empty_receive_buffer.
Proof.
  apply (receiver_independent_of_chunking (construct 2 64 0) 1
           [Arrive (header_bytes 3); Poll;
            Arrive (map (pointer_to [Byte.x61; Byte.x62; Byte.x63])
                        (seq 0 8));
            Poll]
           [(pointer_to [Byte.x61; Byte.x62; Byte.x63], 3)]).
  - reflexivity.
  - repeat constructor.
  - repeat constructor.
  - reflexivity.
  - vm_compute. reflexivity.
Defined.

(** ** A stage stays inside the slot of its target *)

Lemma window_write_elsewhere {A : Type} (w D : list A) (a s n : nat) :
  (a + length D <= length w)%nat ->
  (s + n <= a)%nat \/ (a + length D <= s)%nat ->
  firstn n (skipn s (firstn a w ++ D ++ skipn (a + length D) w))
  = firstn n (skipn s w).
Proof.
  intros Hw [Hbelow|Habove].
  - assert (La : length (firstn a w) = a) by (rewrite length_firstn; lia).
    rewrite skipn_app, firstn_app, length_skipn, La.
    replace (n - (a - s))%nat with 0%nat by lia.
    rewrite firstn_O, app_nil_r.
    rewrite <- (firstn_skipn a w) at 2.
    rewrite skipn_app, firstn_app, length_skipn, La.
    replace (n - (a - s))%nat with 0%nat by lia.
    now rewrite firstn_O, app_nil_r.
  - assert (La : length (firstn a w ++ D) = (a + length D)%nat)
      by (rewrite length_app, length_firstn; lia).
    rewrite app_assoc, skipn_app, La.
    rewrite (skipn_all2 (firstn a w ++ D)) by lia.
    cbn [app]. rewrite skipn_skipn.
    now replace (s - (a + length D) + (a + length D))%nat with s by lia.
Qed.

Lemma staged_into_elsewhere (c : mpi_comm) (target u : Z)
    (data : nat -> byte) (grant : Z) :
  comm_ok c -> lengths_ok c ->
  0 <= target < _size c -> 0 <= u < _size c -> u <> target ->
  0 <= grant ->
  slot_length c target + grant <= _max_sendlength_per_machine c ->
  slot_length (staged_into c target data (slot_length c target) grant) u
  = slot_length c u
  /\ staged (staged_into c target data (slot_length c target) grant) u
     = staged c u.
Proof.
  intros K L Ht Hu Hne G0 Gc.
  destruct (capacity_facts c K) as (C0 & C8 & CW).
  pose proof (slot_length_at_index c target K Ht) as Sl.
  pose proof (in_lengths_ok _ _ _ _ L Sl) as [[O0 O1] _].
  pose proof (slot_length_at_index c u K Hu) as Su.
  pose proof (in_lengths_ok _ _ _ _ L Su) as [[U0 U1] _].
  assert (Sn : slot_length
                 (staged_into c target data (slot_length c target) grant) u
               = slot_length c u).
  { unfold slot_length at 1, staged_into, current_group.
    cbn [set_send_base set_sendlength _sendlength _cur_send_buffer].
    rewrite get2_set2_same. apply at_index_nth.
    rewrite at_index_set_nth_other by lia. exact Su. }
  split; [exact Sn|].
  unfold staged. rewrite Sn.
  change (current_group (staged_into c target data (slot_length c target)
                           grant)) with (current_group c).
  change (_max_sendlength_per_machine
            (staged_into c target data (slot_length c target) grant))
    with (_max_sendlength_per_machine c).
  unfold staged_into. cbn [set_send_base set_sendlength _send_base].
  rewrite get2_set2_same.
  assert (B0 : 0 <= target * _max_sendlength_per_machine c) by nia.
  assert (B : target * _max_sendlength_per_machine c
              + slot_length c target + grant <= _send_window_size c) by nia.
  rewrite !Z2Nat.inj_add by lia.
  replace (Z.to_nat grant)
    with (length (map data (seq 0 (Z.to_nat grant)))) at 2
    by (rewrite length_map, length_seq; reflexivity).
  apply window_write_elsewhere.
  - rewrite length_map, length_seq, (ok_send_base c K). lia.
  - rewrite length_map, length_seq.
    destruct (Z_lt_le_dec u target) as [Hlt|Hgt].
    + left.
      assert ((u + 1) * _max_sendlength_per_machine c
              <= target * _max_sendlength_per_machine c) by nia.
      assert (0 <= u * _max_sendlength_per_machine c) by nia. lia.
    + right.
      assert ((target + 1) * _max_sendlength_per_machine c
              <= u * _max_sendlength_per_machine c) by nia.
      lia.
Qed.

(** X11. A stage for one target writes only into that target's slot of
    the current group: for every other peer the slot counter and the
    staged bytes are as before, and so are the counters and the window
    of the idle group and the receive buffers. *)
Theorem stage_keeps_other_slots (c : mpi_comm) (target : Z)
    (data : nat -> byte) (length sent : Z) (c' : mpi_comm) :
  comm_ok c -> lengths_ok c ->
  0 <= target < _size c ->
  actual_send c target data length = Some (sent, c') ->
  (forall u, 0 <= u < _size c -> u <> target ->
     slot_length c' u = slot_length c u /\ staged c' u = staged c u)
  /\ get2 (_sendlength c') (idle_group c)
      = get2 (_sendlength c) (idle_group c)
  /\ get2 (_send_base c') (idle_group c) = get2 (_send_base c) (idle_group c)
  /\ current_group c' = current_group c
  /\ _receive_buffer c' = _receive_buffer c.
Proof.
  intros K L Ht A.
  pose proof (slot_length_at_index c target K Ht) as Sl.
  pose proof (in_lengths_ok _ _ _ _ L Sl) as Ho.
  pose proof (grant_of_facts c _ length K Ho) as (G0 & G8 & Gc & Gp).
  pose proof (current_group_cases c) as Gr.
  rewrite (actual_send_spec _ _ _ _ _ K L Sl) in A.
  destruct (_ =? 0) in A.
  - injection A as _ <-. repeat split; reflexivity.
  - injection A as _ <-.
    split; [|split; [|split; [|split]]].
    + intros u Hu Hne. now apply staged_into_elsewhere.
    + unfold idle_group, staged_into.
      cbn [set_send_base set_sendlength _sendlength].
      now apply get2_set2_other.
    + unfold idle_group, staged_into.
      cbn [set_send_base set_sendlength _send_base].
      now apply get2_set2_other.
    + reflexivity.
    + reflexivity.
Qed.

Lemma stage_keeps_other_slots_witness :
  staged (staged_into (construct 2 64 0) 1 (pointer_to [Byte.x2a]) 0 8) 0
  = staged (construct 2 64 0) 0.
Proof.
  destruct (stage_keeps_other_slots (construct 2 64 0) 1
              (pointer_to [Byte.x2a]) 1 1
              (staged_into (construct 2 64 0) 1 (pointer_to [Byte.x2a]) 0 8))
    as [H _].
  - apply comm_ok_construct; unfold is_size_t, size_t_modulus; lia.
  - apply lengths_ok_construct; unfold is_size_t, size_t_modulus; lia.
  - simpl. lia.
  - vm_compute. reflexivity.
  - apply (H 0); simpl; lia.
Defined.

(** ** A send does not touch the streams to other peers *)

Lemma stream_set_comm (p : peer) (c : mpi_comm) (u : Z) :
  staged c u = staged (comm p) u -> stream (set_comm p c) u = stream p u.
Proof.
  intros H. unfold stream, runs_to. destruct p as [c0 e w].
  cbn [set_comm comm wire] in *. now rewrite H.
Qed.

Lemma send_loop_elsewhere (size W : Z) (group : nat -> flush_env)
    (target u : Z) :
  group_ok group size -> W < 2 ^ 34 ->
  0 <= target < size -> 0 <= u < size -> u <> target ->
  forall fuel n p ptr p',
    0 < n <= size_t_modulus - 8 ->
    sending_ok size W (comm p) ->
    send_loop group fuel p target ptr n = Returns p' ->
    stream p' u = stream p u.
Proof.
  intros Hg Hint Ht Hu Hne.
  induction fuel as [|fuel IH]; intros n p ptr p' Hn Sok Run.
  - cbn [send_loop] in Run.
    destruct (0 <? n) eqn:E; [discriminate|apply Z.ltb_ge in E; lia].
  - pose proof Sok as [K Hsz Hw L Hidle Hrun Hflag].
    pose proof (slot_length_at_index (comm p) target K ltac:(lia)) as Sl.
    pose proof (in_lengths_ok _ _ _ _ L Sl) as Ho.
    pose proof (grant_of_facts (comm p) _ n K Ho) as (G0 & G8 & Gc & Gp).
    rewrite send_loop_step in Run by lia.
    rewrite (actual_send_spec _ _ _ _ _ K L Sl) in Run.
    set (g := grant_of (comm p) (slot_length (comm p) target) n) in *.
    destruct (g =? 0) eqn:E; cbn [lift and_then] in Run.
    + rewrite Z.sub_0_r, wrap_small in Run by (unfold is_size_t; lia).
      destruct (0 <? n) eqn:E0; [|apply Z.ltb_ge in E0; lia].
      replace (set_comm p (comm p)) with p in Run
        by (destruct p; reflexivity).
      destruct (peer_flush_spec size W group p u Sok Hg Hu)
        as (p2 & F2 & S2 & St2 & _).
      rewrite F2 in Run. cbn [lift and_then] in Run.
      rewrite (IH _ _ _ _ Hn S2 Run). exact (St2 Hint).
    + apply Z.eqb_neq in E.
      destruct (sending_ok_staged_into size W (comm p) target ptr g Sok
                  Ht G0 G8 Gc) as (S1 & _).
      destruct (staged_into_elsewhere (comm p) target u ptr g K L)
        as [_ Su]; try lia.
      set (c1 := staged_into (comm p) target ptr
                   (slot_length (comm p) target) g) in *.
      pose proof (stream_set_comm p c1 u Su) as St1.
      rewrite wrap_small in Run by (unfold is_size_t; lia).
      destruct (0 <? n - Z.min g n) eqn:E0.
      * apply Z.ltb_lt in E0.
        destruct (peer_flush_spec size W group (set_comm p c1) u S1 Hg Hu)
          as (p2 & F2 & S2 & St2 & _).
        rewrite F2 in Run. cbn [lift and_then] in Run.
        assert (Hn' : 0 < n - Z.min g n <= size_t_modulus - 8) by lia.
        rewrite (IH _ _ _ _ Hn' S2 Run). rewrite (St2 Hint). exact St1.
      * apply Z.ltb_ge in E0. cbn [and_then] in Run.
        rewrite send_loop_done in Run by lia.
        injection Run as <-. exact St1.
Qed.

Lemma send_unfold (group : nat -> flush_env) (fuel : nat) (p : peer)
    (target : Z) (data : nat -> byte) (length : Z) :
  0 <= target < _size (comm p) -> 0 < length ->
  send group fuel p target data length
  = and_then (send_loop group fuel p target
                (pointer_to (header_bytes length)) 8)
      (fun p1 => send_loop group fuel p1 target data length).
Proof.
  intros Ht Hl. unfold send, sizeof_comm_header.
  destruct (0 <=? target) eqn:E1; [|apply Z.leb_gt in E1; lia].
  destruct (target <? _size (comm p)) eqn:E2; [|apply Z.ltb_ge in E2; lia].
  destruct (0 <? length) eqn:E3; [|apply Z.ltb_ge in E3; lia].
  reflexivity.
Qed.

Lemma send_streams (size W : Z) (group : nat -> flush_env)
    (p : peer) (target : Z) (data : nat -> byte) (length : Z) :
  group_ok group size -> size * 8 <= W -> W < 2 ^ 34 ->
  0 <= target < size ->
  0 < length <= size_t_modulus - 8 ->
  sending_ok size W (comm p) ->
  exists fuel p',
    (forall fuel', (fuel <= fuel')%nat ->
       send group fuel' p target data length = Returns p')
    /\ sending_ok size W (comm p')
    /\ stream p' target = stream p target ++ frame (data, length)
    /\ (forall u, 0 <= u < size -> u <> target ->
          stream p' u = stream p u).
Proof.
  intros Hg HW Hint Ht Hn Sok.
  destruct (send_spec size W group target Hg HW Ht p data length Hn Sok)
    as (fuel & p' & Run & Sok' & St & _).
  exists fuel, p'. split; [exact Run|]. split; [exact Sok'|].
  split; [exact (St Hint)|].
  intros u Hu Hne.
  specialize (Run fuel (Nat.le_refl _)).
  rewrite send_unfold in Run
    by (try rewrite (so_size _ _ _ Sok); lia).
  destruct (send_loop_outcome size W group target Hg Ht fuel 8 p
              (pointer_to (header_bytes length))
              ltac:(unfold size_t_modulus; lia) Sok)
    as [Sp|(p1 & R1 & S1)]; rewrite ?Sp, ?R1 in Run;
    cbn [and_then] in Run; [discriminate|].
  rewrite (send_loop_elsewhere size W group target u Hg Hint Ht Hu Hne
             _ _ _ _ _ Hn S1 Run).
  apply (send_loop_elsewhere size W group target u Hg Hint Ht Hu Hne
           fuel 8 p (pointer_to (header_bytes length)));
    [unfold size_t_modulus; lia|exact Sok|exact R1].
Qed.

(** X12. A send reaches only its target. For a window of at least one
    element per peer and below [2^34] bytes, a target in range and a
    length from 1 to [2^64 - 8], with flushes taking place: [send]
    returns, the stream to the target grows by the frame of the
    message, and the stream to every other peer, staged or on the wire,
    is the same as before, however many exchanges the send forced. *)
Theorem send_keeps_other_streams (size W : Z) (group : nat -> flush_env)
    (p : peer) (target : Z) (data : nat -> byte) (length : Z) :
  group_ok group size -> size * 8 <= W -> W < 2 ^ 34 ->
  0 <= target < size ->
  0 < length <= size_t_modulus - 8 ->
  sending_ok size W (comm p) ->
  exists fuel p',
    (forall fuel', (fuel <= fuel')%nat ->
       send group fuel' p target data length = Returns p')
    /\ stream p' target = stream p target ++ frame (data, length)
    /\ (forall u, 0 <= u < size -> u <> target ->
          stream p' u = stream p u).
Proof.
  intros Hg HW Hint Ht Hn Sok.
  destruct (send_streams size W group p target data length Hg HW Hint Ht Hn
              Sok) as (fuel & p' & Run & _ & St & Else).
  now exists fuel, p'.
Qed.

Lemma send_keeps_other_streams_witness :
  exists fuel p',
    (forall fuel', (fuel <= fuel')%nat ->
       send quiet_group fuel' (fresh_peer 2 64 0) 1
         (pointer_to [Byte.x2a]) 40 = Returns p')
    /\ stream p' 1
       = stream (fresh_peer 2 64 0) 1 ++ frame (pointer_to [Byte.x2a], 40)
    /\ (forall u, 0 <= u < 2 -> u <> 1 ->
          stream p' u = stream (fresh_peer 2 64 0) u).
Proof.
  apply (send_keeps_other_streams 2 64 quiet_group (fresh_peer 2 64 0) 1
           (pointer_to [Byte.x2a]) 40).
  - intros k. simpl. lia.
  - lia.
  - lia.
  - lia.
  - unfold size_t_modulus. lia.
  - apply sending_ok_construct; unfold is_size_t, size_t_modulus; lia.
Defined.

(** ** The assertions of [send] *)



(** ** The exchanges a send forces *)

Lemma capacity_of_sending_ok (size W : Z) (c : mpi_comm) :
  sending_ok size W c ->
  _max_sendlength_per_machine c
  = W / size / sizeof_send_type * sizeof_send_type.
Proof.
  intros [K Hsz Hw _ _ _ _]. now rewrite (ok_capacity c K), Hsz, Hw.
Qed.






(** ** A frame behind a header of length zero *)

(** X15. A frame that arrives in the same run behind a header of
    length zero is not handed out: the zero header is consumed at the
    insert, nobody consumes the header of the frame, and [receive]
    returns NULL although the whole frame is in the queue. The next
    insert for this source, whatever it brings, consumes the header,
    and [receive] then returns the block and the length of the
    frame. *)
Theorem frame_behind_zero_header_waits (c : mpi_comm) (idx : Z)
    (data : nat -> byte) (len : Z) (run : list byte) :
  at_index (_receive_buffer c) idx = Some empty_receive_buffer ->
  0 < len <= size_t_modulus - 8 ->
  Z.of_nat (length (header_bytes 0 ++ frame (data, len)))
  + Z.of_nat (length run) < size_t_modulus ->
  exists c1 c2 c3,
    insert_receive_buffer c idx (header_bytes 0 ++ frame (data, len))
      (Z.of_nat (length (header_bytes 0 ++ frame (data, len)))) = Some c1
    /\ receive c1 idx = Some (None, c1)
    /\ insert_receive_buffer c1 idx run (Z.of_nat (length run)) = Some c2
    /\ receive c2 idx = Some (Some (delivery (data, len)), c3).
Proof.
  intros Hc Hlen Hb.
  pose proof (at_index_range _ _ _ Hc) as R.
  pose proof (round_up_spec len) as [R8 Rb].
  pose proof (length_padded_block data len) as Lp.
  set (block := map data (seq 0 (Z.to_nat (round_up len)))) in *.
  assert (Lf : Z.of_nat (length (header_bytes 0 ++ frame (data, len)))
               = 16 + round_up len).
  { cbn [frame]. fold block.
    rewrite !length_app, !length_header_bytes, Lp. lia. }
  rewrite Lf in *.
  (* the first insert consumes the zero header *)
  set (b1 := {| buflen := 8 + round_up len;
                buffer := frame (data, len);
                next_message_length := 0;
                padded_next_message_length := 0 |}).
  assert (I1 : insert_bytes empty_receive_buffer
                 (header_bytes 0 ++ frame (data, len)) (16 + round_up len)
               = b1).
  { unfold insert_bytes, empty_receive_buffer, sputn. fields.
    rewrite <- Lf, Nat2Z.id, firstn_all, Lf. cbn [app].
    rewrite wrap_small by (unfold is_size_t; lia).
    rewrite read_header_fires; [|reflexivity|cbn [buflen]; lia].
    fields.
    change (firstn 8 (header_bytes 0 ++ frame (data, len)))
      with (header_bytes 0).
    change (skipn 8 (header_bytes 0 ++ frame (data, len)))
      with (frame (data, len)).
    rewrite header_round_trip by (unfold is_size_t, size_t_modulus; lia).
    change (get_padded_length 0) with 0.
    rewrite wrap_small by (unfold is_size_t; lia).
    unfold b1. f_equal. lia. }
  set (c1 := set_receive_buffer c
               (set_nth (Z.to_nat idx) (_receive_buffer c) b1)).
  assert (H1 : at_index (_receive_buffer c1) idx = Some b1).
  { cbn [c1 set_receive_buffer _receive_buffer].
    now apply at_index_set_nth_same. }
  (* the second insert consumes the header of the frame *)
  set (b2 := loaded len (block ++ run)).
  assert (I2 : insert_bytes b1 run (Z.of_nat (length run)) = b2).
  { unfold insert_bytes, b1, sputn. fields.
    rewrite Nat2Z.id, firstn_all.
    rewrite wrap_small by (unfold is_size_t; lia).
    rewrite read_header_fires; [|reflexivity|cbn [buflen]; lia].
    fields. cbn [frame]. fold block. rewrite <- !app_assoc.
    change (firstn 8 (header_bytes len ++ block ++ run))
      with (header_bytes len).
    change (skipn 8 (header_bytes len ++ block ++ run))
      with (block ++ run).
    rewrite header_round_trip by (unfold is_size_t; lia).
    rewrite get_padded_length_exact by lia.
    rewrite wrap_small by (unfold is_size_t; lia).
    unfold b2, loaded. f_equal. rewrite length_app, Lp. lia. }
  set (c2 := set_receive_buffer c1
               (set_nth (Z.to_nat idx) (_receive_buffer c1) b2)).
  assert (R1 : 0 <= idx < Z.of_nat (length (_receive_buffer c1)))
    by (apply (at_index_range _ _ _ H1)).
  assert (H2 : at_index (_receive_buffer c2) idx = Some b2).
  { cbn [c2 set_receive_buffer _receive_buffer].
    now apply at_index_set_nth_same. }
  exists c1, c2. eexists. split; [|split; [|split]].
  - rewrite (insert_receive_buffer_some _ _ _ _ _ Hc), I1. reflexivity.
  - apply (receive_none _ _ _ H1). left. reflexivity.
  - rewrite (insert_receive_buffer_some _ _ _ _ _ H1), I2. reflexivity.
  - rewrite (receive_some _ _ _ H2)
      by (unfold b2, loaded; fields; rewrite length_app, Lp; lia).
    unfold b2, loaded at 1 2. fields.
    rewrite (firstn_exact _ _ _ Lp). reflexivity.
Qed.

Lemma frame_behind_zero_header_waits_witness :
  exists c1 c2 c3,
    insert_receive_buffer (construct 2 64 0) 1
      (header_bytes 0 ++ frame (pointer_to [Byte.x2a], 1))
      (Z.of_nat (length (header_bytes 0 ++ frame (pointer_to [Byte.x2a], 1))))
    = Some c1
    /\ receive c1 1 = Some (None, c1)
    /\ insert_receive_buffer c1 1 (header_bytes 7)
         (Z.of_nat (length (header_bytes 7))) = Some c2
    /\ receive c2 1
       = Some (Some (delivery (pointer_to [Byte.x2a], 1)), c3).
Proof.
  apply (frame_behind_zero_header_waits (construct 2 64 0) 1
           (pointer_to [Byte.x2a]) 1 (header_bytes 7)).
  - reflexivity.
  - unfold size_t_modulus. lia.
  - vm_compute. reflexivity.
Defined.

(** ** Sends to several targets *)

(** X16. Sends of one thread to several targets, in any interleaving.
    For a window of at least one element per peer and below [2^34]
    bytes, targets in range and lengths from 1 to [2^64 - 8], with
    flushes taking place: all sends return, and the stream to each peer
    is extended by the frames of exactly the messages addressed to it,
    in the order they were sent. *)
Theorem send_each_streams (size W : Z) (group : nat -> flush_env)
    (messages : list (Z * ((nat -> byte) * Z))) (p : peer) :
  group_ok group size -> size * 8 <= W -> W < 2 ^ 34 ->
  Forall (fun m => 0 <= fst m < size
                   /\ 0 < snd (snd m) <= size_t_modulus - 8) messages ->
  sending_ok size W (comm p) ->
  exists fuel p',
    (forall fuel', (fuel <= fuel')%nat ->
       send_each group fuel' p messages = Returns p')
    /\ sending_ok size W (comm p')
    /\ (forall u, 0 <= u < size ->
          stream p' u
          = stream p u ++ concat (map frame (messages_to u messages))).
Proof.
  intros Hg HW Hint. revert p.
  induction messages as [|[target [data length]] messages IH];
    intros p Hm Sok.
  - exists 0%nat, p. split; [reflexivity|]. split; [exact Sok|].
    intros u Hu. cbn. now rewrite app_nil_r.
  - inversion Hm as [|? ? [Ht Hn] Hrest]; subst. cbn [fst snd] in Ht, Hn.
    destruct (send_streams size W group p target data length Hg HW Hint Ht
                Hn Sok) as (fuel1 & p1 & Run1 & S1 & St1 & Else1).
    destruct (IH p1 Hrest S1) as (fuel2 & p2 & Run2 & S2 & St2).
    exists (Nat.max fuel1 fuel2), p2.
    split; [|split; [exact S2|]].
    + intros fuel' Hf. cbn [send_each].
      rewrite Run1 by lia. cbn [and_then]. apply Run2. lia.
    + intros u Hu. rewrite (St2 u Hu).
      unfold messages_to. cbn [filter fst].
      destruct (target =? u) eqn:E.
      * apply Z.eqb_eq in E. subst u.
        rewrite St1. cbn [map snd concat]. now rewrite app_assoc.
      * apply Z.eqb_neq in E. rewrite Else1 by (try assumption; lia).
        reflexivity.
Qed.

Lemma send_each_streams_witness :
  exists fuel p',
    (forall fuel', (fuel <= fuel')%nat ->
       send_each quiet_group fuel' (fresh_peer 2 64 0)
         [(1, (pointer_to [Byte.x2a], 40)); (0, (pointer_to [Byte.x2b], 1))]
       = Returns p')
    /\ sending_ok 2 64 (comm p')
    /\ (forall u, 0 <= u < 2 ->
          stream p' u
          = stream (fresh_peer 2 64 0) u
            ++ concat (map frame
                 (messages_to u
                    [(1, (pointer_to [Byte.x2a], 40));
                     (0, (pointer_to [Byte.x2b], 1))]))).
Proof.
  apply (send_each_streams 2 64 quiet_group
           [(1, (pointer_to [Byte.x2a], 40)); (0, (pointer_to [Byte.x2b], 1))]
           (fresh_peer 2 64 0)).
  - intros k. simpl. lia.
  - lia.
  - lia.
  - repeat constructor; cbn [fst snd]; unfold size_t_modulus; lia.
  - apply sending_ok_construct; unfold is_size_t, size_t_modulus; lia.
Defined.

(** ** A window smaller than one element per peer *)

Lemma send_loop_no_capacity (size W : Z) (group : nat -> flush_env)
    (target : Z) :
  group_ok group size -> 0 <= target < size ->
  forall fuel n p ptr,
    0 < n < size_t_modulus ->
    sending_ok size W (comm p) ->
    _max_sendlength_per_machine (comm p) = 0 ->
    send_loop group fuel p target ptr n = Spins.
Proof.
  intros Hg Ht.
  induction fuel as [|fuel IH]; intros n p ptr Hn Sok Hcap.
  - cbn [send_loop].
    destruct (0 <? n) eqn:E; [reflexivity|apply Z.ltb_ge in E; lia].
  - pose proof Sok as [K Hsz Hw L Hidle Hrun Hflag].
    pose proof (slot_length_at_index (comm p) target K ltac:(lia)) as Sl.
    pose proof (in_lengths_ok _ _ _ _ L Sl) as [[O0 O1] _].
    assert (G : grant_of (comm p) (slot_length (comm p) target) n = 0).
    { unfold grant_of. pose proof (get_padded_length_range n) as [P0 _].
      lia. }
    rewrite send_loop_step by lia.
    rewrite (actual_send_spec _ _ _ _ _ K L Sl), G.
    change (0 =? 0) with true. cbn [lift and_then].
    rewrite Z.sub_0_r, wrap_small by (unfold is_size_t; lia).
    destruct (0 <? n) eqn:E; [|apply Z.ltb_ge in E; lia].
    replace (set_comm p (comm p)) with p by (destruct p; reflexivity).
    destruct (peer_flush_spec size W group p target Sok Hg Ht)
      as (p2 & F2 & S2 & _).
    rewrite F2. cbn [lift and_then].
    apply IH; [exact Hn|exact S2|].
    rewrite (capacity_of_sending_ok _ _ _ S2).
    rewrite <- (capacity_of_sending_ok _ _ _ Sok). exact Hcap.
Qed.

(** X17. The constructor takes any window size. With a window of fewer
    than eight bytes per peer the capacity of every slot is 0, no stage
    is ever granted a byte, and every [send] flushes for ever: it does
    not return and does not abort, whatever the message. *)
Theorem send_spins_on_small_window (size W : Z) (group : nat -> flush_env)
    (p : peer) (target : Z) (data : nat -> byte) (length : Z) :
  group_ok group size ->
  W < size * sizeof_send_type ->
  0 <= target < size ->
  0 < length < size_t_modulus ->
  sending_ok size W (comm p) ->
  _max_sendlength_per_machine (comm p) = 0
  /\ forall fuel, send group fuel p target data length = Spins.
Proof.
  intros Hg HW Ht Hn Sok. unfold sizeof_send_type in HW.
  pose proof Sok as [K Hsz Hw L Hidle Hrun Hflag].
  assert (Hcap : _max_sendlength_per_machine (comm p) = 0).
  { rewrite (capacity_of_sending_ok _ _ _ Sok). unfold sizeof_send_type.
    destruct (ok_window _ K) as [W0 _]. rewrite Hw in W0.
    assert (D : 0 <= W / size < 8).
    { split; [apply Z.div_pos; lia|].
      apply Z.div_lt_upper_bound; lia. }
    rewrite (Z.div_small (W / size) 8) by exact D. reflexivity. }
  split; [exact Hcap|].
  intros fuel. rewrite send_unfold by (rewrite ?Hsz; lia).
  rewrite (send_loop_no_capacity size W group target Hg Ht);
    [reflexivity|unfold size_t_modulus; lia|exact Sok|exact Hcap].
Qed.

Lemma send_spins_on_small_window_witness :
  send quiet_group 1000 (fresh_peer 2 15 0) 1 (pointer_to [Byte.x2a]) 1
  = Spins.
Proof.
  destruct (send_spins_on_small_window 2 15 quiet_group (fresh_peer 2 15 0) 1
              (pointer_to [Byte.x2a]) 1) as [_ H].
  - intros k. simpl. lia.
  - unfold sizeof_send_type. lia.
  - lia.
  - unfold size_t_modulus. lia.
  - apply sending_ok_construct; unfold is_size_t, size_t_modulus; lia.
  - apply H.
Defined.

(** ** What a flush brings in *)







(** ** A send beside the flushing thread *)








